(* ===== verification/_CoqProject ===== *)
-Q . S2P
Prelude.v
JsString.v
Escape.v
Query.v
Location.v
Url.v
History.v
Browser.v
Ghspa.v
Roundtrip.v
Exposable.v
Session.v
Requests.v
