(* ===== verification/Prelude.v ===== *)
(** * ghspa: a verified model of the GitHub-Pages single-page-application shim

    ** The program

    [src/ghspa.js] is one immediately-invoked function of two parameters,
    the document location [l] and the flag [projectPages].  A static host
    that knows a single real document serves a fallback document for every
    other path; both documents run the script.  On every page load it
    - computes the repository prefix [repo] from the flag and the first
      segment of [l.pathname] (line 22);
    - on the fallback document (title ["404"]) runs [redirect] (lines
      25-37): it builds an absolute URL on the real document that carries
      the requested path and query in the query keys [p] and [q], every
      ["&"] written as ["~and~"], and navigates there with
      [location.replace];
    - on any other document runs [resolve] (lines 40-58): it parses the
      query string into an object and, when the key [p] is present,
      rewrites the visible URL with [history.replaceState] to the prefix,
      the decoded path, the decoded query and the fragment.
    There is no state between loads; within a load the only mutable object
    is the query object [q] filled by a [forEach] loop.

    ** Layout (files in dependency order)

    - [Prelude] (this file): strings as lists of code units ([str]), the
      literal [js], ToBoolean on strings ([truthy]), ToString of a possibly
      undefined operand ([to_string]), the tactics [by_compute],
      [solve_notin], [split_decide] and [js_simp], the hint database [js]
      and the rewrite database [js_rw] the other files add their rules to,
      generic prefix lemmas.
    - [JsString], module [JsString]: the ECMAScript primitives the source
      calls: [split], [join], [slice], [index], the global replace
      ([replace_loop], [replace_all]; an Equations definition by
      well-founded recursion on the length, since a match skips several code
      units) and the first-occurrence replace ([replace_first]); the
      reference definitions [cut] and [occurs]; the computation rules of
      the primitives, which the other files rewrite with.
    - [Escape], module [Escape]: [escape] (lines 33-34) and [unescape] (line
      48); the class [Escaping], which states what the other files may
      assume of an escaping ([esc_app], [esc_id], [esc_sep_free]) and the
      instance [amp_escaping]; the predicate [ambiguous] and the theorem
      [unescape_escape_iff] that it is exactly the obstruction to the round
      trip; the round trip as a projection ([unescape_escape_idempotent]);
      induction along the decoder's scan ([token_ind]); the decoder leaves
      no token undecoded ([unescape_complete]).
    - [Query], module [Query]: the parser of lines 42-49.  The object [q] is
      a [gmap str str]; [obj_set] is the assignment [q[k] = v], [entry] the
      key and value of one piece, [store] the callback, [parse_query] the
      loop.  The reference definition [last_value] states "the last entry
      wins"; [parse_query_last_wins] is the refinement theorem and
      [parse_query_typed] the form of the keys and values of the object.
    - [Location], module [Location]: the record of the attributes of
      [window.location] the script reads, its serialisation [href], the
      shape [wf] the URL standard gives the attributes, and the code units
      a browser writes as they are in a path, a query and a fragment
      ([path_unit], [query_unit], [fragment_unit]; [clean] for a location
      made of them).
    - [Url], module [Url]: what a browser does to the components of an
      [http(s)] URL, modelled from the URL standard since it is not code
      of the repository: a query and a fragment stand behind their
      delimiter or are empty ([lead]), an empty path is ["/"]
      ([path_or_root]), an apostrophe of the query becomes ["%27"]
      ([encode_query]), the one code unit a browser leaves alone in a path
      and encodes in a query; [encoded l] is the location exposed for
      [href l]; a path with a dot segment (["."], [".."] or a form of them
      written with ["%2e"], [dot_segments], [has_dot_segment]) would be
      normalised.  [exposable] is the form of the locations a browser
      exposes: well formed, [clean], no apostrophe in the query, no dot
      segment.  The file holds no parser.
    - [History], module [History]: the interface between the script and the
      browser, stated with the definitions of [Url].  The class
      [HistoryApi] has the two operations the script calls, [navigate] for
      [location.replace] and [replace_url] for [history.replaceState],
      and the predicate [exposed] of the values [window.location] can
      have.  A history update ends in a value of [resolved]: the entry
      shows a location, or the call throws a [SecurityError].  The class
      [HistoryApiOk] has the laws, stated where every browser agrees: an
      exposed location is [exposable], and every [exposable] location at
      the origin of an exposed one is exposed; a navigation to [href l]
      for a clean [l] at the origin of the document loads [encoded l]; a
      history update never leaves the origin, shows the path, query and
      fragment it is given, and, when the path starts with ["//"], refuses
      another host ([plain_host]: one of lower-case letters and dots) and
      shows the rest of the path behind the host and port of the document.
    - [Browser], module [Browser]: a URL parser as the browser:
      [parse_href], the attributes of the document loaded by
      [location.replace(url)], and [resolve_reference], the attributes
      shown after [history.replaceState(null, null, url)].  Both are
      partial: a URL outside [scheme://host[:port]/path?query#fragment], an
      empty host and a path with a dot segment give [None].  [wf_url] is
      [exposable] with the form of the origin the parser accepts;
      [parse_href (href l)] is [encoded l] ([parse_href_encodes]) and
      every location the two functions give is well formed
      ([parse_href_wf], [resolve_reference_wf]).  [url_model] is the
      parser as a [HistoryApi] and [url_model_ok] the proof that it
      satisfies the laws.
    - [Ghspa], module [Ghspa]: the script: [repo] (line 22), [redirect],
      [resolve], [main] (the function body with the dispatch of line 61) and
      [ghspa] (the call of line 62 with [window.projectPages || true]).
      The browser calls are values of [effect]; a load performs at most one.
      [resolve_spec] is the contract of the specification and
      [resolve_refines_spec] the refinement theorem; [payload] is the part
      of the query string [resolve] depends on, its entries with the keys
      [p] and [q] ([resolve_of_payload], [ghspa_reads_payload]).  In the
      source [redirect] and [resolve] are closures over [l] and [repo];
      the model passes both as arguments and [main] gives them the prefix
      it computes from the same [l], as line 22 does.  Theorems on what
      the script does are stated on [main] and [ghspa]; a theorem on
      [resolve l r] or [redirect l r] holds for every prefix [r].
    - [Roundtrip], module [Roundtrip]: the location [landing] loaded by the
      navigation, which is the URL of lines 27-35 by its components
      ([redirect_lands_eq]; [landing_of] as the browser exposes it), the
      object the parser of [resolve] reads from its query string
      ([wire_format]), and the location
      [shown] that [resolve] displays there; [shown_encoded] when the
      browser has encoded the query of the landing URL, for every request:
      it shows the prefix and the decoded [carried_path], which is the rest
      of the path, or the whole path when the first segment holds ["&"].
      The lemmas proved against [Escaping], and the theorems on the two
      runs of the script: [ghspa_roundtrip], the URL format of [redirect],
      and the behaviour when the first path segment contains ["&"].
      Unescaping commutes with the percent-encoding
      ([unescape_encode_query]), and so does escaping
      ([escape_encode_query]); [shown_encoded l] is [l] exactly under the
      conditions of [shown_encoded_safe].
    - [Exposable], module [Exposable]: [landing_of l] and [shown_encoded l]
      are [exposable] whenever [l] is.  The escaping and the
      percent-encoding work within the segments of a path
      ([JsString.split_flat_map], [Escape.split_escape],
      [Escape.split_unescape]) and a segment they change is no dot
      segment; they add no code unit a browser would encode.  What the
      script shows it shows again: [shown_encoded] is idempotent on a
      request whose first segment has no ["&"] ([shown_encoded_fixed]).
    - [Session], module [Session]: the loads of one tab, in any browser:
      the definitions take a [HistoryApi] and the theorems assume
      [HistoryApiOk]; the examples are computed with [url_model].  The
      host is a
      [site] (the title and the flag each location is served with); a
      [host] gives it as data (the titles of its documents by path and the
      title of its fallback document) and [serve] answers a request from
      it.  The tab is a record [tab] (history entries, current index, load
      counter, whether the script has yet to run, the exception it ended
      with).
      One run of the script and the browser's reaction is [step] (an
      inductive relation) and [step_fun] (the function that computes it,
      [step_fun_spec], which makes the relation decidable, [step_dec]);
      [run] iterates it with fuel.  [open_at l] is the
      tab of a request for [l]; [reload] is the user asking for the
      document of the current entry again.  The invariant
      [on_site] and the measure [budget] carry the theorems on all
      sequences of steps: [session_same_origin] and [session_terminates].
      Hosts with the same
      titles ([same_titles], an equivalence) give the same steps: [step],
      [step_fun] and [run] are [Proper] for it, which is how
      [session_ignores_flag] rewrites one host into another.
    - [Requests], module [Requests]: what a request ends with, in any
      browser that satisfies the laws.  [run_two_from] is the lemma the
      theorems share: after two runs the current entry of the tab shows
      [shown_encoded l], whatever the escaping does to the request and
      whatever other entries the tab has ([run_two] for the tab of a
      request).  [session_restores] is the end-to-end
      theorem, [session_restores_iff] its exact form, [session_settles] the outcome
      for every request, [fallback_under_segment_loops] the redirect loop,
      [double_slash_request] the request whose path starts with ["//"],
      [apostrophe_request] the request with apostrophes in its path,
      [amp_segment_request] the request whose first segment holds ["&"],
      [reload_restores] the reload of the page the script has restored,
      [real_document_untouched] the visit of a page of the site.

    ** What the theorems show

    - Escaping: [unescape (escape s) = s] iff [ambiguous s = false], iff
      [s] contains neither ["~and~"] nor ["~and&"]
      ([unescape_escape_iff]): the specification's condition, no
      ["~and~"] in the source, is not sufficient.  The round trip is a
      projection onto these strings; the encoding contains no ["&"];
      [escape (unescape t) = t] on strings without ["&"], on which
      unescaping is injective; the length of an escaped string.
    - Parser: the object is the last-wins map of the entries
      ([parse_query_last_wins]); its keys hold neither ["&"] nor ["="]
      and its values no token ([parse_query_typed]); the shape of an
      entry ([entry_spec]).
    - Script: [resolve] refines its contract and is a no-op exactly on an
      empty query string or a missing [p]; on a document other than the
      fallback document the script depends on nothing of the location but
      its first path segment, the entries [p] and [q] of the query string
      and the fragment ([ghspa_reads_payload]); the script navigates
      exactly on the title ["404"]; the fragment is kept by both
      branches; the flag [window.projectPages] cannot be switched off
      ([ghspa_flag_ignored]).
    - Round trip: the parser of [resolve] reads from the query string
      [redirect] writes exactly the keys [p] and [q] with the decoded
      values ([wire_format]); for a well-formed location with an
      ["&"]-free first segment and a rest of path and query on which the
      escaping is [safe], the second load shows the requested path, query
      and fragment; otherwise, when the first segment contains ["&"], the
      prefix is duplicated ([amp_in_first_segment_duplicates]).
    - Browser (lemmas and examples, no property of the script): the
      parser [parse_href] inverts [href] on [wf_url] locations, and up to
      the encoding of the query on all well-formed ones;
      [resolve_reference] shows the location whose path, query and fragment
      it is given; the parser satisfies the laws of the interface
      ([url_model_ok]), so the examples can be computed with it.
    - Exposable: the URLs the script builds from an exposed location need
      no normalisation: no dot segment appears, no code unit to encode but
      the apostrophe in the query of the landing URL.
    - Session: for every request the browser exposes, no sequence of runs
      leaves the origin of the request ([session_same_origin]); under
      a prefix at which the host has a real document every sequence of runs
      is finite and has at most two runs; on a host with no document
      titled ["404"], the fallback document included, the script never
      navigates ([untitled_fallback_never_loads]); the flag the pages set
      changes no step of any tab ([session_ignores_flag]).
    - Requests: a document with another title than ["404"], visited with
      a query string without the key [p], is left as it is
      ([real_document_untouched]).  For every location the browser
      exposes, without a leading ["//"], a request answered with the
      fallback document settles after exactly two runs, in the same
      history entry and without exception, on a location the browser
      exposes as it is, at the origin and under the first path segment of
      the request, and the other entries of the tab are as they were
      ([session_settles]); a reload of that location ends on it again
      ([reload_restores]).  That location is the requested one if and only
      if the first segment has no ["&"], the escaping is [safe] on the
      rest of the path and on the query and the rest of the path has no
      apostrophe ([session_restores_iff]).  A path that
      starts with ["//"] is handed to [history.replaceState] as a
      reference to another host, and the call throws
      ([double_slash_request]); a host that answers with the fallback
      document under the whole first segment of the request (a site at the
      root of its domain, since the flag cannot be switched off) makes
      every run load the next landing location, for ever
      ([fallback_under_segment_loops]); an apostrophe behind the first
      path segment comes back as ["%27"], for every request
      ([apostrophe_request]); a first segment with ["&"] comes back twice
      ([amp_segment_request]).

    ** Strings, bounds and fuel

    A JavaScript string is a sequence of UTF-16 code units.  Every string
    the program inspects is a component of [window.location], which the URL
    serialiser keeps within ASCII (other code points are percent-encoded),
    or [document.title], which is only compared with ["404"].  The model
    uses [list ascii]; all comparisons in the source are with ASCII
    characters, so nothing in the definitions depends on the alphabet
    beyond decidable equality.  Every function of the script is
    structurally recursive except [replace_loop], whose termination measure
    is the length of the remaining input; its unfolding lemma is proved
    without functional extensionality, and the theorems of the
    development depend on no axiom.  Replacement strings are taken
    literally, which is what the source's replacements (['~and~'], ['&'],
    ['']) mean because none contains ["$"].  Numbers held by
    [window.projectPages] are integers (no [NaN], no BigInt, no Symbol);
    only the truthiness of the value is used, on line 62.  The only fuel is the number of runs of the script in
    [Session.run]: a chain of loads need not end
    ([fallback_under_segment_loops]), so [run] takes a bound.  Two units
    are enough whenever the host has a real document at the prefix of the
    request ([session_terminates]: [run (2 + n)] is [run 2], and the step
    relation is strongly normalising there), and the theorems on requests
    are stated for every amount of fuel from two on.

    ** Not modelled

    The browser is an interface with laws; the laws cover the URLs the
    script builds from an exposed location and say nothing else.  Not
    covered, and [None] in the parser [url_model]: the normalisation of
    dot segments and of a host name (upper case, numbers, labels to
    decode), the slashes a browser skips before an empty host, the
    percent-encoding of code units outside [clean], other schemes than
    [http(s)].  None of them occurs on the way of a request: the theorems
    of [Exposable] show that the script's URLs stay within the laws, with
    one exception, a path that starts with ["//"], for which the laws
    cover a host of lower-case letters and dots and the host of the
    document ([double_slash_request]).  For a URL outside the laws
    [navigate] or [replace_url] may give [None]: the tab then takes no
    step and stays pending, and [run] returns it as it is; every theorem
    on the end of a request states [pending = false], so such a tab is
    never taken for a settled one.  The two browser calls replace the
    current history entry by their meaning ([show]); that the script
    adds no entry is therefore part of the model of the calls and no
    theorem about the script.  The object [q] ignores an assignment to
    the key ["__proto__"], as an object created by [{}] does; the script
    reads [q.p] and [q.q] only, so this is not visible in a URL.  Other
    tabs, back and forward
    navigation and the [base] element are outside the script's reach.
    The host is its answer to each location ([site], [host]); the HTTP
    exchange is not modelled.  The banner comment of lines 1-19 has no
    behaviour. *)

From Stdlib Require Export Ascii.
From Stdlib Require String.
From stdpp Require Export list strings.

Set Default Goal Selector "!".

(** ** Strings as lists of code units *)

Declare Scope js_scope.
Delimit Scope js_scope with js.

Abbreviation str := (list ascii).

(** [js "abc"] is the literal ['abc'] of the source. *)
Definition js (s : string) : str := String.list_ascii_of_string s.

(** ToBoolean on a string: only the empty string is falsy. *)
Definition truthy (s : str) : bool :=
  match s with
  | [] => false
  | _ :: _ => true
  end.

(** The operand of a string concatenation that may be [undefined]
    (an out-of-range array index): ToString gives ["undefined"]. *)
Definition to_string (o : option str) : str :=
  match o with
  | Some s => s
  | None => js "undefined"
  end.

Notation "'&c'" := ("&"%char) (only parsing) : js_scope.

(** ** Hint databases and tactics *)

Create HintDb js discriminated.

(** Rewriting database for the computation rules of the string primitives. *)
Create Rewrite HintDb js_rw.

(** Rewrite with the computation rules of the string primitives. *)
Ltac js_simp := autorewrite with js_rw.

(** Decide an equation between two concrete code units. *)
Ltac char_neq := first [ discriminate | congruence | (intros ?; discriminate) ].

(** Close a decidable goal about concrete strings by evaluation. *)
Ltac by_compute :=
  lazymatch goal with
  | |- ?P =>
      let d := constr:(_ : Decision P) in
      apply (@bool_decide_unpack P d); vm_compute; exact I
  end.

(** Non-membership of a code unit in a concatenation, from hypotheses on
    the parts and evaluation on the literal parts. *)
Ltac solve_notin :=
  repeat match goal with
    | H : _ ∉ _ ++ _ |- _ => apply not_elem_of_app in H as [? ?]
    | H : _ ∉ _ :: _ |- _ => apply not_elem_of_cons in H as [? ?]
    end;
  rewrite ?not_elem_of_app, ?not_elem_of_cons;
  repeat split; first [ done | by_compute | apply not_elem_of_nil ].

(** Case analysis on every [decide] and [bool_decide] of the goal. *)
Ltac split_decide :=
  repeat first [ case_decide | case_bool_decide ]; simplify_eq/=; try done.

(** ** Generic facts *)

Section lists.
Context {A : Type}.
Implicit Types (l k : list A) (x y : A).

Lemma truthy_length (s : str) : truthy s = true ↔ s ≠ [].
Proof. destruct s; naive_solver. Qed.

Lemma prefix_cons_iff x y l k :
  (x :: l) `prefix_of` (y :: k) ↔ x = y ∧ l `prefix_of` k.
Proof.
  split.
  - intros H. split; [by eapply prefix_cons_inv_1 | by eapply prefix_cons_inv_2].
  - intros [-> H]. by apply prefix_cons.
Qed.

Lemma prefix_nil_iff x l : (x :: l) `prefix_of` [] ↔ False.
Proof. split; [apply prefix_nil_not|done]. Qed.

Lemma prefix_drop l k : l `prefix_of` k → k = l ++ drop (length l) k.
Proof. intros [t ->]. by rewrite drop_app_length. Qed.

End lists.

#[export] Hint Rewrite @prefix_cons_iff @prefix_nil_iff : js_rw.
#[export] Hint Resolve not_elem_of_nil prefix_nil : js.
