(* ===== verification/JsString.v ===== *)
(** * JsString: the string and array primitives called by [src/ghspa.js]

    Each definition is the ECMAScript operation at the call sites named in
    its comment, restricted to the argument shapes the source uses (a
    one-character separator for [split], literal patterns for [replace],
    replacement strings without ["$"], a non-negative start for [slice]).
    All of them are total and executable. *)

From Equations Require Import Equations.
From S2P Require Import Prelude.

Module JsString.

(** ** Definitions *)

(** [s.split(sep)] for a separator of one code unit (lines 22, 45, 47):
    the pieces between the occurrences of [sep], so one more piece than
    there are separators; the empty string gives one empty piece. *)
Fixpoint split (sep : ascii) (s : str) : list str :=
  match s with
  | [] => [[]]
  | c :: s' =>
      if decide (c = sep) then [] :: split sep s'
      else match split sep s' with
           | w :: ws => (c :: w) :: ws
           | [] => [[c]]
           end
  end.

(** [a.join(sep)] (line 48): the elements separated by [sep]; the empty
    array gives the empty string. *)
Fixpoint join (sep : str) (ws : list str) : str :=
  match ws with
  | [] => []
  | [w] => w
  | w :: ws' => w ++ sep ++ join sep ws'
  end.

(** [x.slice(n)] on a string or an array, [n] a non-negative integer
    (lines 34, 44, 48): the elements from index [n] on. *)
Definition slice {A : Type} (n : nat) (l : list A) : list A := drop n l.

(** The unfolding lemma of [replace_loop] is proved without functional
    extensionality, so the development rests on no axiom. *)
#[local] Unset Equations With Funext.

(** The loop of a global regular-expression replace whose pattern is the
    literal [p :: ps]: scan from the left; at a match emit the replacement
    and continue after the match, otherwise copy one code unit. *)
Equations? replace_loop (p : ascii) (ps r s : str) : str by wf (length s) lt :=
  replace_loop p ps r [] := [];
  replace_loop p ps r (c :: s') with decide ((p :: ps) `prefix_of` (c :: s')) := {
    | left _ := r ++ replace_loop p ps r (drop (length ps) s');
    | right _ := c :: replace_loop p ps r s' }.
Proof. all: simpl; rewrite ?length_drop; lia. Qed.

(** [s.replace(/pat/g, r)] for a literal pattern (lines 33, 34, 48).  The
    empty pattern matches before every code unit and at the end. *)
Definition replace_all (pat r s : str) : str :=
  match pat with
  | [] => r ++ flat_map (λ c, c :: r) s
  | p :: ps => replace_loop p ps r s
  end.

(** [s.replace(pat, r)] with a string pattern (line 33): only the first
    occurrence, searched from the left, is replaced. *)
Fixpoint replace_first (pat r s : str) : str :=
  match s with
  | [] => if decide (pat = []) then r else []
  | c :: s' =>
      if decide (pat `prefix_of` s) then r ++ drop (length pat) s
      else c :: replace_first pat r s'
  end.

(** [a[i]] on an array (line 22, 48): [undefined] out of range. *)
Definition index {A : Type} (i : nat) (a : list A) : option A := a !! i.

(** ** Reference definitions *)

(** The text before the first [sep] and the text after it (empty when
    there is no [sep]): the first piece of [split] and the other pieces
    rejoined. *)
Fixpoint cut (sep : ascii) (v : str) : str * str :=
  match v with
  | [] => ([], [])
  | c :: v' =>
      if decide (c = sep) then ([], v')
      else let '(k, x) := cut sep v' in (c :: k, x)
  end.

(** [pat] occurs in [s] as a contiguous substring. *)
Definition occurs (pat s : str) : Prop := ∃ pre post, s = pre ++ pat ++ post.

(** ** [split] and [join] *)

Section split_join.
Context (sep : ascii).
Implicit Types (s w : str) (ws : list str).

Lemma split_cons_sep s : split sep (sep :: s) = [] :: split sep s.
Proof. simpl. by rewrite decide_True. Qed.

Lemma split_nonempty s : split sep s ≠ [].
Proof. destruct s as [|c s]; simpl; [done|]. case_decide; [done|]. by destruct (split sep s). Qed.

Lemma split_no_sep s : sep ∉ s → split sep s = [s].
Proof.
  induction s as [|c s IH]; [done|]. rewrite not_elem_of_cons. intros [Hc Hs].
  simpl. rewrite decide_False by done. by rewrite IH.
Qed.

Lemma split_app_sep w s : sep ∉ w → split sep (w ++ sep :: s) = w :: split sep s.
Proof.
  induction w as [|c w IH]; [intros _; apply split_cons_sep|].
  rewrite not_elem_of_cons. intros [Hc Hw]. simpl.
  rewrite decide_False by done. by rewrite IH.
Qed.

(** A separator splits the array of pieces in two; code units before the
    first separator extend the first piece. *)
Lemma split_app s s' : split sep (s ++ sep :: s') = split sep s ++ split sep s'.
Proof.
  induction s as [|c s IH]; [apply split_cons_sep|]. simpl.
  rewrite IH. case_decide; [done|].
  by destruct (split sep s) eqn:E; [destruct (split_nonempty s)|].
Qed.

Lemma split_app_no_sep w s :
  sep ∉ w →
  split sep (w ++ s) = (w ++ default [] (head (split sep s))) :: tail (split sep s).
Proof.
  intros Hw. induction w as [|c w IH];
    [by destruct (split sep s) eqn:E; [destruct (split_nonempty s)|]|].
  apply not_elem_of_cons in Hw as [Hc Hw]. simpl.
  by rewrite decide_False, IH by done.
Qed.

(** No piece contains the separator. *)
Lemma split_pieces s : Forall (λ w, sep ∉ w) (split sep s).
Proof.
  induction s as [|c s IH]; simpl.
  - repeat constructor. apply not_elem_of_nil.
  - case_decide; [constructor; [apply not_elem_of_nil | done]|].
    destruct (split sep s) as [|w ws]; inversion IH; subst;
      repeat constructor; rewrite ?not_elem_of_cons; auto using not_elem_of_nil.
Qed.

Lemma join_cons w ws sp : ws ≠ [] → join sp (w :: ws) = w ++ sp ++ join sp ws.
Proof. by destruct ws. Qed.

Lemma join_split s : join [sep] (split sep s) = s.
Proof.
  induction s as [|c s IH]; [done|]. simpl. case_decide; subst.
  - rewrite join_cons by apply split_nonempty. by rewrite IH.
  - destruct (split sep s) as [|w ws] eqn:E; [by destruct (split_nonempty s)|].
    destruct ws as [|w' ws]; simpl in *; by rewrite <- IH.
Qed.

End split_join.

(** ** [split] against [cut] *)

Section cut.
Implicit Types (k v x : str).

Lemma cut_cons sep c v :
  cut sep (c :: v) =
  if decide (c = sep) then ([], v) else (c :: (cut sep v).1, (cut sep v).2).
Proof. simpl. by destruct (cut sep v). Qed.

Lemma split_cut sep v :
  index 0 (split sep v) = Some (cut sep v).1 ∧
  join [sep] (slice 1 (split sep v)) = (cut sep v).2.
Proof.
  induction v as [|c v [IHk IHv]]; [done|]. rewrite cut_cons. simpl split.
  case_decide.
  - split; [done|]. apply join_split.
  - destruct (split sep v) as [|w ws]; [done|].
    simpl in *. split; [|done]. congruence.
Qed.

Lemma cut_app sep k x : sep ∉ k → cut sep (k ++ sep :: x) = (k, x).
Proof.
  induction k as [|c k IH]; simpl app; rewrite cut_cons.
  - by rewrite decide_True.
  - rewrite not_elem_of_cons. intros [Hc Hk].
    rewrite decide_False, IH by done. done.
Qed.

Lemma cut_no_sep sep k : sep ∉ k → cut sep k = (k, []).
Proof.
  induction k as [|c k IH]; [done|]. rewrite cut_cons.
  rewrite not_elem_of_cons. intros [Hc Hk].
  rewrite decide_False, IH by done. done.
Qed.

(** Before a string that is empty or starts with the separator. *)
Lemma cut_fst_app sep k x :
  sep ∉ k → x = [] ∨ [sep] `prefix_of` x → (cut sep (k ++ x)).1 = k.
Proof.
  intros Hk [->|[x' ->]]; [by rewrite app_nil_r, cut_no_sep|].
  cbn [app]. by rewrite cut_app.
Qed.

Lemma cut_fst_no_sep sep v : sep ∉ (cut sep v).1.
Proof.
  induction v as [|c v IH]; [apply not_elem_of_nil|]. rewrite cut_cons.
  case_decide; simpl; [apply not_elem_of_nil|]. by rewrite not_elem_of_cons.
Qed.

Lemma cut_join sep v :
  v = (cut sep v).1 ++ (if decide (sep ∈ v) then sep :: (cut sep v).2 else []).
Proof.
  induction v as [|c v IH].
  - by destruct (decide _) as [?%elem_of_nil|].
  - rewrite cut_cons. destruct (decide (c = sep)) as [->|Hc]; simpl.
    + by rewrite decide_True by apply list_elem_of_here.
    + rewrite IH at 1. do 2 f_equal.
      destruct (decide (sep ∈ v)) as [Hv|Hv].
      * by rewrite decide_True by by apply list_elem_of_further.
      * rewrite decide_False; [done|]. rewrite elem_of_cons. intros [?|?]; [congruence|done].
Qed.

Lemma cut_fst_prefix sep v : (cut sep v).1 `prefix_of` v.
Proof. rewrite (cut_join sep v) at 2. by apply prefix_app_r. Qed.

(** Cutting adds no code unit. *)
Lemma cut_notin c sep v : c ∉ v → (c ∉ (cut sep v).1) ∧ (c ∉ (cut sep v).2).
Proof.
  induction v as [|x v IH]; [done|]. rewrite not_elem_of_cons, cut_cons.
  intros [Hx Hv]. destruct (IH Hv). case_decide; cbn [fst snd]; [auto with js|].
  by rewrite not_elem_of_cons.
Qed.

End cut.

#[export] Hint Resolve cut_fst_no_sep : js.

(** ** Global and first-occurrence replace *)

Section replace.
Implicit Types (pat r s pre post : str) (c p : ascii).

Lemma replace_loop_match p ps r s :
  replace_loop p ps r ((p :: ps) ++ s) = r ++ replace_loop p ps r s.
Proof.
  simpl. simp replace_loop. destruct (decide _) as [Hp|Hn]; simpl.
  - by rewrite drop_app_length.
  - destruct Hn. apply prefix_cons, prefix_app_r. done.
Qed.

Lemma replace_loop_skip p ps r c s :
  ¬ (p :: ps) `prefix_of` (c :: s) →
  replace_loop p ps r (c :: s) = c :: replace_loop p ps r s.
Proof. intros Hn. simp replace_loop. by destruct (decide _). Qed.

Lemma replace_all_nil pat r : pat ≠ [] → replace_all pat r [] = [].
Proof. by destruct pat. Qed.

Lemma replace_all_match pat r s :
  pat ≠ [] → replace_all pat r (pat ++ s) = r ++ replace_all pat r s.
Proof. destruct pat; [done|]. intros _. apply replace_loop_match. Qed.

Lemma replace_all_skip pat r c s :
  pat ≠ [] → ¬ pat `prefix_of` (c :: s) →
  replace_all pat r (c :: s) = c :: replace_all pat r s.
Proof. destruct pat; [done|]. intros _. apply replace_loop_skip. Qed.

(** A one-character pattern: the replace is a code-unit-wise substitution. *)
Lemma replace_all_char c r s :
  replace_all [c] r s = flat_map (λ x, if decide (x = c) then r else [x]) s.
Proof.
  induction s as [|x s IH]; [done|]. simpl flat_map. case_decide; subst.
  - change (c :: s) with ([c] ++ s).
    rewrite (replace_all_match [c] r s) by done. by rewrite IH.
  - rewrite replace_all_skip, IH; [done..|].
    rewrite prefix_cons_iff. intros [? _]. congruence.
Qed.

(** A code-unit-wise substitution that keeps the separator and adds none
    keeps the pieces apart. *)
Lemma split_flat_map sep (g : ascii → str) s :
  g sep = [sep] → (∀ x, x ≠ sep → sep ∉ g x) →
  split sep (flat_map g s) = flat_map g <$> split sep s.
Proof.
  intros Hsep Hg. induction s as [|x s IH]; [done|]. cbn [flat_map].
  destruct (decide (x = sep)) as [->|Hx].
  - rewrite Hsep. cbn [app]. by rewrite !split_cons_sep, IH.
  - change (x :: s) with ([x] ++ s).
    assert (sep ∉ [x]) by (rewrite not_elem_of_cons; split; [congruence|apply not_elem_of_nil]).
    rewrite (split_app_no_sep sep (g x)), (split_app_no_sep sep [x]), IH by auto.
    destruct (split sep s) eqn:E; [by destruct (split_nonempty sep s)|].
    by rewrite !fmap_cons, flat_map_app; cbn [flat_map head tail default]; rewrite app_nil_r.
Qed.

Lemma split_replace_all_char sep c r s :
  c ≠ sep → sep ∉ r →
  split sep (replace_all [c] r s) = replace_all [c] r <$> split sep s.
Proof.
  intros Hc Hr. rewrite replace_all_char, split_flat_map.
  - apply list_fmap_ext. intros _ w _. by rewrite replace_all_char.
  - by rewrite decide_False.
  - intros x Hx. case_decide; [done|].
    rewrite not_elem_of_cons. split; [congruence|apply not_elem_of_nil].
Qed.

Lemma occurs_cons_inv pat c s :
  occurs pat (c :: s) → pat `prefix_of` (c :: s) ∨ occurs pat s.
Proof.
  intros ([|x pre] & post & E); [left; by exists post|].
  right. exists pre, post. by injection E.
Qed.

Lemma occurs_cons pat c s : occurs pat s → occurs pat (c :: s).
Proof. intros (pre & post & ->). by exists (c :: pre), post. Qed.

Lemma occurs_prefix pat s : pat `prefix_of` s → occurs pat s.
Proof. intros [post ->]. by exists [], post. Qed.

(** Replacing a code unit adds only code units of the replacement. *)
Lemma replace_all_char_notin x c r s :
  x ∉ s → x ∉ r → x ∉ replace_all [c] r s.
Proof.
  intros Hs Hr. rewrite replace_all_char.
  induction s as [|y s IH]; [done|]. apply not_elem_of_cons in Hs as [? ?].
  simpl. case_decide; rewrite ?not_elem_of_app, ?not_elem_of_cons;
    repeat split; auto with js.
Qed.

Lemma replace_all_absent pat r s :
  pat ≠ [] → ¬ occurs pat s → replace_all pat r s = s.
Proof.
  intros Hp. induction s as [|c s IH]; intros Hn; [by apply replace_all_nil|].
  rewrite replace_all_skip, IH; eauto using occurs_cons, occurs_prefix.
Qed.

Lemma replace_first_prefix pat r s : replace_first pat r (pat ++ s) = r ++ s.
Proof.
  destruct (pat ++ s) as [|c t] eqn:E; simpl.
  - apply app_eq_nil in E as [-> ->]. by rewrite decide_True, app_nil_r.
  - rewrite decide_True by (rewrite <- E; by apply prefix_app_r).
    by rewrite <- E, drop_app_length.
Qed.

Lemma replace_first_absent pat r s : ¬ occurs pat s → replace_first pat r s = s.
Proof.
  induction s as [|c s IH]; intros Hn; simpl.
  - case_decide; [|done]. subst. destruct Hn. by exists [], [].
  - rewrite decide_False by eauto using occurs_prefix.
    rewrite IH; eauto using occurs_cons.
Qed.

(** Deleting the first occurrence adds no code unit. *)
Lemma replace_first_nil_notin c pat s : c ∉ s → c ∉ replace_first pat [] s.
Proof.
  induction s as [|x s IH]; simpl.
  - intros _. case_decide; apply not_elem_of_nil.
  - intros Hs. case_decide as Hp.
    + simpl. intros Hin. apply Hs. by eapply (subseteq_drop (length pat)).
    + apply not_elem_of_cons in Hs as [? ?]. rewrite not_elem_of_cons. auto.
Qed.

End replace.

End JsString.
