(* ===== verification/Escape.v ===== *)
(** * Escape: the ["&"] / ["~and~"] escaping of query values

    [redirect] writes every ["&"] of the path and of the query as
    ["~and~"] (lines 33-34 of [src/ghspa.js]) so that each travels as one
    query value; [resolve] writes every ["~and~"] back as ["&"] (line 48).
    This file holds the two substitutions, the interface [Escaping] that the
    query codec and the round-trip theorems are proved against, the exact
    condition under which decoding undoes encoding, and the round trip as
    a projection onto the strings that satisfy it. *)

From S2P Require Import Prelude JsString.

Module Escape.
Import JsString.

(** ** Definitions *)

(** The code unit that separates the entries of a query string and that
    the regular expression [/&/g] looks for (lines 33, 34 and 45). *)
Definition amp : ascii := "&"%char.

(** The escape token that stands for it. *)
Abbreviation tilde := ("~"%char).
Definition token : str := js "~and~".

(** [s.replace(/&/g, '~and~')] (lines 33 and 34). *)
Definition escape (s : str) : str := replace_all [amp] token s.

(** [s.replace(/~and~/g, '&')] (line 48). *)
Definition unescape (s : str) : str := replace_all token [amp] s.

(** What a client may assume of an escaping of the separator [sep]: it
    works code unit by code unit, leaves strings without the separator
    alone, and its output never contains the separator. *)
Class Escaping (sep : ascii) (esc unesc : str → str) : Prop := {
  esc_app s t : esc (s ++ t) = esc s ++ esc t;
  esc_id s : sep ∉ s → esc s = s;
  esc_sep_free s : sep ∉ esc s;
  unesc_nil : unesc [] = []
}.

(** The strings that survive the round trip. *)
Definition safe (esc unesc : str → str) (s : str) : Prop := unesc (esc s) = s.

(** [s] starts with the token, or with the token's first four code units
    followed by ["&"]: in both cases the encoding of [s] starts with the
    token although [s] does not start with ["&"]. *)
Definition head_ambiguous (s : str) : bool :=
  bool_decide (js "~and~" `prefix_of` s) || bool_decide (js "~and&" `prefix_of` s).

(** Some suffix of [s] is [head_ambiguous]. *)
Fixpoint ambiguous (s : str) : bool :=
  match s with
  | [] => false
  | _ :: s' => head_ambiguous s || ambiguous s'
  end.

(** ** Computation rules *)

Section rules.
Implicit Types (s t w : str) (c : ascii).

Lemma escape_flat_map s :
  escape s = flat_map (λ c, if decide (c = amp) then token else [c]) s.
Proof. apply replace_all_char. Qed.

Lemma escape_nil : escape [] = [].
Proof. done. Qed.

Lemma escape_amp s : escape (amp :: s) = token ++ escape s.
Proof. by rewrite !escape_flat_map. Qed.

Lemma escape_other c s : c ≠ amp → escape (c :: s) = c :: escape s.
Proof. intros Hc. rewrite !escape_flat_map. simpl. by rewrite decide_False. Qed.

Lemma escape_app s t : escape (s ++ t) = escape s ++ escape t.
Proof. rewrite !escape_flat_map. apply flat_map_app. Qed.

Lemma escape_id s : amp ∉ s → escape s = s.
Proof.
  induction s as [|c s IH]; [done|]. rewrite not_elem_of_cons. intros [Hc Hs].
  rewrite escape_other by done. by rewrite IH.
Qed.

Lemma unescape_nil : unescape [] = [].
Proof. done. Qed.

Lemma unescape_token s : unescape (token ++ s) = amp :: unescape s.
Proof. unfold unescape. by rewrite replace_all_match. Qed.

Lemma unescape_other c s :
  ¬ token `prefix_of` (c :: s) → unescape (c :: s) = c :: unescape s.
Proof. intros Hn. unfold unescape. by rewrite replace_all_skip. Qed.

Lemma unescape_id s : ¬ occurs token s → unescape s = s.
Proof. by apply replace_all_absent. Qed.

End rules.

#[export] Hint Rewrite escape_nil escape_amp escape_app unescape_nil unescape_token : js_rw.
#[export] Hint Rewrite escape_other unescape_other using done : js_rw.

(** ** The escaping discharges the interface *)

Lemma escape_amp_free (s : str) : amp ∉ escape s.
Proof.
  induction s as [|c s IH]; [js_simp; auto with js|].
  destruct (decide (c = amp)) as [->|Hc]; js_simp.
  - rewrite not_elem_of_app. split; [by_compute|done].
  - rewrite not_elem_of_cons. auto.
Qed.

(** Escaping adds only code units of the token. *)
Lemma escape_notin c (s : str) : c ∉ s → c ∉ token → c ∉ escape s.
Proof.
  intros Hs Ht. by apply replace_all_char_notin.
Qed.

#[export] Hint Resolve escape_amp_free : js.

#[export] Instance amp_escaping : Escaping amp escape unescape.
Proof.
  split; [apply escape_app | apply escape_id | auto with js | done].
Qed.

(** ** When does decoding undo encoding? *)

Section roundtrip.
Implicit Types (s t w : str) (c : ascii).

(** A prefix of the encoding that ends in ["~"] comes from the same prefix
    of the source, or from one that ends in ["&"]. *)
Lemma prefix_escape_tilde w s :
  amp ∉ w → tilde ∉ w →
  (w ++ [tilde]) `prefix_of` escape s ↔
  (w ++ [tilde]) `prefix_of` s ∨ (w ++ [amp]) `prefix_of` s.
Proof.
  revert s. induction w as [|x w IH]; intros s Ha Ht; simpl.
  - destruct s as [|c s]; [rewrite escape_nil, !prefix_nil_iff; tauto|].
    destruct (decide (c = amp)) as [->|Hc].
    + rewrite escape_amp. simpl. rewrite !prefix_cons_iff.
      split; [right|]; auto using prefix_nil.
    + rewrite escape_other, !prefix_cons_iff by done.
      split; [intros [? _]; left|intros [[? _]|[? _]]; [|congruence]];
        auto using prefix_nil.
  - apply not_elem_of_cons in Ha as [Hxa Ha], Ht as [Hxt Ht].
    destruct s as [|c s]; [rewrite escape_nil, !prefix_nil_iff; tauto|].
    destruct (decide (c = amp)) as [->|Hc].
    + rewrite escape_amp. simpl. rewrite !prefix_cons_iff.
      split; [intros [? _]|intros [[? _]|[? _]]]; congruence.
    + rewrite escape_other, !prefix_cons_iff, IH by done. tauto.
Qed.

Lemma head_ambiguous_spec s :
  head_ambiguous s = true ↔
  ∃ s', s = tilde :: s' ∧ (js "and~" `prefix_of` s' ∨ js "and&" `prefix_of` s').
Proof.
  unfold head_ambiguous. rewrite orb_true_iff, !bool_decide_eq_true.
  destruct s as [|c s].
  - change (js "~and~") with (tilde :: js "and~").
    change (js "~and&") with (tilde :: js "and&").
    rewrite !prefix_nil_iff. split; [tauto|by intros (? & ? & _)].
  - change (js "~and~") with (tilde :: js "and~").
    change (js "~and&") with (tilde :: js "and&").
    rewrite !prefix_cons_iff. split.
    + intros [[<- ?]|[<- ?]]; eauto.
    + intros (s' & [= -> ->] & [|]); auto.
Qed.

(** The encoding of [s] starts with the token exactly when [s] starts with
    ["&"] or is [head_ambiguous]. *)
Lemma token_prefix_escape s :
  token `prefix_of` escape s ↔ (∃ s', s = amp :: s') ∨ head_ambiguous s = true.
Proof.
  rewrite head_ambiguous_spec. destruct s as [|c s].
  - rewrite escape_nil. change token with (tilde :: js "and~").
    rewrite prefix_nil_iff. split; [done|]. by intros [(? & ?)|(? & ? & _)].
  - destruct (decide (c = amp)) as [->|Hc].
    + rewrite escape_amp. split; [eauto|]. intros _. by apply prefix_app_r.
    + rewrite escape_other by done.
      change token with (tilde :: (js "and" ++ [tilde])).
      change (js "and~") with (js "and" ++ [tilde]).
      change (js "and&") with (js "and" ++ [amp]).
      rewrite prefix_cons_iff.
      assert (Hw := prefix_escape_tilde (js "and") s ltac:(by_compute) ltac:(by_compute)).
      split.
      * intros [<- ?%Hw]. right. eauto.
      * intros [(? & [= ? _])|(s' & [= -> ->] & ?%Hw)]; [done|auto].
Qed.

(** Away from an ambiguous head, decoding the encoding proceeds one source
    code unit at a time. *)
Lemma unescape_escape_sync c s :
  head_ambiguous (c :: s) = false →
  unescape (escape (c :: s)) = c :: unescape (escape s).
Proof.
  intros Hh. destruct (decide (c = amp)) as [->|Hc].
  - by js_simp.
  - assert (Hn : ¬ token `prefix_of` escape (c :: s)).
    { rewrite token_prefix_escape, Hh. intros [(? & [= ? _])|]; done. }
    rewrite escape_other in * by done. by apply unescape_other.
Qed.

(** At an ambiguous head the decoder emits ["&"] where the source has
    ["~"]. *)
Lemma unescape_escape_clash s :
  head_ambiguous s = true →
  ∃ s' t, s = tilde :: s' ∧ unescape (escape s) = amp :: t.
Proof.
  intros Hh. assert (Hp : token `prefix_of` escape s)
    by (apply token_prefix_escape; auto).
  apply head_ambiguous_spec in Hh as (s' & -> & _).
  destruct Hp as [t Ht]. exists s', (unescape t).
  by rewrite Ht, unescape_token.
Qed.

(** The first code unit of the decoded encoding, when it is not ["&"], is
    the first code unit of the source. *)
Lemma unescape_escape_head c s :
  c ≠ amp → [c] `prefix_of` unescape (escape s) → [c] `prefix_of` s.
Proof.
  intros Hc. destruct s as [|x s]; [by js_simp|].
  destruct (head_ambiguous (x :: s)) eqn:Hh.
  - apply unescape_escape_clash in Hh as (s' & t & _ & ->).
    by intros [? _]%prefix_cons_iff.
  - rewrite unescape_escape_sync by done.
    intros [-> _]%prefix_cons_iff. apply prefix_cons, prefix_nil.
Qed.

(** Induction along the decoder's scan: a token, or one other code unit. *)
Lemma token_ind (P : str → Prop) :
  P [] →
  (∀ s, P s → P (token ++ s)) →
  (∀ c s, ¬ token `prefix_of` (c :: s) → P s → P (c :: s)) →
  ∀ s, P s.
Proof.
  intros Hnil Htok Hother s.
  enough (H : ∀ n s, length s = n → P s) by by eapply H.
  clear s. intros n. induction n as [n IH] using lt_wf_ind.
  intros [|c s] Hlen; [done|].
  destruct (decide (token `prefix_of` (c :: s))) as [[t Ht]|Hn].
  - rewrite Ht. apply Htok, (IH (length t)); [|done].
    rewrite <- Hlen, Ht, length_app. simpl. lia.
  - apply Hother; [done|]. apply (IH (length s)); [|done]. simpl in Hlen. lia.
Qed.

(** Escaping and unescaping keep the segments of a path apart. *)
Lemma split_escape s : split "/" (escape s) = escape <$> split "/" s.
Proof. apply split_replace_all_char; by_compute. Qed.

Lemma split_unescape s : split "/" (unescape s) = unescape <$> split "/" s.
Proof.
  induction s as [|s IH|c s Hn IH] using token_ind; [done|..].
  - rewrite unescape_token. change (amp :: ?x) with ([amp] ++ x).
    rewrite !split_app_no_sep, IH by by_compute.
    destruct (split "/" s) eqn:E; [by destruct (split_nonempty "/" s)|].
    by rewrite !fmap_cons, unescape_token.
  - rewrite unescape_other by done.
    destruct (decide (c = "/"%char)) as [->|Hc]; [by rewrite !split_cons_sep, IH|].
    pose proof (cut_fst_prefix "/" s) as Hpre.
    destruct (split_cut "/" s) as [Hhd _]. change (c :: ?x) with ([c] ++ x).
    rewrite !split_app_no_sep, IH
      by (rewrite not_elem_of_cons; split; [congruence|apply not_elem_of_nil]).
    destruct (split "/" s) as [|w ws]; [done|]. injection Hhd as ->.
    rewrite !fmap_cons. cbn [head tail default app].
    rewrite (unescape_other c) by (intros Hp; apply Hn;
      etrans; [exact Hp|by apply prefix_cons]). done.
Qed.

(** A token in the input leaves a ["&"] in the output. *)
Lemma unescape_occurs s : occurs token s → amp ∈ unescape s.
Proof.
  induction s as [|s IH|c s Hn IH] using token_ind.
  - intros ([|? ?] & ? & [=]).
  - intros _. rewrite unescape_token. apply list_elem_of_here.
  - intros [?|?]%occurs_cons_inv; [done|].
    rewrite unescape_other by done. by apply list_elem_of_further, IH.
Qed.

(** A round trip that leaves no ["&"] has changed nothing. *)
Lemma unescape_escape_amp_free s :
  amp ∉ unescape (escape s) → unescape (escape s) = s.
Proof.
  intros Hn. assert (Ht : ¬ occurs token (escape s))
    by (intros ?%unescape_occurs; done).
  rewrite unescape_id by done. apply escape_id.
  intros (pre & post & ->)%list_elem_of_split. apply Ht.
  exists (escape pre), (escape post). by js_simp.
Qed.

(** Unescaping adds no code unit but ["&"]. *)
Lemma unescape_notin c s : c ∉ s → c ≠ amp → c ∉ unescape s.
Proof.
  intros Hs Hc. induction s as [|s IH|x s Hn IH] using token_ind; js_simp;
    [auto with js|rewrite not_elem_of_cons..].
  - apply not_elem_of_app in Hs as [_ Hs]. auto.
  - apply not_elem_of_cons in Hs as [? ?]. auto.
Qed.

(** What the decoder has copied stood in its input. *)
Lemma prefix_unescape w s : amp ∉ w → w `prefix_of` unescape s → w `prefix_of` s.
Proof.
  revert s. induction w as [|c w IH]; intros s Hw; [intros _; apply prefix_nil|].
  apply not_elem_of_cons in Hw as [Hc Hw]. destruct s as [|x s]; [by js_simp|].
  destruct (decide (token `prefix_of` (x :: s))) as [[t ->]|Hn].
  - rewrite unescape_token. by intros [? _]%prefix_cons_iff.
  - rewrite unescape_other by done. intros [-> ?]%prefix_cons_iff.
    apply prefix_cons. auto.
Qed.

(** Decoding is complete: no token is left in the decoded string. *)
Lemma unescape_complete s : ¬ occurs token (unescape s).
Proof.
  induction s as [|s IH|c s Hn IH] using token_ind.
  - intros ([|? ?] & ? & [=]).
  - rewrite unescape_token. intros [Hp|?]%occurs_cons_inv; [|done].
    by apply prefix_cons_iff in Hp as [? _].
  - intros Ho. rewrite unescape_other in Ho by done.
    apply occurs_cons_inv in Ho as [Hp|?]; [|done].
    rewrite <- unescape_other in Hp by done.
    apply Hn, prefix_unescape; [by_compute|done].
Qed.

(** [ambiguous] decides the occurrence of one of the two patterns. *)
Lemma ambiguous_occurs s :
  ambiguous s = true ↔ occurs token s ∨ occurs (js "~and&") s.
Proof.
  induction s as [|c s IH].
  - split; [done|]. by intros [([|? ?] & ? & [=])|([|? ?] & ? & [=])].
  - cbn [ambiguous]. rewrite orb_true_iff, IH. unfold head_ambiguous.
    rewrite orb_true_iff, !bool_decide_eq_true. split.
    + intros [[?|?]|[?|?]]; auto using occurs_prefix, occurs_cons.
    + intros [[?|?]%occurs_cons_inv|[?|?]%occurs_cons_inv]; auto.
Qed.

(** Decoding undoes encoding on [s] exactly when [s] is not
    [ambiguous]. *)
Lemma unescape_escape_ambiguous s :
  unescape (escape s) = s ↔ ambiguous s = false.
Proof.
  induction s as [|c s IH]; [done|]. simpl ambiguous.
  destruct (head_ambiguous (c :: s)) eqn:Hh; simpl.
  - apply unescape_escape_clash in Hh as (s' & t & [= -> ->] & ->). done.
  - rewrite unescape_escape_sync, <- IH by done. split; congruence.
Qed.

(** On the wire format (strings without ["&"]) encoding undoes
    decoding. *)
Lemma escape_unescape_id t : amp ∉ t → escape (unescape t) = t.
Proof.
  induction t as [|t IH|c t Hn IH] using token_ind; intros Ht.
  - done.
  - apply not_elem_of_app in Ht as [_ Ht]. js_simp. by rewrite IH.
  - apply not_elem_of_cons in Ht as [Hc Ht]. js_simp. by rewrite IH.
Qed.

(** What the round trip gives, it gives back. *)
Lemma unescape_escape_safe s : safe escape unescape (unescape (escape s)).
Proof. unfold safe. by rewrite escape_unescape_id by auto with js. Qed.

(** C4: decoding undoes encoding exactly on the strings with no occurrence
    of ["~and~"] and none of ["~and&"]: [unescape (escape s) = s] holds if
    and only if neither is a substring of [s], which is what the
    executable test [ambiguous] decides. *)
Theorem unescape_escape_iff s :
  (unescape (escape s) = s ↔
   ¬ occurs (js "~and~") s ∧ ¬ occurs (js "~and&") s) ∧
  (unescape (escape s) = s ↔ ambiguous s = false).
Proof.
  split; [|apply unescape_escape_ambiguous].
  rewrite unescape_escape_ambiguous, <- not_true_iff_false, ambiguous_occurs.
  unfold token. tauto.
Qed.

(** C26: the round trip is a projection.  Escaping and unescaping a second
    time changes nothing, and what the round trip gives holds neither
    ["~and~"] nor ["~and&"]: whatever the path or the query of a request,
    the one the script shows is one the script restores. *)
Theorem unescape_escape_idempotent s :
  unescape (escape (unescape (escape s))) = unescape (escape s) ∧
  ambiguous (unescape (escape s)) = false.
Proof.
  pose proof (unescape_escape_safe s) as Hs. split; [exact Hs|].
  by apply unescape_escape_ambiguous.
Qed.

(** C28: on the wire format (strings without ["&"]) encoding undoes
    decoding, so two different wire values never decode to the same
    string. *)
Theorem escape_unescape_wire t t' :
  amp ∉ t → amp ∉ t' →
  escape (unescape t) = t ∧ (unescape t = unescape t' → t = t').
Proof.
  intros Ht Ht'. split; [by apply escape_unescape_id|]. intros E.
  by rewrite <- (escape_unescape_id t), E, escape_unescape_id.
Qed.

Lemma escape_unescape_wire_witness :
  escape (unescape (js "/a~and~b~and")) = js "/a~and~b~and" ∧
  (unescape (js "/a~and~b~and") = unescape (js "/a~and~b") →
   js "/a~and~b~and" = js "/a~and~b").
Proof. apply escape_unescape_wire; by_compute. Defined.

(** C27: the encoded value contains no ["&"], so splitting the query on
    ["&"] leaves it in one piece. *)
Theorem escape_single_value s : split amp (escape s) = [escape s].
Proof. apply split_no_sep, escape_amp_free. Qed.

(** C32: every ["&"] costs four more code units and nothing else changes
    the length. *)
Theorem escape_length s :
  length (escape s) = length s + 4 * length (filter (λ c, c = amp) s).
Proof.
  induction s as [|c s IH]; [done|]. rewrite filter_cons.
  case_decide as Hc; [subst; rewrite escape_amp|rewrite escape_other by done];
    rewrite ?length_app; simpl; lia.
Qed.

(** The encoding is not injective: a literal token in the source is
    indistinguishable from an encoded ["&"]. *)
Example escape_not_injective : escape (js "a&b") = escape (js "a~and~b").
Proof. by vm_compute. Qed.

End roundtrip.

End Escape.
