(* ===== verification/Query.v ===== *)
(** * Query: the query-string parser of [resolve]

    Lines 42-49 of [src/ghspa.js] build an object [q] from the query
    string: the text after the leading ["?"] is split on ["&"], each piece
    is split on ["="], the first part is the key and the other parts,
    rejoined with ["="] and unescaped, are the value; [q[key] = value]
    overwrites earlier entries.  The object is a [gmap] from keys to
    values.  The file proves that a lookup in the object is the last entry
    with that key (the contract stated in the specification), what the
    parser returns on the query strings [redirect] produces, and the form
    of the keys and values of the object. *)

From stdpp Require Import gmap.
From S2P Require Import Prelude JsString Escape.

Module Query.
Import JsString Escape.

(** ** Definitions *)

(** [q[k] = v] on an object created by [{}] (line 48), [v] a string.  The
    key ["__proto__"] names the prototype accessor inherited from
    [Object.prototype]: assigning a string to it is ignored and creates no
    property.  Every other key becomes an own property. *)
Definition obj_set (k v : str) (q : gmap str str) : gmap str str :=
  if decide (k = js "__proto__") then q else <[k := v]> q.

(** Lines 47-48: the key [a[0]] and the value
    [a.slice(1).join('=').replace(/~and~/g, '&')] of the piece [v], where
    [a = v.split('=')]. *)
Definition entry (v : str) : str * str :=
  let a := split "=" v in
  (to_string (index 0 a), unescape (join (js "=") (slice 1 a))).

(** Lines 46-49: the callback of [forEach], which stores the entry of [v]. *)
Definition store (q : gmap str str) (v : str) : gmap str str :=
  obj_set (entry v).1 (entry v).2 q.

(** Lines 42-49: [q] after the loop over [l.search.slice(1).split('&')]. *)
Definition parse_query (search : str) : gmap str str :=
  foldl store ∅ (split "&" (slice 1 search)).

(** ** Reference definitions *)

(** The value of the last entry with key [k] in an association list. *)
Fixpoint last_value (k : str) (es : list (str * str)) : option str :=
  match es with
  | [] => None
  | e :: es' =>
      match last_value k es' with
      | Some x => Some x
      | None => if decide (e.1 = k) then Some e.2 else None
      end
  end.

(** ** The object *)

Section object.
Implicit Types (k v x : str) (q : gmap str str) (vs : list str).

Lemma obj_set_lookup k v q k' :
  k' ≠ js "__proto__" →
  obj_set k v q !! k' = if decide (k = k') then Some v else q !! k'.
Proof.
  intros Hk'. unfold obj_set. destruct (decide (k = js "__proto__")) as [E|Hk].
  - subst k. by rewrite decide_False.
  - apply lookup_insert.
Qed.

Lemma obj_set_proto k v q :
  q !! js "__proto__" = None → obj_set k v q !! js "__proto__" = None.
Proof. intros Hq. unfold obj_set. case_decide; by simplify_map_eq. Qed.

Lemma foldl_store_proto q vs :
  q !! js "__proto__" = None → foldl store q vs !! js "__proto__" = None.
Proof.
  revert q. induction vs as [|v vs IH]; intros q Hq; [done|].
  simpl. by apply IH, obj_set_proto.
Qed.

(** The loop refines the association list of the entries: a lookup is the
    last entry with that key, or the initial content. *)
Lemma foldl_store_lookup q vs k :
  k ≠ js "__proto__" →
  foldl store q vs !! k = from_option Some (q !! k) (last_value k (entry <$> vs)).
Proof.
  intros Hk. revert q. induction vs as [|v vs IH]; intros q; [done|].
  rewrite fmap_cons. cbn [foldl last_value]. rewrite IH.
  destruct (last_value k (entry <$> vs)); [done|].
  cbn [from_option]. unfold store. rewrite obj_set_lookup by done.
  by case_decide.
Qed.

End object.

(** ** Keys and values *)

Section entries.
Implicit Types (k v x : str).

Lemma entry_cut_eq v : entry v = ((cut "=" v).1, unescape (cut "=" v).2).
Proof.
  unfold entry. destruct (split_cut "=" v) as [-> E].
  change (js "=") with ["="%char]. by rewrite E.
Qed.

Lemma entry_key_value k x : "="%char ∉ k → entry (k ++ "="%char :: x) = (k, unescape x).
Proof. intros Hk. by rewrite entry_cut_eq, cut_app. Qed.

Lemma store_key_value q k x :
  "="%char ∉ k → k ≠ js "__proto__" → store q (k ++ "="%char :: x) = <[k := unescape x]> q.
Proof.
  intros Hk Hp. unfold store. rewrite entry_key_value by done.
  unfold obj_set. by rewrite decide_False.
Qed.

(** The query strings [redirect] builds, for any wire values [X] and [Y]. *)
Lemma parse_query_p X :
  amp ∉ X → parse_query (js "?p=" ++ X) = <[js "p" := unescape X]> ∅.
Proof.
  intros HX. unfold parse_query. change (slice 1 (js "?p=" ++ X)) with (js "p=" ++ X).
  rewrite split_no_sep by (rewrite not_elem_of_app; split; [by_compute|done]).
  apply (store_key_value ∅ (js "p") X); by_compute.
Qed.

Lemma parse_query_pq X Y :
  amp ∉ X → amp ∉ Y →
  parse_query (js "?p=" ++ X ++ js "&q=" ++ Y) =
  <[js "q" := unescape Y]> (<[js "p" := unescape X]> ∅).
Proof.
  intros HX HY. unfold parse_query.
  change (slice 1 (js "?p=" ++ X ++ js "&q=" ++ Y))
    with (js "p=" ++ X ++ amp :: (js "q=" ++ Y)).
  rewrite (app_assoc (js "p=")), split_app_sep, split_no_sep
    by (rewrite not_elem_of_app; split; (by_compute || done)).
  cbn [foldl].
  change (js "p=" ++ X) with (js "p" ++ "="%char :: X).
  change (js "q=" ++ Y) with (js "q" ++ "="%char :: Y).
  by rewrite !store_key_value by by_compute.
Qed.

End entries.

(** ** Properties of the parser *)

Section parser.
Implicit Types (k v x s : str).

Lemma last_value_None k es : last_value k es = None ↔ Forall (λ e, e.1 ≠ k) es.
Proof.
  induction es as [|e es IH]; simpl; [by split|].
  rewrite Forall_cons, <- IH. destruct (last_value k es); [split; [done|by intros [_ ?]]|].
  case_decide; split; try done; by intros [? _].
Qed.

Lemma last_value_elem k es v :
  last_value k es = Some v → ∃ e, e ∈ es ∧ e.1 = k ∧ e.2 = v.
Proof.
  induction es as [|e es IH]; [done|]. cbn [last_value].
  destruct (last_value k es) as [x|].
  - intros [= <-]. destruct IH as (e' & ? & ? & ?); [done|].
    exists e'. by rewrite elem_of_cons; auto.
  - case_decide; [|done]. intros [= <-]. exists e. by rewrite elem_of_cons; auto.
Qed.

Lemma last_value_entries_None k (vs : list str) :
  last_value k (entry <$> vs) = None ↔ Forall (λ v, (entry v).1 ≠ k) vs.
Proof. by rewrite last_value_None, Forall_fmap. Qed.

Lemma parse_query_lookup s k :
  k ≠ js "__proto__" →
  parse_query s !! k = last_value k (entry <$> split "&" (slice 1 s)).
Proof.
  intros Hk. unfold parse_query. rewrite foldl_store_lookup by done.
  rewrite lookup_empty. by destruct (last_value _ _).
Qed.

(** Entries with other keys do not matter. *)
Lemma last_value_filter (P : str * str → Prop) `{!∀ e, Decision (P e)} k es :
  (∀ e, e.1 = k → P e) → last_value k (filter P es) = last_value k es.
Proof.
  intros HP. induction es as [|e es IH]; [done|]. rewrite filter_cons.
  case_decide as He; cbn [last_value]; rewrite IH; [done|].
  rewrite decide_False by (intros Hk; by apply He, HP).
  by destruct (last_value k es).
Qed.

Lemma last_value_app k es e :
  last_value k (es ++ [e]) = if decide (e.1 = k) then Some e.2 else last_value k es.
Proof.
  induction es as [|e' es IH]; simpl; [done|]. rewrite IH.
  case_decide; [done|]. by destruct (last_value k es).
Qed.

Lemma last_value_list_to_map k es :
  last_value k es = (list_to_map (reverse es) : gmap str str) !! k.
Proof.
  induction es as [|e es IH] using rev_ind; [done|].
  rewrite last_value_app, reverse_snoc. destruct e as [k' x]. simpl.
  rewrite lookup_insert. by case_decide.
Qed.

(** C6: the parsed object is the finite map of the entries of the query
    string in which a later entry overwrites an earlier one with the same
    key, the entries with key ["__proto__"] left out. *)
Theorem parse_query_last_wins s :
  parse_query s =
  list_to_map (reverse (filter (λ e, e.1 ≠ js "__proto__")
                               (entry <$> split "&" (slice 1 s)))).
Proof.
  apply map_eq. intros k. rewrite <- last_value_list_to_map.
  destruct (decide (k = js "__proto__")) as [->|Hk].
  - unfold parse_query. rewrite (foldl_store_proto ∅) by apply lookup_empty.
    symmetry.
    apply last_value_None, Forall_forall. by intros e [? _]%list_elem_of_filter.
  - rewrite parse_query_lookup by done.
    induction (entry <$> split "&" (slice 1 s)) as [|e es IH]; [done|].
    rewrite filter_cons. cbn [last_value]. rewrite IH.
    destruct (decide (e.1 ≠ js "__proto__")) as [He|He]; cbn [last_value]; [done|].
    destruct (decide (e.1 = k)) as [<-|]; [by destruct He|].
    by destruct (last_value k (filter _ es)).
Qed.

(** C30: the parsed object is well formed.  Whatever the query string is,
    a key of the object holds neither ["&"] nor ["="], and a value holds
    no ["~and~"]: the pieces are cut at every ["&"], the key ends at the
    first ["="], and the decoder leaves no token undecoded. *)
Theorem parse_query_typed s k v :
  parse_query s !! k = Some v →
  (amp ∉ k) ∧ ("="%char ∉ k) ∧ ¬ occurs token v.
Proof.
  destruct (decide (k = js "__proto__")) as [->|Hk];
    [unfold parse_query; by rewrite (foldl_store_proto ∅) by apply lookup_empty|].
  rewrite parse_query_lookup by done.
  intros (e & (w & -> & Hw)%list_elem_of_fmap & <- & <-)%last_value_elem.
  rewrite entry_cut_eq. cbn [fst snd].
  pose proof (split_pieces amp (slice 1 s)) as Hall.
  rewrite Forall_forall in Hall.
  split_and!; [by apply cut_notin, Hall|auto with js|apply unescape_complete].
Qed.

Lemma parse_query_typed_witness :
  (amp ∉ js "p") ∧ ("="%char ∉ js "p") ∧ ¬ occurs token (js "/a&b=c&d~and").
Proof.
  apply (parse_query_typed (js "?p=0&x=1&p=/a~and~b=c~and~d~and") (js "p")
           (js "/a&b=c&d~and")).
  by vm_compute.
Defined.

(** C29: the entry of a piece is its text before the first ["="] as the key
    and the unescaped text after it as the value; further ["="] signs stay
    in the value, and a piece without ["="] has the empty value. *)
Theorem entry_spec v :
  ∃ k x, entry v = (k, unescape x) ∧ ("="%char ∉ k) ∧
         (v = k ++ "="%char :: x ∨ (v = k ∧ x = [])).
Proof.
  exists (cut "=" v).1, (cut "=" v).2. split; [apply entry_cut_eq|].
  induction v as [|c v [IHk IHv]]; [split; [auto with js|by right]|].
  rewrite cut_cons. case_decide; simpl; subst.
  - split; [auto with js|by left].
  - rewrite not_elem_of_cons. split; [done|].
    destruct IHv as [E|[E1 E2]]; [left|right]; by rewrite ?E2, <- ?E, <- ?E1.
Qed.

End parser.

End Query.
