(* ===== verification/Location.v ===== *)
(** * Location: the document location read by [src/ghspa.js]

    The script receives [window.location] as its parameter [l] and reads
    six of its attributes.  This file holds the record of those attributes,
    the serialisation of a location as the browser writes it ([href]), the
    shape the URL standard guarantees for the attributes of an [http]
    or [https] document ([wf]), and the code units a browser leaves as
    they are in each component ([clean]). *)

From S2P Require Import Prelude JsString.

Module Location.
Import JsString.

(** ** Definitions *)

(** The attributes of [l] the script reads (lines 22-35, 41-54). *)
Record location := Loc {
  protocol : str;   (* "https:" *)
  hostname : str;   (* "user.github.io" *)
  port : str;       (* "" for the default port *)
  pathname : str;   (* "/my-repo/docs/intro" *)
  search : str;     (* "" or "?x=1" *)
  hash : str        (* "" or "#top" *)
}.

(** [l.href]: the attributes written one after the other. *)
Definition href (l : location) : str :=
  protocol l ++ js "//" ++ hostname l ++
  (if truthy (port l) then js ":" ++ port l else []) ++
  pathname l ++ search l ++ hash l.

(** The origin of a location: scheme, host and port. *)
Definition origin (l : location) : str * str * str :=
  (protocol l, hostname l, port l).

(** The part of [href] after the origin: what [history.replaceState]
    receives when the visible URL is [l] again. *)
Definition path_query_fragment (l : location) : str :=
  pathname l ++ search l ++ hash l.

(** [s] is empty, or [c] followed by at least one code unit: the form of
    [l.search] (with ["?"]) and of [l.hash] (with ["#"]), which are empty
    when the query or the fragment is absent or empty. *)
Definition empty_or_led_by (c : ascii) (s : str) : bool :=
  match s with
  | [] => true
  | c' :: rest => bool_decide (c' = c) && truthy rest
  end.

(** The attributes of an [http(s)] location: the path starts with ["/"]
    and holds neither ["?"] nor ["#"]; the query holds no ["#"]. *)
Definition wf (l : location) : bool :=
  bool_decide (js "/" `prefix_of` pathname l) &&
  bool_decide ("?"%char ∉ pathname l) && bool_decide ("#"%char ∉ pathname l) &&
  empty_or_led_by "?" (search l) && bool_decide ("#"%char ∉ search l) &&
  empty_or_led_by "#" (hash l).

(** The code units a browser writes as they are: printable ASCII outside
    the percent-encode set of the component.  In a query these are all but
    the quotation mark, ["#"], ["<"] and [">"]; a path also encodes ["?"],
    ["^"], the backquote and the braces and reads a backslash as ["/"]; a
    fragment encodes the quotation mark, ["<"], [">"] and the backquote. *)
Definition dquote : ascii := ascii_of_nat 34.

Definition printable (c : ascii) : bool :=
  (32 <? nat_of_ascii c) && (nat_of_ascii c <? 127).

Definition query_unit (c : ascii) : bool :=
  printable c && bool_decide (c ∉ [dquote; "#"; "<"; ">"]%char).

Definition path_unit (c : ascii) : bool :=
  query_unit c && bool_decide (c ∉ ["?"; "^"; "`"; "{"; "}"; "\"]%char).

Definition fragment_unit (c : ascii) : bool :=
  printable c && bool_decide (c ∉ [dquote; "<"; ">"; "`"]%char).

(** Every code unit of [s] is one of the class [p]. *)
Definition units (p : ascii → bool) (s : str) : Prop :=
  Forall (λ c, p c = true) s.

(** A location with nothing left to percent-encode in its path and its
    fragment, and in its query nothing but apostrophes. *)
Definition clean (l : location) : Prop :=
  units path_unit (pathname l) ∧ units query_unit (search l) ∧
  units fragment_unit (hash l).

(** The first segment of the path, between the first and the second
    ["/"], and the rest of the path from the second ["/"] on. *)
Definition first_segment (l : location) : str :=
  (cut "/" (slice 1 (pathname l))).1.

Definition after_first_segment (l : location) : str :=
  drop (S (length (first_segment l))) (pathname l).

(** ** Decidable equality *)

#[export] Instance location_eq_dec : EqDecision location.
Proof. solve_decision. Defined.

(** ** Facts about well-formed locations *)

Section wf.
Implicit Types (l : location) (s : str) (c : ascii).

Lemma empty_or_led_by_spec c s :
  empty_or_led_by c s = true ↔ s = [] ∨ ∃ t, s = c :: t ∧ t ≠ [].
Proof.
  destruct s as [|c' t]; simpl; [split; [by left|done]|].
  rewrite andb_true_iff, bool_decide_eq_true, truthy_length. split.
  - intros [-> Ht]. right. eauto.
  - intros [?|(t' & [= -> ->] & Ht)]; [done|auto].
Qed.

Lemma wf_spec l :
  wf l = true ↔
  js "/" `prefix_of` pathname l ∧ ("?"%char ∉ pathname l) ∧ ("#"%char ∉ pathname l) ∧
  empty_or_led_by "?" (search l) = true ∧ ("#"%char ∉ search l) ∧
  empty_or_led_by "#" (hash l) = true.
Proof. unfold wf. rewrite !andb_true_iff, !bool_decide_eq_true. tauto. Qed.

Lemma wf_pathname l : wf l = true → pathname l = "/"%char :: slice 1 (pathname l).
Proof.
  unfold wf. rewrite !andb_true_iff, !bool_decide_eq_true.
  intros [[[[[[t Ht] _] _] _] _] _]. by rewrite Ht.
Qed.

Lemma wf_search l :
  wf l = true → search l = [] ∨ ∃ t, search l = "?"%char :: t ∧ t ≠ [].
Proof.
  unfold wf. rewrite !andb_true_iff. intros [[[_ H] _] _].
  by apply empty_or_led_by_spec.
Qed.

(** The path is ["/"], the first segment and the rest; the rest is empty
    or starts with ["/"]. *)
Lemma wf_pathname_split l :
  wf l = true →
  pathname l = "/"%char :: first_segment l ++ after_first_segment l.
Proof.
  intros Hp%wf_pathname. unfold after_first_segment.
  rewrite Hp at 1. f_equal.
  rewrite (prefix_drop (first_segment l) (slice 1 (pathname l))) at 1
    by apply cut_fst_prefix.
  unfold slice. by rewrite drop_drop.
Qed.

(** Only the path can put ["//"] at the head of the part after the
    origin. *)
Lemma double_slash_path l :
  wf l = true → js "//" `prefix_of` path_query_fragment l →
  js "//" `prefix_of` pathname l.
Proof.
  intros (Hpre & _ & _ & Hs & _ & Hf)%wf_spec. unfold path_query_fragment.
  destruct Hpre as [p Hp]. rewrite Hp.
  change (js "/" ++ p) with ("/"%char :: p).
  change (js "//") with ("/"%char :: js "/"). cbn [app].
  rewrite !prefix_cons_iff. intros [_ Hpp]. split; [done|].
  destruct p as [|c p].
  - apply empty_or_led_by_spec in Hs as [Es|(t & Es & _)],
      Hf as [Ef|(t' & Ef & _)]; rewrite Es, Ef in Hpp;
      apply prefix_cons_iff in Hpp || apply prefix_nil_iff in Hpp;
      by destruct Hpp.
  - apply prefix_cons_iff in Hpp as [-> _]. apply prefix_cons, prefix_nil.
Qed.

(** The rest of the path is empty or starts with ["/"]. *)
Lemma after_first_segment_led l :
  after_first_segment l = [] ∨ js "/" `prefix_of` after_first_segment l.
Proof.
  unfold after_first_segment, first_segment. destruct (pathname l) as [|c p]; [by left|].
  change (slice 1 (c :: p)) with p. cbn [drop].
  pose proof (cut_join "/" p) as Hp.
  set (a := (cut "/" p).1) in *. set (x := (cut "/" p).2) in *. clearbody a x.
  destruct (decide ("/"%char ∈ p)); subst p; rewrite drop_app_length;
    [right; by eexists|by left].
Qed.

Lemma first_segment_no_slash l : "/"%char ∉ first_segment l.
Proof. apply cut_fst_no_sep. Qed.

Lemma first_segment_double_slash l :
  js "//" `prefix_of` pathname l → first_segment l = [].
Proof. intros [r Hr]. unfold first_segment. by rewrite Hr. Qed.

Lemma first_segment_in_split l :
  wf l = true → first_segment l ∈ split "/" (pathname l).
Proof.
  intros Hp%wf_pathname. rewrite Hp, split_cons_sep. apply list_elem_of_further.
  destruct (split_cut "/" (slice 1 (pathname l))) as [E _].
  by apply list_elem_of_lookup_2 in E.
Qed.

Lemma notin_first_segment c l : c ∉ pathname l → c ∉ first_segment l.
Proof.
  intros Hc Hin. apply Hc, (subseteq_drop 1). unfold first_segment, slice in Hin.
  destruct (cut_fst_prefix "/" (drop 1 (pathname l))) as [k Hk].
  rewrite Hk. apply elem_of_app. by left.
Qed.

End wf.

#[export] Hint Resolve first_segment_no_slash : js.

(** ** Classes of code units *)

#[export] Instance units_dec p s : Decision (units p s).
Proof. unfold units. apply _. Defined.

#[export] Instance clean_dec l : Decision (clean l).
Proof. unfold clean. apply _. Defined.

Section units.
Implicit Types (p : ascii → bool) (s t lit : str) (c : ascii).

Lemma units_app p s t : units p (s ++ t) ↔ units p s ∧ units p t.
Proof. unfold units. by rewrite Forall_app. Qed.

Lemma units_cons p c s : units p (c :: s) ↔ p c = true ∧ units p s.
Proof. unfold units. by rewrite Forall_cons. Qed.

(** A string made of code units of [s] and of [lit] only. *)
Lemma units_of_notin p s lit t :
  (∀ c, c ∉ s → c ∉ lit → c ∉ t) → units p s → units p lit → units p t.
Proof.
  intros H Hs Hl. apply Forall_forall. intros c Hc.
  destruct (decide (c ∈ s)) as [?|Hn]; [by eapply (proj1 (Forall_forall _ _) Hs)|].
  destruct (decide (c ∈ lit)) as [?|Hn']; [by eapply (proj1 (Forall_forall _ _) Hl)|].
  by destruct (H c Hn Hn').
Qed.

(** What a path may hold, a query may hold. *)
Lemma units_path_query s : units path_unit s → units query_unit s.
Proof.
  intros H. eapply Forall_impl; [exact H|].
  intros c. unfold path_unit. by intros [? _]%andb_true_iff.
Qed.

Lemma units_first_segment p l : units p (pathname l) → units p (first_segment l).
Proof.
  intros H. apply (units_of_notin p (pathname l) []); [|done|by constructor].
  intros c Hc _. by apply notin_first_segment.
Qed.

(** The delimiters are not code units of the components before them: a
    clean location is well formed as soon as its components start as they
    should. *)
Lemma units_notin p c s : p c = false → units p s → c ∉ s.
Proof.
  intros Hc Hs Hin. apply (proj1 (Forall_forall _ _) Hs) in Hin. congruence.
Qed.

Lemma clean_wf l :
  clean l → js "/" `prefix_of` pathname l →
  empty_or_led_by "?" (search l) = true → empty_or_led_by "#" (hash l) = true →
  wf l = true.
Proof.
  intros (Hp & Hq & _) ? ? ?. apply wf_spec.
  split_and!; [done|by apply (units_notin path_unit)..|done|
    by apply (units_notin query_unit)|done].
Qed.

End units.

End Location.
