(* ===== verification/Url.v ===== *)
(** * Url: the components of a location as a browser writes them

    What a browser does to the components of an [http(s)] URL, as far as
    the URLs of [src/ghspa.js] need it, modelled from the URL standard: a
    query and a fragment are exposed behind their delimiter or not at all
    ([lead]); an empty path is ["/"] ([path_or_root]); an apostrophe of the
    query is written ["%27"] ([encode_query], [encoded]); a path segment
    that is a dot segment would be removed ([dot_segment],
    [has_dot_segment]).  [exposable] is the form of a location a browser
    exposes: nothing of this is left to do.  The file holds no parser; the
    interface of [History] is stated with these definitions and the parser
    of [Browser] is proved against them. *)

From S2P Require Import Prelude JsString Location.

Module Url.
Import JsString Location.

(** ** Definitions *)

(** The getters [search] and [hash]: empty for an absent or empty
    component, otherwise the component behind its delimiter. *)
Definition lead (c : ascii) (s : str) : str := if truthy s then c :: s else [].

(** The path of an [http(s)] URL is never empty. *)
Definition path_or_root (s : str) : str := if truthy s then s else js "/".

(** Percent-encoding of the query of an [http(s)] URL, on input that holds
    no other code unit of the encode set: ["'"] becomes ["%27"]. *)
Definition encode_query (s : str) : str := replace_all (js "'") (js "%27") s.

(** The location a browser exposes for the URL [href l]: the attributes of
    [l] with the query in its percent-encoded form. *)
Definition encoded (l : location) : location :=
  {| protocol := protocol l; hostname := hostname l; port := port l;
     pathname := pathname l;
     search := lead "?" (encode_query (drop 1 (search l)));
     hash := hash l |}.

(** The path segments the URL parser reads as "this directory" and
    "parent directory" and removes: ["."], [".."] and their forms with
    ["%2e"] or ["%2E"] for a dot. *)
Definition dot_segments : list str :=
  [js "."; js "%2e"; js "%2E"; js ".."; js ".%2e"; js ".%2E"; js "%2e.";
   js "%2E."; js "%2e%2e"; js "%2e%2E"; js "%2E%2e"; js "%2E%2E"].

Definition dot_segment (w : str) : bool := bool_decide (w ∈ dot_segments).

(** A path with such a segment would be normalised by the browser and is
    outside the model. *)
Definition has_dot_segment (path : str) : bool :=
  bool_decide (Exists (λ w, dot_segment w = true) (split "/" path)).

(** A location as the browser exposes it, its origin left aside:
    well-formed attributes with nothing left to percent-encode, no
    apostrophe in the query, a path without dot segments. *)
Definition exposable (l : location) : bool :=
  wf l && bool_decide (clean l) && bool_decide ("'"%char ∉ search l) &&
  negb (has_dot_segment (pathname l)).

(** ** Components behind their delimiter *)

Section lead.
Implicit Types (a s t p : str) (c : ascii).

Lemma lead_drop c s : empty_or_led_by c s = true → lead c (drop 1 s) = s.
Proof.
  intros [->|(t & -> & Ht%truthy_length)]%empty_or_led_by_spec; [done|].
  change (drop 1 (c :: t)) with t. unfold lead. by rewrite Ht.
Qed.

Lemma lead_led c s : empty_or_led_by c (lead c s) = true.
Proof.
  unfold lead. destruct (truthy s) eqn:Hs; [|done]. simpl.
  by rewrite Hs, bool_decide_eq_true_2.
Qed.

Lemma lead_inj c s t : lead c s = lead c t → s = t.
Proof. unfold lead. destruct s, t; simpl; congruence. Qed.

Lemma slice_lead c s : slice 1 (lead c s) = s.
Proof. by destruct s. Qed.

Lemma notin_lead c c' s : c ≠ c' → c ∉ s → c ∉ lead c' s.
Proof. intros ? ?. unfold lead. destruct (truthy s); solve_notin. Qed.

(** A component behind its delimiter is cut off whole. *)
Lemma cut_led c a s :
  c ∉ a → empty_or_led_by c s = true → cut c (a ++ s) = (a, drop 1 s).
Proof.
  intros Ha [->|(t & -> & _)]%empty_or_led_by_spec.
  - rewrite app_nil_r. by apply cut_no_sep.
  - by apply cut_app.
Qed.

Lemma path_or_root_led p :
  p = [] ∨ js "/" `prefix_of` p → js "/" `prefix_of` path_or_root p.
Proof. intros [->|[t ->]]; by eexists. Qed.

Lemma notin_path_or_root c p : c ≠ "/"%char → c ∉ p → c ∉ path_or_root p.
Proof.
  intros ? ?. unfold path_or_root. change (js "/") with ["/"%char].
  destruct (truthy p); solve_notin.
Qed.

End lead.

(** ** The percent-encoding of the query *)

Section encode_query.
Implicit Types (a s t : str) (c : ascii).

Lemma occurs_singleton c s : occurs [c] s ↔ c ∈ s.
Proof.
  split.
  - intros (pre & post & ->). rewrite elem_of_app. right. apply list_elem_of_here.
  - intros (pre & post & ->)%list_elem_of_split. by exists pre, post.
Qed.

(** The percent-encoding works code unit by code unit. *)
Lemma encode_query_flat_map s :
  encode_query s =
  flat_map (λ c, if decide (c = "'"%char) then js "%27" else [c]) s.
Proof. apply replace_all_char. Qed.

Lemma encode_query_nil : encode_query [] = [].
Proof. done. Qed.

Lemma encode_query_apostrophe s :
  encode_query ("'"%char :: s) = js "%27" ++ encode_query s.
Proof. by rewrite !encode_query_flat_map. Qed.

Lemma encode_query_other c s :
  c ≠ "'"%char → encode_query (c :: s) = c :: encode_query s.
Proof. intros Hc. rewrite !encode_query_flat_map. simpl. by rewrite decide_False. Qed.

Lemma encode_query_app s t :
  encode_query (s ++ t) = encode_query s ++ encode_query t.
Proof. rewrite !encode_query_flat_map. apply flat_map_app. Qed.

Lemma encode_query_id s : "'"%char ∉ s → encode_query s = s.
Proof.
  intros Hs. apply replace_all_absent; [done|].
  by intros ?%(occurs_singleton "'"%char).
Qed.

(** The encoding adds only code units of ["%27"], and leaves no
    apostrophe. *)
Lemma encode_query_notin c s : c ∉ s → c ∉ js "%27" → c ∉ encode_query s.
Proof. apply replace_all_char_notin. Qed.

Lemma encode_query_no_apostrophe s : "'"%char ∉ encode_query s.
Proof.
  induction s as [|c s IH]; [rewrite encode_query_nil; apply not_elem_of_nil|].
  destruct (decide (c = "'"%char)) as [->|Hc].
  - rewrite encode_query_apostrophe, not_elem_of_app. split; [by_compute|done].
  - rewrite encode_query_other, not_elem_of_cons by done. auto.
Qed.

(** A query without apostrophe is its own encoding. *)
Lemma lead_encode_query_id s :
  "'"%char ∉ s → empty_or_led_by "?" s = true →
  lead "?" (encode_query (drop 1 s)) = s.
Proof.
  intros Hs Hled. rewrite encode_query_id, lead_drop; [done..|].
  intros Hin. apply Hs. by eapply (subseteq_drop 1).
Qed.

End encode_query.

#[export] Hint Rewrite encode_query_nil encode_query_apostrophe encode_query_app : js_rw.
#[export] Hint Rewrite encode_query_other using done : js_rw.
#[export] Hint Resolve encode_query_no_apostrophe : js.

(** ** The percent-encoding and the structure of a path *)

Section encoding.
Implicit Types (s w x a r : str) (c : ascii).

(** A string free of the code units the encoding removes or adds is a
    prefix of the encoding only where it is a prefix of the source. *)
Lemma prefix_encode_query w s :
  Forall (λ c, c ∉ js "%27'") w →
  w `prefix_of` encode_query s → w `prefix_of` s.
Proof.
  intros Hw. revert s.
  induction Hw as [|x w Hx Hw IH]; intros s; [intros _; apply prefix_nil|].
  destruct s as [|c s]; [by rewrite encode_query_nil; intros ?%prefix_nil_not|].
  rewrite !prefix_cons_iff. destruct (decide (c = "'"%char)) as [->|Hc].
  - rewrite encode_query_apostrophe.
    change (js "%27" ++ ?y) with ("%"%char :: js "27" ++ y).
    intros [Ex _]%prefix_cons_iff. destruct Hx. rewrite Ex. by_compute.
  - rewrite encode_query_other, prefix_cons_iff by done. intros [-> Hp]. auto.
Qed.

(** An encoding that lacks a code unit of ["%27"] is the source itself. *)
Lemma encode_query_inv c x :
  c ∈ js "%27" → c ∉ encode_query x → encode_query x = x.
Proof.
  intros Hc. induction x as [|c' x IH]; [done|].
  destruct (decide (c' = "'"%char)) as [->|Hc']; js_simp.
  - rewrite not_elem_of_app. by intros [[] _].
  - rewrite not_elem_of_cons. intros [_ ?]. f_equal. auto.
Qed.

(** The encoding of a string that is empty or starts with ["/"] is so. *)
Lemma encode_query_led r :
  r = [] ∨ js "/" `prefix_of` r →
  encode_query r = [] ∨ js "/" `prefix_of` encode_query r.
Proof.
  intros [->|[r' ->]]; [by left|right]. change (js "/" ++ r') with ("/"%char :: r').
  rewrite encode_query_other by by_compute. by eexists.
Qed.

(** Encoding twice is encoding once. *)
Lemma encode_query_idemp s : encode_query (encode_query s) = encode_query s.
Proof. apply encode_query_id, encode_query_no_apostrophe. Qed.

(** The encoding keeps the segments of a path apart. *)
Lemma split_encode_query s :
  split "/" (encode_query s) = encode_query <$> split "/" s.
Proof. apply split_replace_all_char; by_compute. Qed.

(** ** Dot segments *)
Lemma has_dot_segment_false path :
  has_dot_segment path = false ↔
  ∀ w, w ∈ split "/" path → dot_segment w = false.
Proof.
  unfold has_dot_segment.
  rewrite bool_decide_eq_false, <- Forall_Exists_neg, Forall_forall.
  by setoid_rewrite not_true_iff_false.
Qed.

(** A path whose dot segments are all segments of a path without dot
    segment has none. *)
Lemma has_dot_segment_segments p q :
  (∀ w, w ∈ split "/" q → dot_segment w = true → w ∈ split "/" p) →
  has_dot_segment p = false → has_dot_segment q = false.
Proof.
  rewrite !has_dot_segment_false. intros Hq Hp w Hw.
  destruct (dot_segment w) eqn:Hd; [|done]. rewrite <- Hd. auto.
Qed.

(** A dot segment is made of the code units of [".%2eE"]. *)
Lemma dot_segment_notin c w : dot_segment w = true → c ∉ js ".%2eE" → c ∉ w.
Proof.
  intros Hw%bool_decide_eq_true Hc Hin. apply Hc.
  assert (H : Forall (Forall (λ k : ascii, k ∈ js ".%2eE")) dot_segments)
    by by_compute.
  rewrite Forall_forall in H. specialize (H w Hw).
  rewrite Forall_forall in H. auto.
Qed.

Lemma elem_of_encoded x (xs : list str) :
  dot_segment x = true → x ∈ encode_query <$> xs → x ∈ xs.
Proof.
  intros Hx (y & -> & Hy)%list_elem_of_fmap.
  rewrite (encode_query_inv "7"); [done|by_compute|].
  apply dot_segment_notin; [done|by_compute].
Qed.

(** Encoding the path behind a prefix makes no dot segment. *)
Lemma has_dot_segment_encode_query a r :
  r = [] ∨ js "/" `prefix_of` r →
  has_dot_segment (a ++ r) = false →
  has_dot_segment (a ++ encode_query r) = false.
Proof.
  intros [->|[r' ->]]; [done|]. change (js "/" ++ r') with ("/"%char :: r').
  rewrite encode_query_other by by_compute. apply has_dot_segment_segments.
  intros w. rewrite !split_app, split_encode_query, !elem_of_app.
  intros [?|?] Hw; [by left|right]. by apply elem_of_encoded.
Qed.

(** What is left of a path behind ["//"] and its first segment has no
    dot segment when the path has none. *)
Lemma has_dot_segment_after_authority r :
  has_dot_segment (js "//" ++ r) = false →
  has_dot_segment (drop (length (cut "/" r).1) r) = false.
Proof.
  pose proof (cut_join "/" r) as Hr. pose proof (cut_fst_no_sep "/" r) as Ha.
  set (a := (cut "/" r).1) in *. set (x := (cut "/" r).2) in *. clearbody a x.
  apply has_dot_segment_segments. intros w.
  change (js "//" ++ ?y) with ("/"%char :: "/"%char :: y).
  destruct (decide ("/"%char ∈ r)); subst r; rewrite drop_app_length.
  - rewrite !split_cons_sep, split_app_sep, !elem_of_cons by done.
    intros [?|?] _; auto.
  - cbn [split]. by intros ->%list_elem_of_singleton.
Qed.

End encoding.

(** ** Exposable locations *)

Section exposable.
Implicit Types (l : location) (c : ascii).

Lemma exposable_spec l :
  exposable l = true ↔
  wf l = true ∧ clean l ∧ ("'"%char ∉ search l) ∧
  has_dot_segment (pathname l) = false.
Proof.
  unfold exposable.
  rewrite !andb_true_iff, !negb_true_iff, !bool_decide_eq_true. tauto.
Qed.

(** The encoding adds only code units of ["?%27"] to the query. *)
Lemma notin_encoded_search c l :
  c ∉ search l → c ∉ js "?%27" → c ∉ search (encoded l).
Proof.
  intros Hs Hc. cbv [js String.list_ascii_of_string] in Hc.
  cbn [encoded search]. apply notin_lead; [solve_notin|].
  apply encode_query_notin; [|cbv [js String.list_ascii_of_string]; solve_notin].
  intros Hin. by eapply Hs, subseteq_drop.
Qed.

(** The encoded location is one the browser exposes. *)
Lemma exposable_encoded l :
  wf l = true → clean l → has_dot_segment (pathname l) = false →
  exposable (encoded l) = true.
Proof.
  intros (Hpre & Hq & Hh & Hs & Hsh & Hf)%wf_spec (Hcp & Hcq & Hcf) Hdot.
  apply exposable_spec. repeat split; [| | | |by apply notin_lead; auto with js|done].
  - apply wf_spec. cbn [encoded pathname search hash].
    repeat split; [done..|apply lead_led| |done].
    by apply notin_encoded_search; [|by_compute].
  - done.
  - apply (units_of_notin _ (search l) (js "?%27")); [|done|by_compute].
    intros c. apply notin_encoded_search.
  - done.
Qed.

Lemma encoded_id l :
  "'"%char ∉ search l → empty_or_led_by "?" (search l) = true → encoded l = l.
Proof.
  intros Hq Hled. unfold encoded. rewrite lead_encode_query_id by done.
  by destruct l.
Qed.

End exposable.

End Url.
