(* ===== verification/History.v ===== *)
(** * History: what the script relies on in the browser

    [src/ghspa.js] ends a load with [l.replace(url)] (line 26) or with
    [window.history.replaceState(null, null, url)] (line 51).  What the tab
    shows afterwards is decided by the browser: it parses the URL,
    percent-encodes what the component requires, removes dot segments,
    compares origins.  The theorems on the loads of a tab ([Session],
    [Requests]) do not depend on a parser: they are proved against the
    interface of this file, [HistoryApi], and its laws, [HistoryApiOk],
    which say what any browser does with the URLs that occur.

    - [exposed l]: [l] is a value [window.location] can have on a document
      of the site.
    - [navigate url]: the location of the document [l.replace(url)] loads.
    - [replace_url base u]: what [history.replaceState(null, null, u)] does
      on the document at [base]: the current entry shows a location, or the
      call throws.

    The laws are stated only where every browser agrees: for URLs made of
    code units that need no encoding, without dot segments, at the origin
    of an exposed location or with a host of lower-case letters and dots.
    The vocabulary of the laws is that of [Url]; no parser is needed to
    state them.  [Browser.url_model], a parser, is an instance; the
    examples are computed with it. *)

From S2P Require Import Prelude JsString Location Url.

Module History.
Import JsString Location Url.

(** ** Definitions *)

(** The exception a history update can end with. *)
Inductive exn := SecurityError.

(** What [history.replaceState(null, null, u)] does: the entry shows a
    location, or the call throws. *)
Inductive resolved :=
  | Shown (l : location)
  | Refused (e : exn).

(** The operations of the browser the script calls, and the locations
    the browser exposes. *)
Class HistoryApi := {
  exposed : location → Prop;
  navigate : str → option location;
  replace_url : location → str → option resolved
}.

(** Path, query and fragment of [l] at the origin of [base]. *)
Definition at_origin (base l : location) : location :=
  Loc (protocol base) (hostname base) (port base) (pathname l) (search l) (hash l).

(** [l.host]: the host, and the port when it is not the default one. *)
Definition host_port (l : location) : str :=
  hostname l ++ (if truthy (port l) then js ":" ++ port l else []).

(** A host of lower-case letters and dots, which a URL parser leaves as it
    is: no port, no upper case, no number, no label to decode. *)
Definition lower (c : ascii) : bool :=
  (96 <? nat_of_ascii c) && (nat_of_ascii c <? 123).

Definition host_unit (c : ascii) : bool := lower c || bool_decide (c = "."%char).

Definition plain_host (a : str) : bool :=
  truthy a && bool_decide (units host_unit a).

(** What every browser does.  An exposed location has nothing left to
    encode or to normalise, and every location of its origin that has
    nothing left to encode or to normalise is exposed.  A navigation to the serialisation of a
    location, at the origin of the document, loads the document at that
    location with the apostrophes of its query encoded.  A history update
    never leaves the origin; given the path, query and fragment of a
    location it shows them at the origin of the document, unless the path
    starts with ["//"]: then what follows is read as a host, and the update
    is refused when that is another host and shows the rest of the path
    when it is the host of the document. *)
Class HistoryApiOk (api : HistoryApi) : Prop := {
  exposed_exposable l : exposed l → exposable l = true;
  exposed_at_origin base l :
    exposed base → exposable l = true → exposed (at_origin base l);
  navigate_wf url l : navigate url = Some l → wf l = true;
  navigate_href base l :
    exposed base → origin l = origin base →
    wf l = true → clean l → has_dot_segment (pathname l) = false →
    navigate (href l) = Some (encoded l);
  replace_url_wf base u l : replace_url base u = Some (Shown l) → wf l = true;
  replace_url_origin base u l :
    replace_url base u = Some (Shown l) → origin l = origin base;
  replace_url_path base l :
    exposed base → exposable l = true → ¬ js "//" `prefix_of` pathname l →
    replace_url base (path_query_fragment l) = Some (Shown (at_origin base l));
  replace_url_same_host base l r :
    exposed base → exposable l = true → pathname l = js "//" ++ r →
    (cut "/" r).1 = host_port base →
    replace_url base (path_query_fragment l) =
    Some (Shown (Loc (protocol base) (hostname base) (port base)
                     (path_or_root (drop (length (host_port base)) r))
                     (search l) (hash l)));
  replace_url_other_host base l r :
    exposed base → exposable l = true → pathname l = js "//" ++ r →
    plain_host (cut "/" r).1 = true → (cut "/" r).1 ≠ hostname base →
    replace_url base (path_query_fragment l) = Some (Refused SecurityError)
}.

(** ** Decidable equality *)

#[export] Instance exn_eq_dec : EqDecision exn.
Proof. solve_decision. Defined.

#[export] Instance resolved_eq_dec : EqDecision resolved.
Proof. solve_decision. Defined.

(** ** Consequences of the laws *)

Section laws.
Context {api : HistoryApi} {api_ok : HistoryApiOk api}.
Implicit Types (l base : location).

Lemma exposed_wf l : exposed l → wf l = true.
Proof. by intros (? & _)%exposed_exposable%exposable_spec. Qed.

(** A history update with the path, query and fragment of a location of
    the origin of the document makes that location the visible one. *)
Lemma replace_url_restores base l :
  exposed base → exposable l = true → ¬ js "//" `prefix_of` pathname l →
  origin l = origin base →
  replace_url base (path_query_fragment l) = Some (Shown l).
Proof.
  intros Hb Hl Hss [= HP Hh Hpo]. rewrite replace_url_path by done.
  unfold at_origin. rewrite <- HP, <- Hh, <- Hpo. by destruct l.
Qed.

(** A location of the origin of an exposed one. *)
Lemma exposed_same_origin base l :
  exposed base → exposable l = true → origin l = origin base → exposed l.
Proof.
  intros Hb Hl [= HP Hh Hpo].
  replace l with (at_origin base l); [by apply exposed_at_origin|].
  unfold at_origin. rewrite <- HP, <- Hh, <- Hpo. by destruct l.
Qed.

End laws.

(** ** Plain hosts *)

Section plain_host.
Implicit Types (a : str).

Lemma plain_host_spec a :
  plain_host a = true → a ≠ [] ∧ ":"%char ∉ a.
Proof.
  unfold plain_host. rewrite andb_true_iff, truthy_length, bool_decide_eq_true.
  intros [? Ha]. split; [done|]. by apply (units_notin host_unit).
Qed.

End plain_host.

End History.
