(* ===== verification/Browser.v ===== *)
(** * Browser: a URL parser as the browser

    The script ends a load with [location.replace(url)] or with
    [history.replaceState(null, null, url)].  In both cases the browser
    parses [url] and the attributes of [window.location] change
    accordingly.  This file models that parser for the URLs that occur:
    absolute [http(s)] URLs of the form the script builds
    ([parse_href]), and path-absolute and scheme-relative references
    ([resolve_reference]).  The parser is partial: outside this fragment
    it returns [None].  [url_model] is the browser it makes, and
    [url_model_ok] the proof that it satisfies the laws of [History], the
    only thing the theorems on tabs assume of a browser.

    The parser is not code of the repository; it follows the URL standard
    as the specification's Location does (scheme, host, optional port, path,
    optional query, optional fragment), including the one normalisation that
    matters here: in the query of an [http(s)] URL an apostrophe is written
    ["%27"].  A reference that starts with ["//"] names another host: the
    history update shows it when it is the host of the document and
    refuses it with a [SecurityError] otherwise. *)

From S2P Require Import Prelude JsString Location Url History.

Module Browser.
Import JsString Location Url History.

(** ** Definitions *)

(** The part of a URL string before its query and its fragment. *)
Definition before_query (u : str) : str := (cut "?" (cut "#" u).1).1.

(** The path, query and fragment of a URL string that starts at its path:
    the fragment is what follows the first ["#"], the query what follows
    the first ["?"] before it. *)
Definition parse_path_query_fragment (u : str) : str * str * str :=
  let before_hash := (cut "#" u).1 in
  (before_query u,
   lead "?" (encode_query (cut "?" before_hash).2),
   lead "#" (cut "#" u).2).

(** An absolute URL [scheme://host[:port][/path][?query][#fragment]], with
    a host that is not empty. *)
Definition parse_href (url : str) : option location :=
  let after_scheme := (cut ":" url).2 in
  if bool_decide (js "//" `prefix_of` after_scheme) then
    let rest := drop 2 after_scheme in
    let authority := (cut "/" (before_query rest)).1 in
    let '(path, query, fragment) :=
      parse_path_query_fragment (drop (length authority) rest) in
    if has_dot_segment path || negb (truthy (cut ":" authority).1) then None
    else Some {| protocol := (cut ":" url).1 ++ js ":";
                 hostname := (cut ":" authority).1;
                 port := (cut ":" authority).2;
                 pathname := path_or_root path;
                 search := query;
                 hash := fragment |}
  else None.

(** The reference [u] resolved against the location [base] of the
    document.  A path-absolute reference (["/"] not followed by ["/"])
    keeps the origin and gives the path, query and fragment.  A
    scheme-relative reference (["//"] first) is an absolute URL once the
    scheme of [base] is put before it; it is shown when it has the origin
    of [base] and refused otherwise. *)
Definition resolve_reference (base : location) (u : str) : option resolved :=
  match u with
  | "/"%char :: rest =>
      if bool_decide (js "/" `prefix_of` rest) then
        l ← parse_href (protocol base ++ u);
        Some (if decide (origin l = origin base)
              then Shown l else Refused SecurityError)
      else
        let '(path, query, fragment) := parse_path_query_fragment u in
        if has_dot_segment path then None
        else Some (Shown {| protocol := protocol base;
                            hostname := hostname base;
                            port := port base;
                            pathname := path;
                            search := query;
                            hash := fragment |})
  | _ => None
  end.

(** The origin of an [http(s)] location: the protocol is a scheme and
    [":"]; host and port hold no delimiter and the host is not empty. *)
Definition delimiter_free (s : str) : bool :=
  bool_decide (":"%char ∉ s) && bool_decide ("/"%char ∉ s) &&
  bool_decide ("?"%char ∉ s) && bool_decide ("#"%char ∉ s).

Definition wf_origin (l : location) : bool :=
  bool_decide (protocol l = (cut ":" (protocol l)).1 ++ js ":") &&
  truthy (hostname l) &&
  delimiter_free (hostname l) && delimiter_free (port l).

(** A location as this model of the browser exposes it. *)
Definition wf_url (l : location) : bool := exposable l && wf_origin l.

(** The parser as a browser. *)
Definition url_model : HistoryApi :=
  {| exposed l := wf_url l = true;
     navigate := parse_href;
     replace_url := resolve_reference |}.

(** ** Cutting at a delimiter *)

Section cut.
Implicit Types (a s t : str) (c : ascii).

(** Parsing the serialisation of path, query and fragment gives them back,
    the query in its encoded form. *)
Lemma parse_path_query_fragment_encodes path query fragment :
  "?"%char ∉ path → "#"%char ∉ path → "#"%char ∉ query →
  empty_or_led_by "?" query = true → empty_or_led_by "#" fragment = true →
  parse_path_query_fragment (path ++ query ++ fragment) =
  (path, lead "?" (encode_query (drop 1 query)), fragment).
Proof.
  intros Hq Hh Hqh Hquery Hfragment.
  unfold parse_path_query_fragment, before_query.
  rewrite app_assoc, cut_led by solve_notin. cbn [fst snd].
  rewrite cut_led by done. cbn [fst snd]. by rewrite lead_drop.
Qed.

(** Parsing inverts the serialisation of path, query and fragment. *)
Lemma parse_path_query_fragment_app path query fragment :
  "?"%char ∉ path → "#"%char ∉ path → "#"%char ∉ query → "'"%char ∉ query →
  empty_or_led_by "?" query = true → empty_or_led_by "#" fragment = true →
  parse_path_query_fragment (path ++ query ++ fragment) = (path, query, fragment).
Proof.
  intros. by rewrite parse_path_query_fragment_encodes, lead_encode_query_id.
Qed.

End cut.

(** ** The parser gives well-formed attributes *)

Section parser_wf.
Implicit Types (u p rest : str) (c : ascii).

Lemma before_query_cons c u :
  before_query (c :: u) =
  if decide (c = "?"%char ∨ c = "#"%char) then [] else c :: before_query u.
Proof.
  unfold before_query. rewrite (cut_cons "#").
  destruct (decide (c = "#"%char)) as [->|Hh]; [by rewrite decide_True by auto|].
  cbn [fst]. rewrite (cut_cons "?").
  destruct (decide (c = "?"%char)) as [->|Hq]; [by rewrite decide_True by auto|].
  by rewrite decide_False by by intros [?|?].
Qed.

Lemma before_query_notin u :
  ("?"%char ∉ before_query u) ∧ ("#"%char ∉ before_query u).
Proof.
  unfold before_query. split; [auto with js|].
  by apply cut_notin, cut_fst_no_sep.
Qed.

(** Behind the authority the path is empty or starts with ["/"]. *)
Lemma path_after_authority rest :
  let p := before_query (drop (length (cut "/" (before_query rest)).1) rest) in
  p = [] ∨ js "/" `prefix_of` p.
Proof.
  cbv zeta. induction rest as [|c r IH]; [by left|].
  rewrite before_query_cons. case_decide as Hc.
  - left. cbn [cut fst length drop]. by rewrite before_query_cons, decide_True.
  - rewrite cut_cons. destruct (decide (c = "/"%char)) as [->|Hs]; [|done].
    right. cbn [fst length drop]. rewrite before_query_cons, decide_False by done.
    by eexists.
Qed.

(** Query and fragment come out with their delimiter, and the query with
    no ["#"]. *)
Lemma parse_path_query_fragment_wf u :
  empty_or_led_by "?" (parse_path_query_fragment u).1.2 = true ∧
  ("#"%char ∉ (parse_path_query_fragment u).1.2) ∧
  empty_or_led_by "#" (parse_path_query_fragment u).2 = true.
Proof.
  unfold parse_path_query_fragment. cbn [fst snd].
  repeat split; [apply lead_led| |apply lead_led].
  apply notin_lead; [done|]. apply replace_all_char_notin; [|by_compute].
  by apply cut_notin, cut_fst_no_sep.
Qed.

(** Every location the parser gives is well formed. *)
Lemma parse_href_wf url l : parse_href url = Some l → wf l = true.
Proof.
  unfold parse_href. case_bool_decide; [|done]. cbv zeta.
  set (rest := drop 2 _). set (a := (cut "/" (before_query rest)).1).
  pose proof (parse_path_query_fragment_wf (drop (length a) rest)) as (? & ? & ?).
  pose proof (before_query_notin (drop (length a) rest)) as [? ?].
  pose proof (path_after_authority rest).
  destruct (parse_path_query_fragment _) as [[p q] f] eqn:E.
  assert (p = before_query (drop (length a) rest)) as -> by by injection E.
  case_match; [done|]. intros [= <-]. apply wf_spec. cbn [pathname search hash].
  auto 7 using path_or_root_led, notin_path_or_root.
Qed.

Lemma resolve_reference_wf base u l :
  resolve_reference base u = Some (Shown l) → wf l = true.
Proof.
  unfold resolve_reference. destruct u as [|c u]; [done|].
  destruct (decide (c = "/"%char)) as [->|]; [|by repeat case_match].
  case_bool_decide as Hss.
  - destruct (parse_href _) as [l'|] eqn:E; [|done]. simpl.
    case_decide; intros [= <-]. by eapply parse_href_wf.
  - pose proof (parse_path_query_fragment_wf ("/"%char :: u)) as (? & ? & ?).
    pose proof (before_query_notin ("/"%char :: u)) as [? ?].
    destruct (parse_path_query_fragment _) as [[p q] f] eqn:E.
    assert (p = before_query ("/"%char :: u)) as -> by by injection E.
    case_match; [done|]. intros [= <-]. apply wf_spec. cbn [pathname search hash].
    repeat split; try done. rewrite before_query_cons, decide_False by by intros [?|?].
    by eexists.
Qed.

End parser_wf.

(** ** Parsing inverts serialisation *)

Section parse.
Implicit Types (l base : location) (s h po : str).

Lemma delimiter_free_spec s :
  delimiter_free s = true ↔
  (":"%char ∉ s) ∧ ("/"%char ∉ s) ∧ ("?"%char ∉ s) ∧ ("#"%char ∉ s).
Proof.
  unfold delimiter_free. rewrite !andb_true_iff, !bool_decide_eq_true. tauto.
Qed.

Lemma wf_origin_spec l :
  wf_origin l = true ↔
  protocol l = (cut ":" (protocol l)).1 ++ js ":" ∧ hostname l ≠ [] ∧
  delimiter_free (hostname l) = true ∧ delimiter_free (port l) = true.
Proof.
  unfold wf_origin.
  rewrite !andb_true_iff, bool_decide_eq_true, truthy_length. tauto.
Qed.

Lemma wf_url_spec l :
  wf_url l = true ↔
  wf l = true ∧ wf_origin l = true ∧ ("'"%char ∉ search l) ∧
  has_dot_segment (pathname l) = false ∧ clean l.
Proof.
  unfold wf_url. rewrite andb_true_iff, exposable_spec. tauto.
Qed.

Lemma wf_url_exposable l :
  wf_url l = true ↔ exposable l = true ∧ wf_origin l = true.
Proof. unfold wf_url. by rewrite andb_true_iff. Qed.

(** Host and port are recovered from the authority. *)
Lemma cut_authority h po :
  ":"%char ∉ h →
  cut ":" (h ++ (if truthy po then js ":" ++ po else [])) = (h, po).
Proof.
  intros Hh. destruct po as [|c po]; simpl truthy; cbv iota.
  - rewrite app_nil_r. by apply cut_no_sep.
  - by apply cut_app.
Qed.

(** The authority ends at the path, which starts with ["/"]. *)
Lemma cut_at_path a path s :
  "/"%char ∉ a → "?"%char ∉ a → "#"%char ∉ a →
  "?"%char ∉ path → "#"%char ∉ path → js "/" `prefix_of` path →
  "#"%char ∉ s → empty_or_led_by "?" s = true →
  ∀ f, empty_or_led_by "#" f = true →
  (cut "/" (cut "?" (cut "#" (a ++ path ++ s ++ f)).1).1).1 = a.
Proof.
  intros Ha1 Ha2 Ha3 Hp1 Hp2 Hpre Hs1 Hs2 f Hf.
  rewrite (app_assoc a), (app_assoc (a ++ path)), cut_led by solve_notin.
  cbn [fst]. rewrite cut_led by solve_notin. cbn [fst].
  destruct Hpre as [p ->]. change (js "/" ++ p) with ("/"%char :: p).
  by rewrite cut_app.
Qed.

Lemma parse_href_parts sch h po path s f :
  ":"%char ∉ sch → truthy h = true →
  delimiter_free h = true → delimiter_free po = true →
  wf (Loc (sch ++ js ":") h po path s f) = true →
  has_dot_segment path = false →
  parse_href (href (Loc (sch ++ js ":") h po path s f)) =
  Some (encoded (Loc (sch ++ js ":") h po path s f)).
Proof.
  intros Hsch Hh (Hh1 & Hh2 & Hh3 & Hh4)%delimiter_free_spec
    (Hp1 & Hp2 & Hp3 & Hp4)%delimiter_free_spec
    (Hpre & Hq & Hhash & Hs & Hsh & Hf)%wf_spec Hdot.
  cbn [pathname search hash] in *. unfold href, parse_href.
  cbn [protocol hostname port pathname search hash].
  set (pp := if truthy po then js ":" ++ po else []).
  assert (Hpp : ("/"%char ∉ pp) ∧ ("?"%char ∉ pp) ∧ ("#"%char ∉ pp))
    by (subst pp; destruct po; cbn [truthy]; repeat split; solve_notin).
  destruct Hpp as (Hpp1 & Hpp2 & Hpp3).
  rewrite <- (app_assoc sch).
  change (js ":" ++ js "//" ++ ?x) with (":"%char :: js "//" ++ x).
  rewrite cut_app by done. cbn [fst snd]. cbv zeta.
  rewrite bool_decide_eq_true_2 by by eexists.
  change (drop 2 (js "//" ++ ?x)) with x.
  unfold before_query. rewrite (app_assoc h pp), cut_at_path by solve_notin.
  rewrite drop_app_length, parse_path_query_fragment_encodes by done.
  subst pp. rewrite cut_authority by done. cbn [fst snd].
  rewrite Hdot, Hh. destruct Hpre as [p ->]. done.
Qed.

(** A URL whose authority is the first segment of [r]: what the browser
    makes of a path that starts with ["//"] when it is read as a
    reference.  The segment up to the next ["/"] is the host and the port,
    the rest is the path. *)
Lemma parse_scheme_relative sch r s f :
  ":"%char ∉ sch → "?"%char ∉ r → "#"%char ∉ r →
  empty_or_led_by "?" s = true → "#"%char ∉ s → "'"%char ∉ s →
  empty_or_led_by "#" f = true →
  parse_href ((sch ++ js ":") ++ js "//" ++ r ++ s ++ f) =
  let authority := (cut "/" r).1 in
  let path := drop (length authority) r in
  if has_dot_segment path || negb (truthy (cut ":" authority).1) then None
  else Some (Loc (sch ++ js ":") (cut ":" authority).1 (cut ":" authority).2
                 (path_or_root path) s f).
Proof.
  intros Hsch Hr1 Hr2 Hs1 Hs2 Hs3 Hf. unfold parse_href, before_query.
  rewrite <- (app_assoc sch).
  change (js ":" ++ js "//" ++ ?x) with (":"%char :: js "//" ++ x).
  rewrite cut_app by done. cbn [fst snd]. cbv zeta.
  rewrite bool_decide_eq_true_2 by by eexists.
  change (drop 2 (js "//" ++ ?x)) with x.
  rewrite (app_assoc r), cut_led by solve_notin. cbn [fst].
  rewrite cut_led by done. cbn [fst]. cbv zeta.
  pose proof (prefix_length _ _ (cut_fst_prefix "/" r)) as Hlen.
  rewrite <- (app_assoc r), drop_app_le by done.
  rewrite parse_path_query_fragment_app; [done|..|done|done|done|done];
    intros Hin; [apply Hr1|apply Hr2]; by eapply subseteq_drop.
Qed.

(** Parsing [l.href] gives the attributes of [l], the query in its encoded
    form. *)
Lemma parse_href_encodes l :
  wf l = true → wf_origin l = true → has_dot_segment (pathname l) = false →
  parse_href (href l) = Some (encoded l).
Proof.
  intros Hwf Ho Hdot. unfold wf_origin in Ho.
  apply andb_true_iff in Ho as [[[HP%bool_decide_eq_true Hn]%andb_true_iff
    Hh]%andb_true_iff Hpo].
  destruct l as [P h po path s f]. cbn [protocol hostname port pathname search] in *.
  revert Hwf. rewrite HP. intros Hwf.
  apply parse_href_parts; auto with js.
Qed.

(** The parser inverts the serialisation: parsing [l.href] gives back the
    attributes of [l], for every location of the form the browser
    exposes. *)
Lemma parse_href_href l : wf_url l = true → parse_href (href l) = Some l.
Proof.
  intros (Hwf & Ho & Hq & Hdot & _)%wf_url_spec.
  rewrite parse_href_encodes, encoded_id; [done..| |done|done|done].
  by apply wf_spec in Hwf as (_ & _ & _ & ? & _).
Qed.

Example parse_href_landing_url :
  parse_href (js "https://user.github.io:8080/my-repo/?p=/docs/intro&q=x=1#top") =
  Some (Loc (js "https:") (js "user.github.io") (js "8080") (js "/my-repo/")
            (js "?p=/docs/intro&q=x=1") (js "#top")).
Proof.
  apply (parse_href_href
           (Loc (js "https:") (js "user.github.io") (js "8080") (js "/my-repo/")
                (js "?p=/docs/intro&q=x=1") (js "#top"))).
  by vm_compute.
Qed.

(** A path-absolute reference keeps the origin of the document and shows
    the path, query and fragment it is given. *)
Lemma resolve_reference_path base l :
  wf l = true → "'"%char ∉ search l → ¬ js "//" `prefix_of` pathname l →
  resolve_reference base (path_query_fragment l) =
  if has_dot_segment (pathname l) then None
  else Some (Shown (Loc (protocol base) (hostname base) (port base)
                        (pathname l) (search l) (hash l))).
Proof.
  intros Hwf Hq Hss. pose proof (double_slash_path l Hwf) as Hds.
  apply wf_spec in Hwf as (Hpre & Hq1 & Hq2 & Hs & Hsh & Hf).
  unfold resolve_reference. destruct Hpre as [p Hp].
  destruct (path_query_fragment l) as [|c rest] eqn:Hu.
  { unfold path_query_fragment in Hu. by rewrite Hp in Hu. }
  assert (c = "/"%char) as ->.
  { unfold path_query_fragment in Hu. rewrite Hp in Hu. by injection Hu. }
  rewrite bool_decide_eq_false_2 by (intros Hpp; by apply Hss, Hds, prefix_cons).
  rewrite <- Hu. unfold path_query_fragment.
  by rewrite parse_path_query_fragment_app.
Qed.

(** [history.replaceState] with the path, query and fragment of a
    location of the same origin makes that location the visible one. *)
Lemma resolve_reference_restores base l :
  wf_url l = true → ¬ js "//" `prefix_of` pathname l →
  protocol l = protocol base → hostname l = hostname base → port l = port base →
  resolve_reference base (path_query_fragment l) = Some (Shown l).
Proof.
  intros (Hwf & _ & Hq & Hdot & _)%wf_url_spec Hss HP Hh Hpo.
  rewrite resolve_reference_path, Hdot, <- HP, <- Hh, <- Hpo by done.
  by destruct l.
Qed.

(** A path that starts with ["//"], given to [history.replaceState] with
    its query and fragment: the first segment after ["//"] is read as host
    and port.  The update is refused unless they are those of the
    document, and then shows the rest as the path. *)
Lemma resolve_reference_scheme_relative base l r :
  wf_url l = true → pathname l = js "//" ++ r → protocol base = protocol l →
  resolve_reference base (path_query_fragment l) =
  let authority := (cut "/" r).1 in
  let path := drop (length authority) r in
  if has_dot_segment path || negb (truthy (cut ":" authority).1) then None
  else Some (if decide ((cut ":" authority).1 = hostname base ∧
                        (cut ":" authority).2 = port base)
             then Shown (Loc (protocol l) (hostname base) (port base)
                             (path_or_root path) (search l) (hash l))
             else Refused SecurityError).
Proof.
  intros (Hwf & Ho & Hq & _)%wf_url_spec Hp HP.
  apply wf_spec in Hwf as (_ & Hq1 & Hq2 & Hs & Hsh & Hf).
  unfold wf_origin in Ho. rewrite !andb_true_iff, bool_decide_eq_true in Ho.
  destruct Ho as [[[HPr _] _] _]. rewrite Hp in Hq1, Hq2.
  assert (Hsch : ":"%char ∉ (cut ":" (protocol l)).1) by auto with js.
  set (sch := (cut ":" (protocol l)).1) in *.
  unfold resolve_reference, path_query_fragment. rewrite Hp.
  change (js "//" ++ r) with ("/"%char :: "/"%char :: r). cbn [app].
  rewrite bool_decide_eq_true_2 by apply prefix_cons, prefix_nil.
  change ("/"%char :: "/"%char :: r ++ ?x) with (js "//" ++ r ++ x).
  rewrite HP, HPr, parse_scheme_relative by (auto with js; solve_notin).
  cbv zeta. destruct (has_dot_segment _ || _); [done|]. simpl. f_equal.
  unfold origin. cbn [protocol hostname port]. rewrite ?HP, ?HPr.
  destruct (decide (_ = _)) as [E|E], (decide (_ ∧ _)) as [[E1 E2]|E'];
    [by rewrite E1, E2|destruct E'; by injection E|
     destruct E; by rewrite E1, E2|done].
Qed.

Lemma resolve_reference_origin base u l' :
  resolve_reference base u = Some (Shown l') → origin l' = origin base.
Proof.
  unfold resolve_reference. destruct u as [|c u]; [done|].
  destruct (decide (c = "/"%char)) as [->|]; [|by repeat case_match].
  case_bool_decide.
  - destruct (parse_href _) as [l|]; [|done]. simpl. by case_decide; intros [= <-].
  - repeat case_match; try done. by intros [= <-].
Qed.

Example resolve_reference_visible_url :
  resolve_reference
    (Loc (js "https:") (js "h.io") [] (js "/my-repo/") (js "?p=/docs") (js "#top"))
    (js "/my-repo/docs?x=1#top") =
  Some (Shown (Loc (js "https:") (js "h.io") [] (js "/my-repo/docs") (js "?x=1")
                   (js "#top"))).
Proof.
  apply (resolve_reference_restores
           (Loc (js "https:") (js "h.io") [] (js "/my-repo/") (js "?p=/docs") (js "#top"))
           (Loc (js "https:") (js "h.io") [] (js "/my-repo/docs") (js "?x=1") (js "#top")));
    solve [by_compute | by vm_compute].
Qed.

(** A reference to another host is refused; a reference to the host of
    the document is shown. *)
Example resolve_reference_other_host :
  resolve_reference
    (Loc (js "https:") (js "h.io") [] (js "//") (js "?p=/evil.example/x") [])
    (js "//evil.example/x") = Some (Refused SecurityError).
Proof. by vm_compute. Qed.

Example resolve_reference_same_host :
  resolve_reference
    (Loc (js "https:") (js "h.io") [] (js "//") (js "?p=/h.io/x") [])
    (js "//h.io/x") =
  Some (Shown (Loc (js "https:") (js "h.io") [] (js "/x") [] [])).
Proof. by vm_compute. Qed.

End parse.

(** ** The parser satisfies the laws of the interface *)

Section model.
Implicit Types (l base : location) (a r : str) (c : ascii).

Lemma wf_origin_origin l base :
  origin l = origin base → wf_origin l = wf_origin base.
Proof. intros [= HP Hh Hpo]. unfold wf_origin. by rewrite HP, Hh, Hpo. Qed.

Lemma wf_url_at_origin base l :
  wf_url base = true → exposable l = true → wf_url (at_origin base l) = true.
Proof.
  intros [_ Ho]%wf_url_exposable Hl. apply wf_url_exposable. split; [|exact Ho].
  apply exposable_spec in Hl. by apply exposable_spec.
Qed.

(** A reference that starts with ["//"], resolved: host and port are read
    from the segment behind it. *)
Lemma resolve_reference_authority base l r :
  wf_url base = true → exposable l = true → pathname l = js "//" ++ r →
  truthy (cut ":" (cut "/" r).1).1 = true →
  resolve_reference base (path_query_fragment l) =
  Some (if decide ((cut ":" (cut "/" r).1).1 = hostname base ∧
                   (cut ":" (cut "/" r).1).2 = port base)
        then Shown (Loc (protocol base) (hostname base) (port base)
                        (path_or_root (drop (length (cut "/" r).1) r))
                        (search l) (hash l))
        else Refused SecurityError).
Proof.
  intros Hb Hl Hp Hh. pose proof Hl as (_ & _ & _ & Hdot)%exposable_spec.
  rewrite Hp in Hdot. apply has_dot_segment_after_authority in Hdot.
  change (path_query_fragment l) with (path_query_fragment (at_origin base l)).
  rewrite (resolve_reference_scheme_relative _ _ r)
    by auto using wf_url_at_origin.
  cbv zeta. by rewrite Hdot, Hh.
Qed.

#[export] Instance url_model_ok : HistoryApiOk url_model.
Proof.
  split; cbn [exposed navigate replace_url url_model].
  - by intros l [? _]%wf_url_exposable.
  - apply wf_url_at_origin.
  - apply parse_href_wf.
  - intros base l (_ & Hb & _)%wf_url_spec Ho%wf_origin_origin Hwf Hc Hdot.
    rewrite Hb in Ho. by apply parse_href_encodes.
  - apply resolve_reference_wf.
  - apply resolve_reference_origin.
  - intros base l _ (Hwf & _ & Hq & Hdot)%exposable_spec Hss.
    by rewrite resolve_reference_path, Hdot.
  - intros base l r Hb Hl Hp Ha.
    pose proof Hb as (_ & (_ & Hh & (Hc & _)%delimiter_free_spec & _)%wf_origin_spec
                      & _)%wf_url_spec.
    assert (Hcut : cut ":" (cut "/" r).1 = (hostname base, port base))
      by (rewrite Ha; by apply cut_authority).
    rewrite (resolve_reference_authority _ _ r), Hcut, Ha
      by (rewrite ?Hcut; by try apply truthy_length).
    by rewrite decide_True.
  - intros base l r Hb Hl Hp [Hne Hc]%plain_host_spec Ha.
    assert (Hcut : cut ":" (cut "/" r).1 = ((cut "/" r).1, []))
      by by apply cut_no_sep.
    rewrite (resolve_reference_authority _ _ r), Hcut
      by (rewrite ?Hcut; by try apply truthy_length).
    rewrite decide_False; [done|]. by intros [? _].
Qed.

End model.

End Browser.
