(* ===== verification/Ghspa.v ===== *)
(** * Ghspa: the script [src/ghspa.js]

    The immediately-invoked function of the source, one definition per
    statement group: the repository prefix (line 22), [redirect] (lines
    25-37), [resolve] (lines 40-58), the dispatch on the document title
    (line 61) and the arguments of the call (line 62).  The two browser
    calls the script makes are values of [effect]; a page load performs at
    most one.  [redirect] and [resolve] are closures over [l] and [repo] in
    the source and take both as arguments here; [main] passes them the
    prefix computed from the same [l].  [resolve] is proved to refine its
    contract ([resolve_spec]); through [ghspa] the script is proved to
    depend, on a document other than the fallback document, on the first
    path segment, the entries [p] and [q] of the query string ([payload])
    and the fragment only. *)

From stdpp Require Import gmap.
From S2P Require Import Prelude JsString Escape Query Location.

Module Ghspa.
Import JsString Escape Query Location.

(** ** Definitions *)

(** The values [window.projectPages] may hold, as far as ToBoolean tells
    them apart.  Numbers are integers here (no [NaN]). *)
Inductive jsval :=
  | JUndefined
  | JNull
  | JBool (b : bool)
  | JNumber (n : Z)
  | JString (s : str)
  | JObject.

(** ToBoolean. *)
Definition to_boolean (v : jsval) : bool :=
  match v with
  | JUndefined | JNull => false
  | JBool b => b
  | JNumber n => negb (bool_decide (n = 0%Z))
  | JString s => truthy s
  | JObject => true
  end.

(** [a || b]: the first operand when it is truthy, else the second. *)
Definition js_or (a b : jsval) : jsval := if to_boolean a then a else b.

(** [a || b] on strings ([q.p || ''] on line 54). *)
Definition or_str (a b : str) : str := if truthy a then a else b.

(** What a page load does to the browser. *)
Inductive effect :=
  | LocationReplace (url : str)   (* l.replace(url): navigate, same history entry *)
  | ReplaceState (url : str).     (* history.replaceState(null, null, url): no load *)

(** The URL an effect carries. *)
Definition effect_url (e : effect) : str :=
  match e with
  | LocationReplace u | ReplaceState u => u
  end.

(** Line 22: [projectPages ? '/' + l.pathname.split('/')[1] : '']. *)
Definition repo (l : location) (projectPages : jsval) : str :=
  if to_boolean projectPages
  then js "/" ++ to_string (index 1 (split "/" (pathname l)))
  else [].

(** Lines 25-37: the URL given to [l.replace]. *)
Definition redirect (l : location) (repo : str) : effect :=
  LocationReplace
    (protocol l ++
     js "//" ++
     hostname l ++
     (if truthy (port l) then js ":" ++ port l else []) ++
     repo ++
     js "/?" ++
     (if truthy (pathname l)
      then js "p=" ++ replace_first repo [] (escape (pathname l)) else []) ++
     (if truthy (search l)
      then js "&q=" ++ escape (slice 1 (search l)) else []) ++
     hash l).

(** Lines 40-58: nothing without a query string or without the key [p];
    otherwise the URL given to [history.replaceState].  In the source
    [resolve] and [redirect] are closures over [l] and [repo]; here the two
    variables are parameters, and [main] passes the prefix it has computed
    from the same [l], as line 22 does.  What the script does is therefore
    stated on [main] and [ghspa]; a theorem on [resolve l repo] holds for
    every prefix, the one of the script included. *)
Definition resolve (l : location) (repo : str) : option effect :=
  if truthy (search l) then
    let q := parse_query (search l) in
    match q !! js "p" with
    | Some p =>
        Some (ReplaceState
                (repo ++
                 or_str p [] ++
                 match q !! js "q" with
                 | Some x => if truthy x then js "?" ++ x else []
                 | None => []
                 end ++
                 hash l))
    | None => None
    end
  else None.

(** Lines 21-61: the body of the function, for the document title, the
    location and the flag it is called with. *)
Definition main (title : str) (l : location) (projectPages : jsval) : option effect :=
  let repo := repo l projectPages in
  if decide (title = js "404") then Some (redirect l repo) else resolve l repo.

(** Line 62: the call, with [window.projectPages || true] as the flag. *)
Definition ghspa (title : str) (l : location) (window_projectPages : jsval) : option effect :=
  main title l (js_or window_projectPages (JBool true)).

(** ** The contract of [resolve]

    The steps of the specification, over the association list of the
    entries: nothing for an empty query string; nothing when no entry has
    the key [p]; otherwise the prefix, the last [p], ["?"] and the last [q]
    when it is present and not empty, and the fragment. *)
Definition resolve_spec (l : location) (repo : str) : option effect :=
  if decide (search l = []) then None
  else
    let es := entry <$> split "&" (slice 1 (search l)) in
    p ← last_value (js "p") es;
    Some (ReplaceState
            (repo ++ p ++
             match last_value (js "q") es with
             | Some (c :: x) => js "?" ++ c :: x
             | _ => []
             end ++
             hash l)).

(** The payload of a query string: its entries with the reserved keys
    [p] and [q], in their order. *)
Definition payload (search : str) : list (str * str) :=
  filter (λ e, e.1 = js "p" ∨ e.1 = js "q")
         (entry <$> split "&" (slice 1 search)).

(** ** Decidable equality *)

#[export] Instance jsval_eq_dec : EqDecision jsval.
Proof. solve_decision. Defined.

#[export] Instance effect_eq_dec : EqDecision effect.
Proof. solve_decision. Defined.

(** ** Facts *)

Section facts.
Implicit Types (l : location) (r s : str) (pp w : jsval).

Lemma or_str_nil s : or_str s [] = s.
Proof. by destruct s. Qed.

Lemma to_boolean_js_or w : to_boolean (js_or w (JBool true)) = true.
Proof. unfold js_or. by destruct (to_boolean w) eqn:E. Qed.

(** The call passes a truthy flag whatever the page has set. *)
Lemma ghspa_any_flag title l w w' : ghspa title l w = ghspa title l w'.
Proof. unfold ghspa, main, repo. by rewrite !to_boolean_js_or. Qed.

Lemma repo_off l pp : to_boolean pp = false → repo l pp = [].
Proof. unfold repo. by intros ->. Qed.

(** With the flag on and a path that starts with ["/"], the prefix is
    ["/"] and the first segment. *)
Lemma repo_of_path l pp s :
  pathname l = "/"%char :: s → to_boolean pp = true →
  repo l pp = "/"%char :: (cut "/" s).1.
Proof.
  intros Hp Hb. unfold repo. rewrite Hb, Hp, split_cons_sep.
  change (index 1 ([] :: ?x)) with (index 0 x).
  by destruct (split_cut "/" s) as [-> _].
Qed.

Lemma repo_on l pp :
  wf l = true → to_boolean pp = true → repo l pp = "/"%char :: first_segment l.
Proof. intros Hp%wf_pathname Hb. by apply repo_of_path. Qed.

Lemma resolve_is_replace_state l r e :
  resolve l r = Some e → ∃ u, e = ReplaceState u ∧ hash l `suffix_of` u.
Proof.
  unfold resolve. destruct (truthy (search l)); [|done]. cbv zeta.
  destruct (parse_query (search l) !! js "p"); [|done]. intros [= <-].
  eexists. split; [done|]. rewrite !app_assoc. by apply suffix_app_r.
Qed.

(** [resolve] through the payload: the last [p] and the last [q] of the
    payload decide what it does, for every query string, the empty one
    included. *)
Lemma resolve_of_payload l r :
  resolve l r =
  p ← last_value (js "p") (payload (search l));
  Some (ReplaceState
          (r ++ p ++
           match last_value (js "q") (payload (search l)) with
           | Some (c :: x) => js "?" ++ c :: x
           | _ => []
           end ++
           hash l)).
Proof.
  unfold resolve, payload. destruct (search l) as [|c s]; [done|].
  simpl truthy. cbv zeta. rewrite !parse_query_lookup by by_compute.
  rewrite !last_value_filter by (intros kv ->; auto).
  destruct (last_value (js "p") _) as [p|]; [|done]. cbn [mbind option_bind].
  rewrite or_str_nil.
  by destruct (last_value (js "q") (entry <$> _)) as [[|]|].
Qed.

Lemma redirect_is_replace l r :
  ∃ u, redirect l r = LocationReplace u ∧ hash l `suffix_of` u.
Proof.
  unfold redirect. eexists. split; [done|].
  rewrite !app_assoc. by apply suffix_app_r.
Qed.

End facts.

#[export] Hint Resolve to_boolean_js_or : js.

(** ** Properties of the script *)

Section properties.
Implicit Types (l : location) (r s title : str) (pp w : jsval) (e : effect).

(** C5: [resolve] implements its contract: it returns what the steps of
    the specification give on the entries of the query string, with the
    last [p] and the last [q] as the values of the two keys. *)
Theorem resolve_refines_spec l r : resolve l r = resolve_spec l r.
Proof.
  unfold resolve, resolve_spec. destruct (search l) as [|c s] eqn:E; [done|].
  simpl truthy. rewrite decide_False by done. cbv zeta.
  rewrite !parse_query_lookup by by_compute.
  destruct (last_value (js "p") _) as [p|]; [|done]. cbn [mbind option_bind].
  rewrite or_str_nil.
  by destruct (last_value (js "q") (entry <$> _)) as [[|]|].
Qed.

(** C22: [resolve] leaves the URL alone exactly when the query string is
    empty or none of its entries has the key [p]. *)
Theorem resolve_noop_iff l r :
  resolve l r = None ↔
  search l = [] ∨
  Forall (λ v, (entry v).1 ≠ js "p") (split "&" (slice 1 (search l))).
Proof.
  unfold resolve. destruct (search l) as [|c s] eqn:E; [by split; [left|]|].
  simpl truthy. cbv zeta. rewrite parse_query_lookup by by_compute.
  rewrite <- last_value_entries_None.
  destruct (last_value (js "p") _); split; try done; [by intros [|]|by right].
Qed.

(** C23: on a document other than the fallback document the script reads
    the first path segment, the payload and the fragment, and nothing
    else.  On two well-formed locations with the same first path segment,
    the same entries for the keys [p] and [q], in the same order, and the
    same fragment, the script hands the same URL to
    [history.replaceState], or does nothing on both, whatever the flag
    holds.  The prefix is computed from each location, as on line 22.
    The rest of the path, the origin and every other key of the query
    string have no influence: the other keys are dropped from the visible
    URL, and a query string without the two keys is as good as none. *)
Theorem ghspa_reads_payload title l l' w :
  title ≠ js "404" → wf l = true → wf l' = true →
  first_segment l = first_segment l' →
  payload (search l) = payload (search l') → hash l = hash l' →
  ghspa title l w = ghspa title l' w.
Proof.
  intros Ht Hwf Hwf' Hseg Hp Hh. unfold ghspa, main.
  rewrite !decide_False by done. cbv zeta.
  rewrite !repo_on, !resolve_of_payload by auto using to_boolean_js_or.
  by rewrite Hseg, Hp, Hh.
Qed.

Lemma ghspa_reads_payload_witness :
  let l := Loc (js "https:") (js "h.io") [] (js "/my-repo/")
               (js "?utm=1&p=/a&x&q=b=1") (js "#top") in
  let l' := Loc (js "http:") (js "localhost") (js "8080") (js "/my-repo/other/page")
                (js "?p=/a&q=b=1&z=9") (js "#top") in
  ghspa (js "home") l JUndefined = ghspa (js "home") l' JUndefined.
Proof.
  intros l l'. apply (ghspa_reads_payload (js "home") l l' JUndefined); by vm_compute.
Defined.

(** C9: the flag cannot be turned off: whatever [window.projectPages]
    holds, the script runs as with [projectPages = true]. *)
Theorem ghspa_flag_ignored title l w : ghspa title l w = main title l (JBool true).
Proof.
  unfold ghspa, main, repo. by rewrite to_boolean_js_or.
Qed.

(** C24: the script navigates exactly on the document titled ["404"], and
    then to the URL [redirect] builds; on every other document it never
    navigates. *)
Theorem main_navigates_iff title l pp u :
  main title l pp = Some (LocationReplace u) ↔
  title = js "404" ∧ redirect l (repo l pp) = LocationReplace u.
Proof.
  unfold main. case_decide as Ht;
    [split; [intros E; split; congruence|intros [_ E]; congruence]|].
  split; [|by intros [? _]].
  by intros (u' & ? & _)%resolve_is_replace_state.
Qed.

(** C25: whatever the script does, the URL it hands to the browser ends
    with the fragment of the current location, unchanged. *)
Theorem main_keeps_fragment title l pp e :
  main title l pp = Some e → hash l `suffix_of` effect_url e.
Proof.
  unfold main. case_decide.
  - intros [= <-]. by destruct (redirect_is_replace l (repo l pp)) as (u & -> & ?).
  - by intros (u & -> & ?)%resolve_is_replace_state.
Qed.

Lemma main_keeps_fragment_witness :
  let l := Loc (js "https:") (js "user.github.io") [] (js "/my-repo/")
               (js "?p=/docs/intro&q=x=1") (js "#section2") in
  js "#section2" `suffix_of` js "/my-repo/docs/intro?x=1#section2".
Proof.
  intros l.
  apply (main_keeps_fragment (js "home") l (JBool true)
           (ReplaceState (js "/my-repo/docs/intro?x=1#section2"))).
  by vm_compute.
Defined.

(** C33: a path without ["/"] (the document of a URL that is not
    hierarchical, such as [about:blank]) splits into one piece, element 1
    is [undefined], and the prefix is ["/undefined"]. *)
Theorem repo_no_slash l pp :
  to_boolean pp = true → "/"%char ∉ pathname l → repo l pp = js "/undefined".
Proof. intros Hb Hp. unfold repo. by rewrite Hb, split_no_sep. Qed.

Lemma repo_no_slash_witness :
  repo (Loc (js "about:") [] [] (js "blank") [] []) (JBool true) = js "/undefined".
Proof.
  apply (repo_no_slash (Loc (js "about:") [] [] (js "blank") [] []) (JBool true));
    [done|by_compute].
Defined.

End properties.

End Ghspa.
