(* ===== verification/Roundtrip.v ===== *)
(** * Roundtrip: [redirect] on the fallback document, then [resolve] on the
    real document

    The navigation [redirect] asks for loads the real document at the
    location [landing]; the script runs again there and takes the
    [resolve] branch.  This file proves that the URL [resolve] then shows
    is the one originally requested, under the exact conditions on the path
    and the query, what is shown instead when the first path segment
    contains ["&"], and what is shown, for every request, when the browser
    has percent-encoded the query of the landing URL ([shown_encoded]).
    The two functions agree on the wire format: the parser of [resolve]
    reads from the query string [redirect] writes the keys [p] and [q]
    and nothing else ([wire_format]). *)

From stdpp Require Import gmap.
From S2P Require Import Prelude JsString Escape Query Location Url Ghspa.

Module Roundtrip.
Import JsString Escape Query Location Url Ghspa.

(** ** Definitions *)

(** The URL of lines 27-35 by its components: the location of the document
    loaded by [redirect l repo].  Origin and fragment are those of [l]
    (lines 27-30 and 35), the path is [repo/] (lines 31-32), and the query
    string is what lines 32-34 write behind ["?"]: the expressions are
    those of [redirect], grouped as the URL standard cuts the string.
    [redirect l repo] is the serialisation of this location
    ([redirect_lands_eq]). *)
Definition landing (l : location) (repo : str) : location :=
  {| protocol := protocol l;
     hostname := hostname l;
     port := port l;
     pathname := repo ++ js "/";
     search :=
       js "?" ++
       (if truthy (pathname l)
        then js "p=" ++ replace_first repo [] (escape (pathname l)) else []) ++
       (if truthy (search l)
        then js "&q=" ++ escape (slice 1 (search l)) else []);
     hash := hash l |}.

(** The location [resolve] shows on the document at [landing], when the
    prefix is ["/"] and the first segment: the path and the query of [l]
    escaped and unescaped again, behind the prefix. *)
Definition shown (l : location) : location :=
  {| protocol := protocol l;
     hostname := hostname l;
     port := port l;
     pathname :=
       ("/"%char :: first_segment l) ++ unescape (escape (after_first_segment l));
     search := lead "?" (unescape (escape (slice 1 (search l))));
     hash := hash l |}.

(** The part of the path [redirect] sends in [p] when the prefix is
    ["/"] and the first segment: the path behind the prefix, or the whole
    path when the first segment holds a ["&"], since the prefix is
    searched for in the escaped path, where it does not occur then. *)
Definition carried_path (l : location) : str :=
  if decide (amp ∈ first_segment l) then pathname l else after_first_segment l.

(** The location [resolve] shows on the document at [landing] as the
    browser exposes it, with the query percent-encoded: the path sent in
    [p] has come through that query, so its apostrophes are encoded. *)
Definition shown_encoded (l : location) : location :=
  {| protocol := protocol l;
     hostname := hostname l;
     port := port l;
     pathname :=
       ("/"%char :: first_segment l) ++
       encode_query (unescape (escape (carried_path l)));
     search := lead "?" (unescape (escape (slice 1 (search l))));
     hash := hash l |}.

(** The landing location of a request: the location of the document
    loaded by the navigation of [redirect] with the flag on, as the browser
    exposes it. *)
Definition landing_of (l : location) : location :=
  encoded (landing l ("/"%char :: first_segment l)).

(** ** Lemmas against the escaping interface *)

Section escaping.
Context (esc unesc : str → str) `{!Escaping amp esc unesc}.
Implicit Types (r s rest : str).

(** Stripping the prefix after escaping gives the escaped rest, provided
    the prefix itself needs no escaping. *)
Lemma strip_escaped_prefix r rest :
  amp ∉ r → replace_first r [] (esc (r ++ rest)) = esc rest.
Proof.
  intros Hr. rewrite (esc_app (esc:=esc)), (esc_id (esc:=esc) r) by done.
  apply replace_first_prefix.
Qed.

(** A prefix that needs escaping is not found in the escaped path. *)
Lemma escaped_prefix_not_found r s :
  amp ∈ r → replace_first r [] (esc s) = esc s.
Proof.
  intros Hr. apply replace_first_absent. intros (pre & post & E).
  apply (esc_sep_free (esc:=esc) s). rewrite E, !elem_of_app. auto.
Qed.

(** The value of [p] never contains the separator. *)
Lemma wire_path_amp_free r s : amp ∉ replace_first r [] (esc s).
Proof. apply replace_first_nil_notin, (esc_sep_free (esc:=esc)). Qed.

End escaping.

(** ** The landing location *)

Section landing.
Implicit Types (l : location) (r s t : str) (pp : jsval).

Lemma landing_search l r :
  pathname l ≠ [] →
  search (landing l r) =
  js "?p=" ++ replace_first r [] (escape (pathname l)) ++
  (if truthy (search l) then js "&q=" ++ escape (slice 1 (search l)) else []).
Proof. intros Hp%truthy_length. simpl. by rewrite Hp. Qed.

(** The prefix computed on the real document is the prefix that was
    computed on the fallback document. *)
Lemma repo_landing l pp :
  wf l = true → repo (landing l (repo l pp)) pp = repo l pp.
Proof.
  intros Hwf. destruct (to_boolean pp) eqn:Hb; [|by rewrite !repo_off].
  rewrite (repo_on l pp) by done.
  rewrite (repo_of_path _ pp (first_segment l ++ js "/")) by done.
  change (js "/") with ["/"%char]. by rewrite cut_app by auto with js.
Qed.

(** What [resolve] shows on a location whose query string carries the
    wire values [X] and, when [b] holds, [Y]. *)
Lemma resolve_wire l r X Y (b : bool) :
  amp ∉ X → amp ∉ Y →
  search l = js "?p=" ++ X ++ (if b then js "&q=" ++ Y else []) →
  resolve l r =
  Some (ReplaceState
          (r ++ unescape X ++
           (if b && truthy (unescape Y) then js "?" ++ unescape Y else []) ++
           hash l)).
Proof.
  intros HX HY Hs. unfold resolve. rewrite Hs. cbn [truthy app js]. cbv zeta.
  destruct b.
  - rewrite parse_query_pq by done.
    rewrite lookup_insert_ne, !lookup_insert_eq by by_compute.
    by rewrite or_str_nil.
  - rewrite app_nil_r, parse_query_p by done.
    rewrite lookup_insert_eq, lookup_insert_ne, lookup_empty by by_compute.
    by rewrite or_str_nil.
Qed.

(** What [resolve] shows on the landing location, for any path and query. *)
Lemma resolve_landing l r r' :
  pathname l ≠ [] →
  resolve (landing l r) r' =
  Some (ReplaceState
          (r' ++ unescape (replace_first r [] (escape (pathname l))) ++
           (if truthy (search l) && truthy (unescape (escape (slice 1 (search l))))
            then js "?" ++ unescape (escape (slice 1 (search l))) else []) ++
           hash l)).
Proof.
  intros Hp. apply (resolve_wire (landing l r)); auto using landing_search with js.
  apply (wire_path_amp_free escape unescape).
Qed.

(** The prefix is a prefix of the path. *)
Lemma repo_prefix l pp :
  wf l = true → pathname l = repo l pp ++ drop (length (repo l pp)) (pathname l).
Proof.
  intros Hwf. destruct (to_boolean pp) eqn:Hb; [|by rewrite repo_off].
  rewrite repo_on by done. by rewrite (wf_pathname_split l) at 1.
Qed.

(** [search] is its query behind ["?"]. *)
Lemma lead_slice_search l : wf l = true → lead "?" (slice 1 (search l)) = search l.
Proof. intros (_ & _ & _ & Hs & _)%wf_spec. by apply lead_drop. Qed.

(** A safe query comes back as the original [search]. *)
Lemma query_restored l :
  wf l = true → safe escape unescape (slice 1 (search l)) →
  (if truthy (search l) && truthy (unescape (escape (slice 1 (search l))))
   then js "?" ++ unescape (escape (slice 1 (search l))) else []) = search l.
Proof.
  intros Hwf Hs. unfold safe in Hs. rewrite !Hs.
  destruct (wf_search l Hwf) as [E|(t & E & Ht%truthy_length)]; rewrite E; [done|].
  simpl. by rewrite Ht.
Qed.

(** The query [resolve] shows is the unescaped query behind ["?"], or
    nothing. *)
Lemma query_shown l :
  (if truthy (search l) && truthy (unescape (escape (slice 1 (search l))))
   then js "?" ++ unescape (escape (slice 1 (search l))) else []) =
  lead "?" (unescape (escape (slice 1 (search l)))).
Proof. by destruct (search l). Qed.

(** The second load, when the prefix needs no escaping. *)
Lemma resolve_landing_restores l pp :
  wf l = true → amp ∉ repo l pp →
  safe escape unescape (drop (length (repo l pp)) (pathname l)) →
  safe escape unescape (slice 1 (search l)) →
  resolve (landing l (repo l pp)) (repo l pp) =
  Some (ReplaceState (path_query_fragment l)).
Proof.
  intros Hwf Hr Hp Hq. rewrite resolve_landing
    by (rewrite wf_pathname by done; done).
  rewrite query_restored by done. unfold path_query_fragment.
  assert (Hpath := repo_prefix l pp Hwf).
  set (rest := drop _ (pathname l)) in *. rewrite Hpath.
  rewrite (strip_escaped_prefix escape unescape) by done.
  by rewrite Hp, <- app_assoc.
Qed.

End landing.

(** ** The round trip *)

Section roundtrip.
Implicit Types (l : location) (r s t title : str) (pp w : jsval).

Lemma redirect_lands_eq l r : redirect l r = LocationReplace (href (landing l r)).
Proof.
  unfold redirect, href, landing. cbn [protocol hostname port pathname search hash].
  f_equal. by rewrite <- !app_assoc.
Qed.

(** On the fallback document the script navigates to the landing location
    under the first path segment, whatever [window.projectPages] holds. *)
Lemma ghspa_fallback l w :
  wf l = true →
  ghspa (js "404") l w =
  Some (LocationReplace (href (landing l ("/"%char :: first_segment l)))).
Proof.
  intros Hwf. unfold ghspa, main. rewrite decide_True by done.
  by rewrite repo_on, redirect_lands_eq by auto with js.
Qed.

(** With the flag on, the value of [p] is the escaped rest of the path. *)
Lemma wire_path l pp :
  wf l = true → to_boolean pp = true → amp ∉ first_segment l →
  replace_first (repo l pp) [] (escape (pathname l)) =
  escape (after_first_segment l).
Proof.
  intros Hwf Hb Hseg. rewrite repo_on by done.
  assert (Hpath := wf_pathname_split l Hwf).
  set (seg := first_segment l) in *. set (rest := after_first_segment l) in *.
  rewrite Hpath.
  change ("/"%char :: seg ++ rest) with (("/"%char :: seg) ++ rest).
  apply (strip_escaped_prefix escape unescape).
  rewrite not_elem_of_cons; split; [by_compute|done].
Qed.

(** On the document loaded there the script shows [shown l]. *)
Lemma ghspa_landing_shown title l w :
  title ≠ js "404" → wf l = true → amp ∉ first_segment l →
  ghspa title (landing l ("/"%char :: first_segment l)) w =
  Some (ReplaceState (path_query_fragment (shown l))).
Proof.
  intros Ht Hwf Hseg. unfold ghspa, main. rewrite decide_False by done.
  assert (Hr : repo l (js_or w (JBool true)) = "/"%char :: first_segment l)
    by by rewrite repo_on by auto with js.
  rewrite <- Hr, repo_landing by done.
  rewrite resolve_landing by (rewrite wf_pathname by done; done).
  rewrite wire_path, query_shown, Hr by auto with js.
  unfold path_query_fragment, shown. cbn [pathname search hash].
  by rewrite <- app_assoc.
Qed.

(** [shown l] is [l] exactly when the rest of the path and the query
    survive the escaping. *)
Lemma shown_safe l :
  wf l = true →
  shown l = l ↔
  safe escape unescape (after_first_segment l) ∧
  safe escape unescape (slice 1 (search l)).
Proof.
  intros Hwf. pose proof (lead_slice_search l Hwf) as Hs.
  pose proof (wf_pathname_split l Hwf) as Hp. unfold safe, shown.
  set (seg := first_segment l) in *. set (rest := after_first_segment l) in *.
  set (query := slice 1 (search l)) in *. split.
  - intros E. split.
    + apply (f_equal pathname) in E. cbn [pathname] in E.
      rewrite Hp in E. by simplify_list_eq.
    + apply (f_equal search) in E. cbn [search] in E.
      rewrite <- Hs in E. by apply lead_inj in E.
  - intros [-> ->]. rewrite Hs. cbn [app]. rewrite <- Hp. by destruct l.
Qed.

(** On the document loaded there the script shows the requested URL. *)
Lemma ghspa_landing title l w :
  title ≠ js "404" → wf l = true →
  amp ∉ first_segment l →
  safe escape unescape (after_first_segment l) →
  safe escape unescape (slice 1 (search l)) →
  ghspa title (landing l ("/"%char :: first_segment l)) w =
  Some (ReplaceState (path_query_fragment l)).
Proof.
  intros Ht Hwf Hseg Hp Hq. rewrite ghspa_landing_shown by done.
  by rewrite (proj2 (shown_safe l Hwf)).
Qed.

(** C3: the round trip through the entry point.  A request for a
    well-formed location whose first path segment has no ["&"] and whose
    remaining path and query survive the escaping: on the fallback document
    the script navigates to the landing location, and on the real document
    loaded there it rewrites the visible URL to the path, query and fragment
    originally requested, whatever [window.projectPages] holds on either
    load. *)
Theorem ghspa_roundtrip title l w w' :
  title ≠ js "404" → wf l = true →
  amp ∉ first_segment l →
  safe escape unescape (after_first_segment l) →
  safe escape unescape (slice 1 (search l)) →
  let l' := landing l ("/"%char :: first_segment l) in
  ghspa (js "404") l w = Some (LocationReplace (href l')) ∧
  ghspa title l' w' = Some (ReplaceState (path_query_fragment l)).
Proof. intros. split; [by apply ghspa_fallback|by apply ghspa_landing]. Qed.

Lemma ghspa_roundtrip_witness :
  let l := Loc (js "https:") (js "user.github.io") [] (js "/my-repo/docs/intro")
               (js "?x=1&y=2") (js "#top") in
  ghspa (js "404") l JUndefined =
    Some (LocationReplace
            (js "https://user.github.io/my-repo/?p=/docs/intro&q=x=1~and~y=2#top")) ∧
  ghspa (js "Home") (landing l (js "/my-repo")) (JBool false) =
    Some (ReplaceState (js "/my-repo/docs/intro?x=1&y=2#top")).
Proof.
  intros l.
  apply (ghspa_roundtrip (js "Home") l JUndefined (JBool false));
    solve [by_compute | by vm_compute].
Defined.

(** C20: the wire format.  The query string [redirect] writes is read by
    the parser of [resolve] as exactly what was written: the object has
    the key [p] with the decoded value of the path as it was sent, the key
    [q] with the decoded query when the request had a query string, and
    no other key, for every path, every query and every prefix.  A
    ["&"] or an ["="] of the request makes no entry and cuts no value:
    the first is escaped in both values, the second is rejoined by the
    parser. *)
Theorem wire_format l r :
  pathname l ≠ [] →
  redirect l r = LocationReplace (href (landing l r)) ∧
  parse_query (search (landing l r)) =
    if truthy (search l)
    then {[ js "q" := unescape (escape (slice 1 (search l)));
            js "p" := unescape (replace_first r [] (escape (pathname l))) ]}
    else {[ js "p" := unescape (replace_first r [] (escape (pathname l))) ]}.
Proof.
  intros Hp. split; [apply redirect_lands_eq|]. rewrite landing_search by done.
  pose proof (wire_path_amp_free escape unescape r (pathname l)).
  destruct (truthy (search l)).
  - by rewrite parse_query_pq, insert_empty by auto with js.
  - by rewrite app_nil_r, parse_query_p, insert_empty.
Qed.

Lemma wire_format_witness :
  let l := Loc (js "https:") (js "user.github.io") [] (js "/my-repo/a=b&c")
               (js "?x=1&y=2") (js "#top") in
  redirect l (js "/my-repo") =
    LocationReplace (href (landing l (js "/my-repo"))) ∧
  parse_query (js "?p=/a=b~and~c&q=x=1~and~y=2") =
    {[ js "q" := js "x=1&y=2"; js "p" := js "/a=b&c" ]}.
Proof.
  intros l. apply (wire_format l (js "/my-repo")). by vm_compute.
Defined.

(** C21: the format of the redirect URL with the flag on: origin, ["/"] and
    the first path segment, ["/?p="] and the escaped rest of the path,
    ["&q="] and the escaped query when there is one, and the fragment; the
    document loaded there has the path ["/"], first segment, ["/"], and the
    part from ["?"] to the fragment as its query string. *)
Theorem redirect_url_format l pp :
  wf l = true → to_boolean pp = true → amp ∉ first_segment l →
  let query :=
    js "p=" ++ escape (after_first_segment l) ++
    (if truthy (search l) then js "&q=" ++ escape (slice 1 (search l)) else []) in
  redirect l (repo l pp) =
  LocationReplace
    (protocol l ++ js "//" ++ hostname l ++
     (if truthy (port l) then js ":" ++ port l else []) ++
     js "/" ++ first_segment l ++ js "/?" ++ query ++ hash l) ∧
  pathname (landing l (repo l pp)) = js "/" ++ first_segment l ++ js "/" ∧
  search (landing l (repo l pp)) = js "?" ++ query.
Proof.
  intros Hwf Hb Hseg query. subst query.
  assert (Hp : truthy (pathname l) = true) by by rewrite (wf_pathname l Hwf).
  unfold redirect. cbn [landing pathname search]. rewrite Hp, wire_path by done.
  rewrite repo_on by done. by rewrite <- ?app_assoc.
Qed.

Lemma redirect_url_format_witness :
  let l := Loc (js "http:") (js "localhost") (js "4000") (js "/repo/a&b") [] (js "#x") in
  redirect l (js "/repo") =
  LocationReplace (js "http://localhost:4000/repo/?p=/a~and~b#x") ∧
  pathname (landing l (js "/repo")) = js "/repo/" ∧
  search (landing l (js "/repo")) = js "?p=/a~and~b".
Proof.
  intros l.
  apply (redirect_url_format
           (Loc (js "http:") (js "localhost") (js "4000") (js "/repo/a&b") [] (js "#x"))
           (JBool true)); solve [by_compute | by vm_compute].
Defined.

(** On the document at the landing location of a request whose first
    segment contains ["&"], the script shows the prefix followed by the
    whole path. *)
Lemma main_landing_amp title l pp :
  title ≠ js "404" → wf l = true → to_boolean pp = true →
  amp ∈ first_segment l →
  safe escape unescape (pathname l) →
  safe escape unescape (slice 1 (search l)) →
  main title (landing l (repo l pp)) pp =
  Some (ReplaceState (repo l pp ++ path_query_fragment l)).
Proof.
  intros Ht Hwf Hb Hseg Hp Hq. unfold main. rewrite decide_False by done.
  rewrite repo_landing by done.
  rewrite resolve_landing by (rewrite wf_pathname by done; done).
  rewrite query_restored by done.
  rewrite (escaped_prefix_not_found escape unescape), Hp; [done|].
  rewrite repo_on by done. by apply list_elem_of_further.
Qed.

(** C8: a first path segment that contains ["&"] is not stripped by
    [redirect], because the prefix is searched in the escaped path, and is
    prepended again by [resolve]: the visible URL after the round trip is
    the prefix followed by the whole original path.  Stated for both
    loads: the navigation of the fallback document to the landing location
    and the history update of the document loaded there. *)
Theorem amp_in_first_segment_duplicates title l pp :
  title ≠ js "404" → wf l = true → to_boolean pp = true →
  amp ∈ first_segment l →
  safe escape unescape (pathname l) →
  safe escape unescape (slice 1 (search l)) →
  let l' := landing l (repo l pp) in
  main (js "404") l pp = Some (LocationReplace (href l')) ∧
  main title l' pp = Some (ReplaceState (repo l pp ++ path_query_fragment l)).
Proof.
  intros Ht Hwf Hb Hseg Hp Hq l'. split; [|by apply main_landing_amp].
  unfold main. by rewrite decide_True, redirect_lands_eq.
Qed.

Lemma amp_in_first_segment_duplicates_witness :
  let l := Loc (js "https:") (js "h.io") [] (js "/a&b/c") [] [] in
  main (js "404") l (JBool true) =
    Some (LocationReplace (js "https://h.io/a&b/?p=/a~and~b/c")) ∧
  main (js "Home") (landing l (js "/a&b")) (JBool true) =
    Some (ReplaceState (js "/a&b/a&b/c")).
Proof.
  intros l.
  apply (amp_in_first_segment_duplicates (js "Home") l (JBool true));
    solve [by_compute | by vm_compute].
Defined.

(** C31: with a falsy flag [main] uses the empty prefix, and the round trip
    restores every well-formed location whose path and query survive the
    escaping. *)
Theorem main_roundtrip_flag_off title l pp :
  title ≠ js "404" → wf l = true → to_boolean pp = false →
  safe escape unescape (pathname l) →
  safe escape unescape (slice 1 (search l)) →
  let l' := landing l [] in
  main (js "404") l pp = Some (LocationReplace (href l')) ∧
  main title l' pp = Some (ReplaceState (path_query_fragment l)).
Proof.
  intros Ht Hwf Hb Hp Hq l'. subst l'. rewrite <- (repo_off l pp Hb).
  unfold main. rewrite decide_True, decide_False by done.
  split; [by rewrite redirect_lands_eq|].
  rewrite repo_landing by done.
  apply resolve_landing_restores; rewrite ?repo_off; try done.
  apply not_elem_of_nil.
Qed.

Lemma main_roundtrip_flag_off_witness :
  let l := Loc (js "https:") (js "u.io") [] (js "/about") (js "?a=1") [] in
  main (js "404") l (JBool false) =
    Some (LocationReplace (js "https://u.io/?p=/about&q=a=1")) ∧
  main (js "Home") (landing l []) (JBool false) =
    Some (ReplaceState (js "/about?a=1")).
Proof.
  intros l.
  apply (main_roundtrip_flag_off (js "Home") l (JBool false));
    solve [by_compute | by vm_compute].
Defined.

End roundtrip.

(** ** The landing location as the browser exposes it

    The browser writes an apostrophe of the query as ["%27"], so the
    script on the real document reads the path from the encoded query. *)

Section encoded.
Implicit Types (l : location) (r s w : str) (c : ascii) (title : str).

Lemma unescape_no_tilde c s : c ≠ tilde → unescape (c :: s) = c :: unescape s.
Proof.
  intros Hc. apply unescape_other. change token with (tilde :: js "and~").
  by intros [? _]%prefix_cons_iff.
Qed.

(** Unescaping commutes with the percent-encoding: neither touches a code
    unit of the other. *)
Lemma unescape_encode_query w :
  unescape (encode_query w) = encode_query (unescape w).
Proof.
  induction w as [|w IH|c w Hn IH] using token_ind; [done|..].
  - rewrite encode_query_app, (encode_query_id token), !unescape_token by by_compute.
    by rewrite encode_query_other, IH by by_compute.
  - rewrite (unescape_other c w) by done.
    destruct (decide (c = "'"%char)) as [->|Hc].
    + rewrite !encode_query_apostrophe.
      change (js "%27" ++ ?y) with ("%"%char :: "2"%char :: "7"%char :: y).
      by rewrite !unescape_no_tilde, IH by by_compute.
    + rewrite !encode_query_other by done. rewrite unescape_other, IH; [done|].
      intros Hp. apply Hn, prefix_encode_query; [by_compute|].
      by rewrite encode_query_other.
Qed.

(** So does escaping. *)
Lemma escape_encode_query w :
  escape (encode_query w) = encode_query (escape w).
Proof.
  induction w as [|c w IH]; [done|].
  destruct (decide (c = amp)) as [->|Ha].
  - rewrite escape_amp, encode_query_other, escape_amp, encode_query_app, IH
      by by_compute.
    by rewrite (encode_query_id token) by by_compute.
  - destruct (decide (c = "'"%char)) as [->|Hc].
    + rewrite encode_query_apostrophe, escape_app, escape_other, IH by done.
      by rewrite (escape_id (js "%27")), encode_query_apostrophe by by_compute.
    + by rewrite encode_query_other, !escape_other, encode_query_other, IH.
Qed.

(** The query of the landing location, encoded: only the value of [p] can
    hold an apostrophe. *)
Lemma encoded_landing_search l r :
  pathname l ≠ [] → "'"%char ∉ search l →
  search (encoded (landing l r)) =
  js "?p=" ++ encode_query (replace_first r [] (escape (pathname l))) ++
  (if truthy (search l) then js "&q=" ++ escape (slice 1 (search l)) else []).
Proof.
  intros Hp Hq. cbn [encoded search]. rewrite landing_search by done.
  change (drop 1 (js "?p=" ++ ?x)) with (js "p=" ++ x).
  rewrite !encode_query_app, (encode_query_id (js "p=")) by by_compute.
  rewrite (encode_query_id (if truthy (search l) then _ else _)); [done|].
  destruct (truthy (search l)); [|apply not_elem_of_nil].
  rewrite not_elem_of_app. split; [by_compute|]. apply escape_notin; [|by_compute].
  intros Hin. apply Hq. by eapply (subseteq_drop 1).
Qed.

(** Escaping and unescaping add no code unit but those of ["&~and~"]. *)
Lemma notin_unescape_escape c (s : str) :
  c ∉ s → c ∉ js "&~and" → c ∉ unescape (escape s).
Proof.
  intros Hs Hc. cbv [js String.list_ascii_of_string] in Hc.
  apply unescape_notin; [apply escape_notin; [done|]|solve_notin].
  cbv [token js String.list_ascii_of_string]. solve_notin.
Qed.

(** On the document at the encoded landing location, whatever the
    request: the script shows the prefix, the decoded value of [p] with
    its apostrophes encoded, and the decoded query. *)
Lemma ghspa_landing_wire title l (w : jsval) :
  title ≠ js "404" → wf l = true → "'"%char ∉ search l →
  ghspa title (encoded (landing l ("/"%char :: first_segment l))) w =
  Some (ReplaceState
          (("/"%char :: first_segment l) ++
           encode_query
             (unescape (replace_first ("/"%char :: first_segment l) []
                          (escape (pathname l)))) ++
           lead "?" (unescape (escape (slice 1 (search l)))) ++ hash l)).
Proof.
  intros Ht Hwf Hq. unfold ghspa, main. rewrite decide_False by done.
  set (pp := js_or w (JBool true)).
  assert (Hb : to_boolean pp = true) by apply to_boolean_js_or.
  change (repo (encoded ?x) pp) with (repo x pp).
  rewrite <- (repo_on l pp), repo_landing by done.
  rewrite (resolve_wire _ _ _ (escape (slice 1 (search l))) (truthy (search l))
             (encode_query_notin _ _ (wire_path_amp_free escape unescape _ _)
                ltac:(by_compute))
             (escape_amp_free _)
             (encoded_landing_search l _ ltac:(by rewrite wf_pathname) Hq)).
  by rewrite unescape_encode_query, query_shown.
Qed.

Lemma carried_path_plain l :
  amp ∉ first_segment l → carried_path l = after_first_segment l.
Proof. intros ?. unfold carried_path. by rewrite decide_False. Qed.

Lemma carried_path_amp l : amp ∈ first_segment l → carried_path l = pathname l.
Proof. intros ?. unfold carried_path. by rewrite decide_True. Qed.

(** The value of [p] is the escaped [carried_path]. *)
Lemma wire_carried l :
  wf l = true →
  replace_first ("/"%char :: first_segment l) [] (escape (pathname l)) =
  escape (carried_path l).
Proof.
  intros Hwf. unfold carried_path. case_decide as Hseg.
  - apply (escaped_prefix_not_found escape unescape). by apply list_elem_of_further.
  - by rewrite <- (repo_on l (JBool true)), wire_path.
Qed.

(** That is [shown_encoded l]. *)
Lemma ghspa_landing_encoded title l (w : jsval) :
  title ≠ js "404" → wf l = true → "'"%char ∉ search l →
  ghspa title (encoded (landing l ("/"%char :: first_segment l))) w =
  Some (ReplaceState (path_query_fragment (shown_encoded l))).
Proof.
  intros Ht Hwf Hq. rewrite ghspa_landing_wire, wire_carried by done.
  unfold path_query_fragment, shown_encoded. cbn [pathname search hash].
  by rewrite <- app_assoc.
Qed.

(** Without ["&"] in the first segment and without apostrophe behind it
    nothing is encoded. *)
Lemma shown_encoded_plain l :
  amp ∉ first_segment l → "'"%char ∉ after_first_segment l →
  shown_encoded l = shown l.
Proof.
  intros Hseg Hp. unfold shown_encoded, shown.
  rewrite carried_path_plain, encode_query_id; [done| |done].
  apply notin_unescape_escape; [done|by_compute].
Qed.

(** A first segment with ["&"] comes back twice: the path shown has one
    segment more than the path requested. *)
Lemma shown_encoded_amp_segments l :
  wf l = true → amp ∈ first_segment l →
  length (split "/" (pathname (shown_encoded l))) =
  S (length (split "/" (pathname l))).
Proof.
  intros Hwf Hseg. cbn [shown_encoded pathname].
  rewrite carried_path_amp, (wf_pathname l Hwf) by done.
  generalize (slice 1 (pathname l)). intros p.
  rewrite unescape_escape_sync, encode_query_other by by_compute.
  rewrite split_app, !split_cons_sep, split_encode_query, split_unescape,
    split_escape, length_app, !length_cons, !length_fmap.
  by rewrite split_no_sep by auto with js.
Qed.

(** [shown_encoded l] is [l] exactly when the first segment holds no
    ["&"], the rest of the path and the query survive the escaping and the
    rest of the path holds no apostrophe. *)
Lemma shown_encoded_safe l :
  wf l = true →
  shown_encoded l = l ↔
  (amp ∉ first_segment l) ∧
  safe escape unescape (after_first_segment l) ∧
  safe escape unescape (slice 1 (search l)) ∧
  "'"%char ∉ after_first_segment l.
Proof.
  intros Hwf. split.
  - intros E. assert (Hseg : amp ∉ first_segment l).
    { intros Hseg. pose proof (shown_encoded_amp_segments l Hwf Hseg) as Hn.
      rewrite E in Hn. lia. }
    assert (Ha : "'"%char ∉ after_first_segment l).
    { apply (f_equal pathname) in E. cbn [shown_encoded pathname] in E.
      rewrite carried_path_plain in E by done.
      pose proof (wf_pathname_split l Hwf) as Hp.
      set (seg := first_segment l) in *. set (rest := after_first_segment l) in *.
      rewrite Hp in E. simplify_list_eq. rewrite <- E. auto with js. }
    rewrite shown_encoded_plain in E by done.
    by apply shown_safe in E as [? ?].
  - intros (? & ? & ? & ?). rewrite shown_encoded_plain by done. by apply shown_safe.
Qed.

(** When the escaping is safe, [shown_encoded l] is the request with the
    apostrophes of the path sent in [p] encoded. *)
Lemma shown_encoded_when_safe l :
  wf l = true →
  safe escape unescape (carried_path l) →
  safe escape unescape (slice 1 (search l)) →
  pathname (shown_encoded l) =
    ("/"%char :: first_segment l) ++ encode_query (carried_path l) ∧
  search (shown_encoded l) = search l.
Proof.
  intros Hwf Hsp Hsq. cbn [shown_encoded pathname search].
  by rewrite Hsp, Hsq, lead_slice_search.
Qed.

End encoded.

End Roundtrip.
