(* ===== verification/Exposable.v ===== *)
(** * Exposable: the locations of a round trip are ones a browser exposes

    The two runs of [src/ghspa.js] take a request [l] to the landing
    location ([Roundtrip.landing_of]) and from there to the location
    [resolve] shows ([Roundtrip.shown_encoded]).  This file shows that
    each of them is a location as a browser exposes it
    ([Url.exposable]) whenever the request is one: the escaping and the
    percent-encoding work within the segments of a path, so they make no
    dot segment; they add no code unit a browser would have to encode; and
    they leave every component behind its delimiter.  The browser
    therefore accepts the URLs the script hands it, whatever the escaping
    does to the request.  The location shown is a fixed point: a request
    for it is shown as it is ([shown_encoded_fixed]). *)

From S2P Require Import Prelude JsString Escape Query Location Url Ghspa Roundtrip.

Module Exposable.
Import JsString Escape Query Location Url Ghspa Roundtrip.

(** ** The landing location *)

Section landing.
Implicit Types (l : location) (c : ascii) (r : str).

Lemma first_segment_landing l :
  first_segment (landing l ("/"%char :: first_segment l)) = first_segment l.
Proof.
  unfold first_segment at 1. cbn [landing pathname app].
  change (slice 1 (?c :: ?s)) with s. change (js "/") with ["/"%char].
  by rewrite cut_app by auto with js.
Qed.

Lemma first_segment_landing_of l : first_segment (landing_of l) = first_segment l.
Proof. apply first_segment_landing. Qed.

(** The prefix alone, and the prefix put before the whole path, make no
    dot segment. *)
Lemma has_dot_segment_landing l :
  wf l = true → has_dot_segment (pathname l) = false →
  has_dot_segment (("/"%char :: first_segment l) ++ js "/") = false.
Proof.
  intros Hwf. apply has_dot_segment_segments. intros w.
  cbn [app]. change (js "/") with ["/"%char].
  rewrite split_cons_sep, split_app_sep by auto with js. cbn [split]. rewrite !elem_of_cons.
  intros [->|[->|[->|?%elem_of_nil]]] Hd;
    [done|by apply first_segment_in_split|done..].
Qed.

Lemma has_dot_segment_prefixed l :
  wf l = true → has_dot_segment (pathname l) = false →
  has_dot_segment (("/"%char :: first_segment l) ++ pathname l) = false.
Proof.
  intros Hwf. apply has_dot_segment_segments. intros w.
  pose proof (first_segment_in_split l Hwf) as Hin. revert Hin.
  rewrite (wf_pathname l Hwf). generalize (slice 1 (pathname l)). intros p.
  rewrite split_app, !split_cons_sep, (split_no_sep "/" (first_segment l))
    by apply first_segment_no_slash.
  rewrite elem_of_app, !elem_of_cons.
  intros Hin [[->|[->|[]%elem_of_nil]]|?] Hd; auto.
Qed.

(** A code unit that occurs neither in the path nor in the query of [l],
    and is none of ["?p=&q~and"], does not occur in the query of the
    landing location. *)
Lemma notin_landing_search c l r :
  c ∉ pathname l → c ∉ search l → c ∉ js "?p=&q~and" →
  c ∉ search (landing l r).
Proof.
  intros Hp Hs Hc. cbv [js String.list_ascii_of_string] in Hc.
  assert (c ∉ token) by (cbv [token js String.list_ascii_of_string]; solve_notin).
  assert (c ∉ replace_first r [] (escape (pathname l)))
    by by apply replace_first_nil_notin, escape_notin.
  assert (c ∉ escape (slice 1 (search l))).
  { apply escape_notin; [|done]. intros Hin. by apply Hs, (subseteq_drop 1). }
  cbn [landing search]. cbv [js String.list_ascii_of_string].
  destruct (truthy (pathname l)), (truthy (search l)); solve_notin.
Qed.

Lemma clean_landing l r : clean l → units path_unit r → clean (landing l r).
Proof.
  intros (Hp & Hq & Hf) Hr. repeat split; [| |done]; cbn [landing pathname search].
  - apply units_app. split; [done|by_compute].
  - apply (units_of_notin _ (pathname l ++ search l) (js "?p=&q~and"));
      [|apply units_app; split; [by apply units_path_query|done]|by_compute].
    intros c [? ?]%not_elem_of_app. by apply notin_landing_search.
Qed.

(** The URL [redirect] builds with the flag on is one a browser loads as
    it is, but for the apostrophes of its query. *)
Lemma landing_navigable l :
  exposable l = true →
  let l' := landing l ("/"%char :: first_segment l) in
  wf l' = true ∧ clean l' ∧ has_dot_segment (pathname l') = false.
Proof.
  intros (Hwf & Hc & _ & Hdot)%exposable_spec l'.
  assert (Hc' : clean l').
  { apply clean_landing; [done|]. apply units_cons. split; [done|].
    apply units_first_segment, Hc. }
  split_and!; [apply clean_wf; [done|by eexists| |]|done|
               by apply has_dot_segment_landing].
  - cbn [l' landing search]. rewrite (wf_pathname l Hwf). by cbn [truthy app js].
  - by apply wf_spec in Hwf as (_ & _ & _ & _ & _ & ?).
Qed.

Lemma exposable_landing_of l : exposable l = true → exposable (landing_of l) = true.
Proof.
  intros (? & ? & ?)%landing_navigable. by apply exposable_encoded.
Qed.

End landing.

(** ** The location [resolve] shows *)

Section shown.
Implicit Types (l : location) (c : ascii) (a r w : str).

Lemma notin_shown_search c l :
  c ∉ search l → c ∉ js "?&~and" → c ∉ search (shown_encoded l).
Proof.
  intros Hs Hc. cbn [shown_encoded search]. cbv [js String.list_ascii_of_string] in Hc.
  apply notin_lead; [solve_notin|]. apply notin_unescape_escape.
  - intros Hin. by eapply Hs, (subseteq_drop 1).
  - cbv [js String.list_ascii_of_string]. solve_notin.
Qed.

(** The path sent in [p]: made of code units of the path, empty or led by
    ["/"], and behind the prefix it makes no dot segment. *)
Lemma notin_carried_path c l : c ∉ pathname l → c ∉ carried_path l.
Proof.
  intros Hp. unfold carried_path. case_decide; [done|].
  intros Hin. by eapply Hp, subseteq_drop.
Qed.

Lemma carried_path_led l :
  wf l = true → carried_path l = [] ∨ js "/" `prefix_of` carried_path l.
Proof.
  intros (? & _)%wf_spec. unfold carried_path.
  case_decide; [by right|apply after_first_segment_led].
Qed.

Lemma has_dot_segment_carried l :
  wf l = true → has_dot_segment (pathname l) = false →
  has_dot_segment (("/"%char :: first_segment l) ++ carried_path l) = false.
Proof.
  intros Hwf Hdot. unfold carried_path.
  case_decide; [by apply has_dot_segment_prefixed|].
  cbn [app]. by rewrite <- wf_pathname_split.
Qed.

Lemma notin_shown_path c l :
  c ∉ pathname l → c ∉ js "/&~and%27" → c ∉ pathname (shown_encoded l).
Proof.
  intros Hp Hc. cbn [shown_encoded pathname].
  pose proof (notin_first_segment c l Hp).
  pose proof (notin_carried_path c l Hp).
  cbv [js String.list_ascii_of_string] in Hc.
  assert (c ∉ encode_query (unescape (escape (carried_path l)))).
  { apply encode_query_notin; [apply notin_unescape_escape|]; [done|..];
      cbv [js String.list_ascii_of_string]; solve_notin. }
  solve_notin.
Qed.

(** Encoding, escaping and unescaping put no ["//"] at the head of the
    path. *)
Lemma shown_encoded_double_slash l :
  wf l = true → js "//" `prefix_of` pathname (shown_encoded l) →
  js "//" `prefix_of` pathname l.
Proof.
  intros Hwf. rewrite (wf_pathname_split l Hwf). cbn [shown_encoded pathname app].
  change (js "//") with ("/"%char :: js "/"). rewrite !prefix_cons_iff.
  intros [_ Hp]. split; [done|].
  pose proof (first_segment_no_slash l) as Hseg.
  destruct (first_segment l) as [|c seg] eqn:E.
  - rewrite carried_path_plain in Hp by (rewrite E; apply not_elem_of_nil).
    apply (unescape_escape_head "/"); [done|].
    apply prefix_encode_query; [by_compute|done].
  - apply prefix_cons_iff in Hp as [<- _]. destruct Hseg. apply list_elem_of_here.
Qed.

(** Escaping and unescaping work within the segments of a path, and a
    segment they change holds a ["&"]: they make no dot segment. *)
Lemma elem_of_unescaped w (ws : list str) :
  dot_segment w = true → w ∈ unescape <$> (escape <$> ws) → w ∈ ws.
Proof.
  intros Hw (y & -> & (x & -> & Hx)%list_elem_of_fmap)%list_elem_of_fmap.
  rewrite unescape_escape_amp_free; [done|].
  apply dot_segment_notin; [done|by_compute].
Qed.

Lemma unescape_escape_led r :
  r = [] ∨ js "/" `prefix_of` r →
  unescape (escape r) = [] ∨ js "/" `prefix_of` unescape (escape r).
Proof.
  intros [->|[r' ->]]; [by left|right]. change (js "/" ++ r') with ("/"%char :: r').
  rewrite unescape_escape_sync by done. by eexists.
Qed.

Lemma has_dot_segment_unescape_escape a r :
  r = [] ∨ js "/" `prefix_of` r →
  has_dot_segment (a ++ r) = false →
  has_dot_segment (a ++ unescape (escape r)) = false.
Proof.
  intros [->|[r' ->]]; [done|]. change (js "/" ++ r') with ("/"%char :: r').
  rewrite unescape_escape_sync by done. apply has_dot_segment_segments.
  intros w. rewrite !split_app, split_unescape, split_escape, !elem_of_app.
  intros [?|?] Hw; [by left|right]. by apply elem_of_unescaped.
Qed.

Lemma has_dot_segment_shown_encoded l :
  wf l = true → has_dot_segment (pathname l) = false →
  has_dot_segment (pathname (shown_encoded l)) = false.
Proof.
  intros Hwf Hdot. cbn [shown_encoded pathname].
  pose proof (carried_path_led l Hwf) as Hled.
  apply has_dot_segment_encode_query; [by apply unescape_escape_led|].
  apply has_dot_segment_unescape_escape; [done|].
  by apply has_dot_segment_carried.
Qed.

(** The location shown has the first segment of the request and, behind
    it, the decoded path sent in [p]. *)
Lemma shown_path_led l :
  wf l = true →
  let rest := encode_query (unescape (escape (carried_path l))) in
  rest = [] ∨ js "/" `prefix_of` rest.
Proof. intros Hwf. by apply encode_query_led, unescape_escape_led, carried_path_led. Qed.

Lemma first_segment_shown_encoded l :
  wf l = true → first_segment (shown_encoded l) = first_segment l.
Proof.
  intros Hwf. unfold first_segment at 1. cbn [shown_encoded pathname app].
  change (slice 1 (?c :: ?s)) with s.
  apply cut_fst_app; [apply first_segment_no_slash|by apply shown_path_led].
Qed.

Lemma after_first_segment_shown_encoded l :
  wf l = true →
  after_first_segment (shown_encoded l) =
  encode_query (unescape (escape (carried_path l))).
Proof.
  intros Hwf. unfold after_first_segment.
  rewrite first_segment_shown_encoded by done.
  cbn [shown_encoded pathname app drop]. by rewrite drop_app_length.
Qed.

(** What the script shows, it restores: a request for the location shown
    is shown that location.  A first segment with ["&"] is left aside: it
    is put before the path once more on every round trip. *)
Lemma shown_encoded_fixed l :
  wf l = true → amp ∉ first_segment l →
  shown_encoded (shown_encoded l) = shown_encoded l.
Proof.
  intros Hwf Hseg. unfold shown_encoded at 1.
  rewrite carried_path_plain, after_first_segment_shown_encoded,
    first_segment_shown_encoded by by rewrite ?first_segment_shown_encoded.
  cbn [shown_encoded search hash protocol hostname port].
  rewrite slice_lead, escape_encode_query, unescape_encode_query,
    encode_query_idemp, !unescape_escape_safe.
  done.
Qed.

(** They add no code unit a browser would have to encode. *)
Lemma clean_shown_encoded l : clean l → clean (shown_encoded l).
Proof.
  intros (Hp & Hq & Hf). repeat split; [| |done].
  - apply (units_of_notin _ (pathname l) (js "/&~and%27")); [|done|by_compute].
    intros c. apply notin_shown_path.
  - apply (units_of_notin _ (search l) (js "?&~and")); [|done|by_compute].
    intros c. apply notin_shown_search.
Qed.

(** Whatever the escaping does to the request, [shown_encoded l] is a
    location the browser exposes as it is. *)
Lemma exposable_shown_encoded l :
  exposable l = true → exposable (shown_encoded l) = true.
Proof.
  intros (Hwf & Hc & Hq & Hdot)%exposable_spec. apply exposable_spec.
  split_and!; [|by apply clean_shown_encoded|
    by apply notin_shown_search; [|by_compute]|
    by apply has_dot_segment_shown_encoded].
  apply wf_spec in Hwf as (_ & _ & _ & _ & _ & ?).
  apply clean_wf; [by apply clean_shown_encoded|by eexists|apply lead_led|done].
Qed.

End shown.

End Exposable.
