(* ===== verification/Session.v ===== *)
(** * Session: the document loads of one browser tab

    [src/ghspa.js] runs once on every document the tab loads.  What it
    does on one load ([Ghspa.ghspa]) decides what the tab shows next and
    whether another document is loaded: [location.replace] replaces the
    current history entry and loads the document at the new URL, on which
    the script runs again; [history.replaceState] replaces the URL of the
    current entry and loads nothing.

    This file models that loop: the host as the title and the flag each
    location is served with ([site]), the tab as its history entries, a
    load counter and the exception the script ended with ([tab]), one run
    of the script as a step ([step] as a relation, [step_fun] as a
    function), and any number of them ([run], with fuel); [reload] is the
    one action of the user, a new load of the current entry.  The browser is
    a parameter: the steps call [History.navigate] and
    [History.replace_url], and the theorems assume the laws of
    [History.HistoryApiOk] only.  The theorems are
    those of the steps, whatever the request: the steps are deterministic
    and the function computes them; no step leaves the origin of the
    request; under a prefix at which the host has a real document the
    script stops after at most two runs; the steps depend on the host
    through the titles of its documents only.  The
    theorems on what a request ends with are in [Requests]. *)

From stdpp Require Import gmap relations.
From S2P Require Import Prelude JsString Escape Query Location Url History Browser.
From S2P Require Import Ghspa Roundtrip Exposable.

Module Session.
Import JsString Escape Query Location Url History Browser Ghspa Roundtrip Exposable.

(** ** Definitions *)

(** The host: the title of the document it serves at a location
    (["404"] for the fallback document) and the value of
    [window.projectPages] when the script runs there. *)
Record site := Site {
  title_at : location → str;
  flag_at : location → jsval
}.

(** The static host: the paths at which it has a real document, with the
    title of each; the title of the fallback document it serves at every
    other path (["404"] by convention); the value its pages give
    [window.projectPages]. *)
Record host := Host {
  documents : gmap str str;
  fallback_title : str;
  project_pages : jsval
}.

(** What the host answers at a location: the document at its path, or the
    fallback document. *)
Definition serve (h : host) : site :=
  {| title_at l := default (fallback_title h) (documents h !! pathname l);
     flag_at _ := project_pages h |}.

(** Hosts that serve documents with the same titles; the flags their
    pages set may differ. *)
Definition same_titles (s s' : site) : Prop :=
  ∀ l, title_at s l = title_at s' l.

(** The tab: the session history, the index of the current entry, the
    number of documents loaded so far, whether the script has yet to run
    on the current document, and the exception the script ended with, if
    it threw one. *)
Record tab := Tab {
  history : list location;
  current : nat;
  loads : nat;
  pending : bool;
  uncaught : option exn
}.

Definition visible (t : tab) : option location := history t !! current t.

(** A tab opened on a request for [l]. *)
Definition open_at (l : location) : tab := Tab [l] 0 1 true None.

(** The current entry is replaced by [l]; with [reload] the document at
    [l] is loaded and the script will run on it. *)
Definition show (t : tab) (l : location) (reload : bool) : tab :=
  {| history := <[current t := l]> (history t);
     current := current t;
     loads := if reload then S (loads t) else loads t;
     pending := reload;
     uncaught := uncaught t |}.

(** The script has run and left the URL alone. *)
Definition settle (t : tab) : tab :=
  {| history := history t; current := current t; loads := loads t;
     pending := false; uncaught := uncaught t |}.

(** The script has ended with the exception [e]: the URL stays. *)
Definition throw (t : tab) (e : exn) : tab :=
  {| history := history t; current := current t; loads := loads t;
     pending := false; uncaught := Some e |}.

(** The end of a history update. *)
Definition finish (t : tab) (r : resolved) : tab :=
  match r with
  | Shown l => show t l false
  | Refused e => throw t e
  end.

(** The user reloads the page: the document at the URL of the current
    entry is loaded again and the script runs on it. *)
Definition reload (t : tab) : tab :=
  {| history := history t; current := current t; loads := S (loads t);
     pending := true; uncaught := None |}.

(** What the browser does with the effect of the script on the document
    at [l].  Both calls replace the current entry.  [None] is a URL the
    browser model gives no meaning to: no step is taken and the tab stays
    pending. *)
Definition perform `{HistoryApi} (t : tab) (l : location) (e : option effect) :
    option tab :=
  match e with
  | Some (LocationReplace url) => l' ← navigate url; Some (show t l' true)
  | Some (ReplaceState u) => r ← replace_url l u; Some (finish t r)
  | None => Some (settle t)
  end.

(** One run of the script, on the pending document. *)
Definition step_fun `{HistoryApi} (s : site) (t : tab) : option tab :=
  if pending t
  then l ← visible t; perform t l (ghspa (title_at s l) l (flag_at s l))
  else None.

Inductive step `{HistoryApi} (s : site) : tab → tab → Prop :=
  | step_navigate t l url l' :
      pending t = true → visible t = Some l →
      ghspa (title_at s l) l (flag_at s l) = Some (LocationReplace url) →
      navigate url = Some l' →
      step s t (show t l' true)
  | step_rewrite t l u l' :
      pending t = true → visible t = Some l →
      ghspa (title_at s l) l (flag_at s l) = Some (ReplaceState u) →
      replace_url l u = Some (Shown l') →
      step s t (show t l' false)
  | step_refused t l u e :
      pending t = true → visible t = Some l →
      ghspa (title_at s l) l (flag_at s l) = Some (ReplaceState u) →
      replace_url l u = Some (Refused e) →
      step s t (throw t e)
  | step_idle t l :
      pending t = true → visible t = Some l →
      ghspa (title_at s l) l (flag_at s l) = None →
      step s t (settle t).

(** At most [fuel] runs of the script, until none is pending. *)
Fixpoint run `{HistoryApi} (fuel : nat) (s : site) (t : tab) : tab :=
  match fuel with
  | 0 => t
  | S n => match step_fun s t with Some t' => run n s t' | None => t end
  end.

(** The tab shows a location of the origin [o], and as long as the script
    has yet to run on it, one the browser exposes, with the first path
    segment [seg]. *)
Definition on_site `{HistoryApi} (o : str * str * str) (seg : str) (t : tab) : Prop :=
  ∃ l, visible t = Some l ∧ origin l = o ∧
       (pending t = true → exposed l ∧ first_segment l = seg).

(** The host has a real document at the prefix [/seg/]. *)
Definition serves_prefix (s : site) (seg : str) : Prop :=
  ∀ l, pathname l = "/"%char :: seg ++ js "/" → title_at s l ≠ js "404".

(** The runs of the script still to come, at most: two on a fallback
    document, one on any other document, none when nothing is pending. *)
Definition budget (s : site) (t : tab) : nat :=
  if pending t then
    match visible t with
    | Some l => if decide (title_at s l = js "404") then 2 else 1
    | None => 0
    end
  else 0.

(** ** The hosts and requests of the examples *)

(** A project site under [/my-repo/]: a real document at the prefix, the
    fallback document everywhere else. *)
Definition project_host : host :=
  Host {[ js "/my-repo/" := js "wrk graphs" ]} (js "404") JUndefined.

Definition project_site : site := serve project_host.

(** A site at the root of its domain, asked for paths it has no document
    for. *)
Definition root_site : site :=
  serve (Host {[ js "/" := js "Home" ]} (js "404") (JBool false)).

(** A host whose fallback document has another title than ["404"]. *)
Definition untitled_host : host :=
  Host {[ js "/my-repo/" := js "wrk graphs" ]} (js "Page not found") JUndefined.

Definition deep_link : location :=
  Loc (js "https:") (js "user.github.io") [] (js "/my-repo/docs/intro")
      (js "?x=1&y=2") (js "#top").

Definition about_page : location :=
  Loc (js "https:") (js "user.github.io") [] (js "/about") [] [].

(** ** Decidable equality *)

#[export] Instance tab_eq_dec : EqDecision tab.
Proof. solve_decision. Defined.

(** ** Steps *)

Section steps.
Context {api : HistoryApi} {api_ok : HistoryApiOk api} (s : site).
Implicit Types (t : tab) (l : location) (n k : nat).

Lemma step_fun_spec t t' : step s t t' ↔ step_fun s t = Some t'.
Proof.
  unfold step_fun. split.
  - intros [? ? ? ? Hp Hv He Hu|? ? ? ? Hp Hv He Hu|? ? ? ? Hp Hv He Hu|? ? Hp Hv He];
      rewrite Hp, Hv; simpl; rewrite He; simpl; by rewrite ?Hu.
  - destruct (pending t) eqn:Hp; [|done].
    destruct (visible t) as [l|] eqn:Hv; [|done]. simpl.
    destruct (ghspa _ _ _) as [[url|u]|] eqn:He; simpl.
    + destruct (navigate url) eqn:?; intros [= <-]. by eapply step_navigate.
    + destruct (replace_url l u) as [[l'|e]|] eqn:?; intros [= <-];
        [by eapply step_rewrite|by eapply step_refused].
    + intros [= <-]. by eapply step_idle.
Qed.

Lemma step_deterministic t t1 t2 : step s t t1 → step s t t2 → t1 = t2.
Proof. rewrite !step_fun_spec. congruence. Qed.

Lemma settled_final t t' : pending t = false → ¬ step s t t'.
Proof. intros Hp H%step_fun_spec. unfold step_fun in H. by rewrite Hp in H. Qed.

Lemma run_settled n t : pending t = false → run n s t = t.
Proof. intros Hp. destruct n; [done|]. simpl. unfold step_fun. by rewrite Hp. Qed.

Lemma run_step n t t' : step_fun s t = Some t' → run (S n) s t = run n s t'.
Proof. intros H. simpl. by rewrite H. Qed.

Lemma run_rtc n t : rtc (step s) t (run n s t).
Proof.
  revert t. induction n as [|n IH]; intros t; [done|]. simpl.
  destruct (step_fun s t) as [t'|] eqn:E; [|done].
  eapply rtc_l; [by apply step_fun_spec|apply IH].
Qed.

(** Only the fallback document makes the script navigate. *)
Lemma ghspa_replace_fallback title l w url :
  ghspa title l w = Some (LocationReplace url) → title = js "404".
Proof.
  unfold ghspa, main. case_decide; [done|].
  by intros (u & ? & _)%resolve_is_replace_state.
Qed.

Lemma visible_show t l l0 r : visible t = Some l0 → visible (show t l r) = Some l.
Proof. intros H%lookup_lt_Some. by apply list_lookup_insert_eq. Qed.

Lemma visible_reload t : visible (reload t) = visible t.
Proof. done. Qed.

(** The browser loads the landing location, with the query as it encodes
    it. *)
Lemma navigate_landing l :
  exposed l →
  navigate (href (landing l ("/"%char :: first_segment l))) = Some (landing_of l) ∧
  exposed (landing_of l).
Proof.
  intros Hl. pose proof (exposed_exposable l Hl) as Hx.
  pose proof (landing_navigable l Hx) as (? & ? & ?).
  split; [by apply (navigate_href l)|].
  by apply (exposed_same_origin l); [|apply exposable_landing_of|].
Qed.

(** A navigation goes from a fallback document to its landing location. *)
Lemma step_navigate_inv l url l' :
  exposed l →
  ghspa (title_at s l) l (flag_at s l) = Some (LocationReplace url) →
  navigate url = Some l' →
  title_at s l = js "404" ∧ l' = landing_of l ∧ exposed l'.
Proof.
  intros Hl He Hu. pose proof (ghspa_replace_fallback _ _ _ _ He) as Ht.
  rewrite Ht, ghspa_fallback in He by by apply exposed_wf. injection He as <-.
  destruct (navigate_landing l Hl) as [E ?]. rewrite E in Hu.
  injection Hu as <-. auto.
Qed.

Lemma on_site_open l :
  exposed l → on_site (origin l) (first_segment l) (open_at l).
Proof. by exists l. Qed.

(** Every step keeps the tab on the site and under the prefix. *)
Lemma step_on_site o seg t t' :
  step s t t' → on_site o seg t → on_site o seg t'.
Proof.
  intros Hstep (l & Hv & Ho & Hwf).
  destruct Hstep as [t l0 url l' Hp Hv' He Hu|t l0 u l' Hp Hv' He Hu|
                     t l0 u e Hp Hv' He Hu|t l0 Hp Hv' He];
    rewrite Hv in Hv'; injection Hv' as <-; [| |by exists l..].
  - destruct (Hwf Hp) as [Hl Hseg].
    destruct (step_navigate_inv _ _ _ Hl He Hu) as (_ & -> & ?).
    exists (landing_of l). split; [by eapply visible_show|]. split; [done|].
    intros _. by rewrite first_segment_landing_of.
  - exists l'. split; [by eapply visible_show|].
    split; [|done]. apply replace_url_origin in Hu. congruence.
Qed.

(** ** Termination *)

Lemma budget_pending t l :
  pending t = true → visible t = Some l →
  budget s t = if decide (title_at s l = js "404") then 2 else 1.
Proof. intros Hp Hv. unfold budget. by rewrite Hp, Hv. Qed.

Lemma budget_stuck t : budget s t = 0 → step_fun s t = None.
Proof.
  unfold budget, step_fun. destruct (pending t); [|done].
  destruct (visible t); [|done]. by case_decide.
Qed.

(** Under a prefix the host serves, every step uses up budget. *)
Lemma step_budget o seg t t' :
  serves_prefix s seg → on_site o seg t → step s t t' →
  budget s t' < budget s t.
Proof.
  intros Hs (l & Hv & _ & Hwf) Hstep.
  destruct Hstep as [t l0 url l' Hp Hv' He Hu|t l0 u l' Hp Hv' He Hu|
                     t l0 u e Hp Hv' He Hu|t l0 Hp Hv' He];
    rewrite Hv in Hv'; injection Hv' as <-; rewrite (budget_pending t l) by done;
    [|unfold budget; cbn [show throw settle pending]; case_decide; lia..].
  destruct (Hwf Hp) as [Hl Hseg].
  destruct (step_navigate_inv _ _ _ Hl He Hu) as (Ht & -> & _).
  rewrite decide_True by done.
  rewrite (budget_pending _ (landing_of l)), decide_False;
    [lia| |done|by eapply visible_show].
  apply Hs. by rewrite <- Hseg.
Qed.

Lemma on_site_sn o seg t :
  serves_prefix s seg → on_site o seg t → sn (step s) t.
Proof.
  intros Hs. remember (budget s t) as b eqn:Hb. revert t Hb.
  induction b as [b IH] using lt_wf_ind. intros t -> Ht.
  constructor. intros t' Hstep.
  eapply IH; [by eapply step_budget|done|by eapply step_on_site].
Qed.

Lemma nsteps_budget o seg n t t' :
  serves_prefix s seg → on_site o seg t → nsteps (step s) n t t' →
  n + budget s t' ≤ budget s t.
Proof.
  intros Hs Ht Hn. induction Hn as [|n t t1 t2 Hstep _ IH]; [done|].
  pose proof (step_budget _ _ _ _ Hs Ht Hstep).
  specialize (IH (step_on_site _ _ _ _ Hstep Ht)). lia.
Qed.

Lemma run_stuck n t : step_fun s t = None → run n s t = t.
Proof. intros H. destruct n; [done|]. simpl. by rewrite H. Qed.

(** Fuel beyond the budget changes nothing. *)
Lemma run_enough o seg n m t :
  serves_prefix s seg → on_site o seg t → budget s t ≤ n →
  run (n + m) s t = run n s t.
Proof.
  intros Hs. revert t. induction n as [|n IH]; intros t Ht Hb.
  - cbn [Nat.add]. change (run 0 s t) with t. apply run_stuck, budget_stuck. lia.
  - cbn [Nat.add run]. destruct (step_fun s t) as [t'|] eqn:E; [|done].
    apply step_fun_spec in E. pose proof (step_budget _ _ _ _ Hs Ht E).
    apply IH; [by eapply step_on_site|lia].
Qed.

(** C19: the script never leaves the site: whatever the host serves and
    however many runs follow a request for a location the browser exposes,
    the tab shows a location with the scheme, host and port of the
    request. *)
Theorem session_same_origin l t :
  exposed l → rtc (step s) (open_at l) t →
  ∃ l', visible t = Some l' ∧ origin l' = origin l.
Proof.
  intros Hl Hrtc.
  enough (on_site (origin l) (first_segment l) t) as (l' & ? & ? & _) by eauto.
  apply (rtc_ind_r (R:=step s) (on_site (origin l) (first_segment l)) (open_at l));
    [by apply on_site_open|intros; by eapply step_on_site|done].
Qed.

(** C10: under a prefix at which the host has a real document, the script
    stops: from a request for a location the browser exposes, every
    sequence of runs is finite, none has more than two runs, and fuel
    beyond two changes nothing. *)
Theorem session_terminates l :
  exposed l → serves_prefix s (first_segment l) →
  sn (step s) (open_at l) ∧
  (∀ n t, nsteps (step s) n (open_at l) t → n ≤ 2) ∧
  (∀ n, run (2 + n) s (open_at l) = run 2 s (open_at l)).
Proof.
  intros Hl%on_site_open Hs.
  assert (Hb : budget s (open_at l) ≤ 2)
    by (rewrite (budget_pending _ l) by done; case_decide; lia).
  split; [by eapply on_site_sn|]. split; [|intros n; by eapply run_enough].
  intros n t Hn. pose proof (nsteps_budget _ _ _ _ _ Hs Hl Hn). lia.
Qed.

(** Without a document titled ["404"] no run loads a document, and the
    first run is the last. *)
Lemma step_no_fallback t t' :
  (∀ l, title_at s l ≠ js "404") → step s t t' →
  loads t' = loads t ∧ pending t' = false.
Proof.
  intros Hs [t0 l url l' _ _ He _| | |]; try done.
  by destruct (Hs l), (ghspa_replace_fallback _ _ _ _ He).
Qed.

End steps.

(** ** The steps are decidable

    [step_fun] decides the step relation, so a step between two given
    tabs is proved or refuted by evaluation ([by_compute]). *)

#[export] Instance step_dec `{HistoryApi} s t t' : Decision (step s t t').
Proof.
  refine (cast_if (decide (step_fun s t = Some t'))); by rewrite step_fun_spec.
Defined.

(** ** The flag does not matter

    [same_titles] is an equivalence on hosts, coarser than equality, and
    the steps of a tab respect it: they depend on the host through the
    titles only. *)

#[export] Instance same_titles_equivalence : Equivalence same_titles.
Proof.
  split; [by intros s l|by intros s s' H l|].
  intros s1 s2 s3 H1 H2 l. by rewrite H1.
Qed.

Section flag.
Context {api : HistoryApi}.

#[export] Instance step_fun_proper :
  Proper (same_titles ==> (=) ==> (=)) step_fun.
Proof.
  intros s s' Hs t ? <-. unfold step_fun. destruct (pending t); [|done].
  destruct (visible t) as [l|]; [|done]. simpl.
  by rewrite (Hs l), (ghspa_any_flag _ l (flag_at s l) (flag_at s' l)).
Qed.

#[export] Instance run_proper n :
  Proper (same_titles ==> (=) ==> (=)) (run n).
Proof.
  intros s s' Hs t ? <-. revert t. induction n as [|n IH]; intros t; [done|].
  simpl. rewrite Hs. by destruct (step_fun s' t).
Qed.

#[export] Instance step_proper :
  Proper (same_titles ==> (=) ==> (=) ==> iff) step.
Proof. intros s s' Hs t ? <- t' ? <-. by rewrite !step_fun_spec, Hs. Qed.

(** C13: [window.projectPages] has no influence on what a tab does.  Replace
    the flag the pages of a host set by any other, at every location: the
    tab takes the same steps and every run with any fuel ends in the same
    state.  The only thing the script takes from a document is its
    title. *)
Theorem session_ignores_flag (s : site) (f : location → jsval) n t :
  run n (Site (title_at s) f) t = run n s t ∧
  ∀ t', step (Site (title_at s) f) t t' ↔ step s t t'.
Proof.
  assert (H : same_titles (Site (title_at s) f) s) by done.
  split; [by rewrite H|intros t'; by rewrite H].
Qed.

End flag.

(** ** Hosts *)

Section hosts.
Context {api : HistoryApi}.
Implicit Types (h : host) (t : tab) (l : location).

Lemma serve_title h l :
  title_at (serve h) l = js "404" →
  (documents h !! pathname l = None ∧ fallback_title h = js "404") ∨
  documents h !! pathname l = Some (js "404").
Proof.
  cbn [serve title_at]. destruct (documents h !! pathname l); simpl;
    [intros ->; by right|by left].
Qed.

(** C14: the title of the fallback document is the signal.  On a host whose
    fallback document is not titled ["404"], and none of whose documents
    is, the script never navigates: whatever is requested, no sequence of
    runs has more than one run and none loads a document, so the real
    document is never reached from a deep link. *)
Theorem untitled_fallback_never_loads h t n t' :
  fallback_title h ≠ js "404" →
  map_Forall (λ _ title, title ≠ js "404") (documents h) →
  nsteps (step (serve h)) n t t' → n ≤ 1 ∧ loads t' = loads t.
Proof.
  intros Hf Hd Hn.
  assert (Hs : ∀ l, title_at (serve h) l ≠ js "404").
  { intros l [[_ ?]|Hl]%serve_title; [done|]. by apply Hd in Hl. }
  destruct Hn as [|n t t1 t2 [E Hp]%(step_no_fallback _ _ _ Hs) Hn]; [auto|].
  destruct Hn as [|n t1 t2 t3 Hstep _]; [auto with lia|].
  by apply settled_final in Hstep.
Qed.

End hosts.

(** ** The examples *)

Section scenarios.
#[local] Existing Instance url_model.

Lemma session_same_origin_witness :
  ∃ l', visible (run 4 root_site (open_at about_page)) = Some l' ∧
        origin l' = origin about_page.
Proof.
  apply (session_same_origin root_site about_page); [by vm_compute|apply run_rtc].
Defined.

Lemma session_terminates_witness :
  sn (step project_site) (open_at deep_link) ∧
  (∀ n t, nsteps (step project_site) n (open_at deep_link) t → n ≤ 2) ∧
  (∀ n, run (2 + n) project_site (open_at deep_link) =
        run 2 project_site (open_at deep_link)).
Proof.
  apply (session_terminates project_site deep_link); [by vm_compute|].
  intros l Hl. cbn [project_site serve title_at]. rewrite Hl. by vm_compute.
Defined.

Lemma untitled_fallback_never_loads_witness :
  1 ≤ 1 ∧ loads (run 1 (serve untitled_host) (open_at deep_link)) =
          loads (open_at deep_link).
Proof.
  apply (untitled_fallback_never_loads untitled_host (open_at deep_link) 1);
    [done|by apply map_Forall_singleton|].
  apply nsteps_once. by_compute.
Defined.

End scenarios.

End Session.
