(* ===== verification/Requests.v ===== *)
(** * Requests: what a request ends with

    A request is a tab opened at a location ([Session.open_at]), or any
    tab whose current entry is about to be loaded.  This file
    follows the runs of [src/ghspa.js] from there, through the steps of
    [Session]: the run on the fallback document, which loads the landing
    location, and the run on the document served there, which rewrites the
    visible URL.  The theorems hold in every browser that satisfies the
    laws of [History]: every request without a leading ["//"] settles
    after exactly two loads on a location the browser exposes; the request
    is shown again exactly when its first segment has no ["&"] and the
    escaping is safe on its path and query; a host that serves the
    fallback document under the whole first path segment never settles; a
    path that starts with ["//"] is read back as a reference to another
    host and the history update is refused; an apostrophe behind the first
    path segment comes back percent-encoded; a first segment that contains
    ["&"] comes back twice; a reload of the page the script has restored
    ends on the same location; a visit of a document of the site, without
    the key [p] in its query string, is left alone. *)

From stdpp Require Import gmap relations.
From S2P Require Import Prelude JsString Escape Query Location Url History Browser.
From S2P Require Import Ghspa Roundtrip Exposable Session.

Module Requests.
Import JsString Escape Query Location Url History Browser Ghspa Roundtrip Exposable Session.

(** ** Definitions *)

(** A site at the root of its domain that answers ["//"] like ["/"], with
    its real document. *)
Definition slash_site : site :=
  serve (Host {[ js "/" := js "Home"; js "//" := js "Home" ]} (js "404") JUndefined).

(** A request whose path names another host behind ["//"]. *)
Definition other_host_link : location :=
  Loc (js "https:") (js "user.github.io") [] (js "//evil.example/x") [] [].

(** A request whose path names the host of the site behind ["//"]. *)
Definition same_host_link : location :=
  Loc (js "https:") (js "user.github.io") [] (js "//user.github.io/x") [] [].

(** A request with an apostrophe in the rest of its path. *)
Definition apostrophe_link : location :=
  Loc (js "https:") (js "user.github.io") [] (js "/my-repo/it's") [] [].

(** A request whose first path segment contains ["&"]. *)
Definition amp_link : location :=
  Loc (js "https:") (js "user.github.io") [] (js "/r&d/notes") (js "?x=1") [].

(** A request the escaping does not give back: its path holds the token
    itself. *)
Definition ambiguous_link : location :=
  Loc (js "https:") (js "user.github.io") [] (js "/my-repo/a~and~b") (js "?x=~and~") [].

(** A visit of the real document, with a query of its own. *)
Definition home_visit : location :=
  Loc (js "https:") (js "user.github.io") [] (js "/my-repo/")
      (js "?utm_source=mail&q=1") (js "#top").

Definition amp_site : site :=
  serve (Host {[ js "/r&d/" := js "R and D" ]} (js "404") JUndefined).

(** ** The two runs *)

Section requests.
Context {api : HistoryApi} {api_ok : HistoryApiOk api} (s : site).
Implicit Types (t : tab) (l : location) (n k : nat).

(** On the fallback document the tab loads the landing location, which
    the browser exposes with its query encoded. *)
Lemma step_fun_fallback t l :
  pending t = true → visible t = Some l →
  exposed l → title_at s l = js "404" →
  step_fun s t = Some (show t (landing_of l) true).
Proof.
  intros Hp Hv Hl Ht. unfold step_fun. rewrite Hp, Hv. simpl.
  rewrite Ht, ghspa_fallback by by apply exposed_wf.
  simpl. by destruct (navigate_landing l Hl) as [-> _].
Qed.

(** On the document loaded there the script hands the browser the path,
    query and fragment of [shown_encoded l]. *)
Lemma step_fun_landing_encoded t l :
  pending t = true → visible t = Some (landing_of l) →
  exposed l → title_at s (landing_of l) ≠ js "404" →
  step_fun s t =
  r ← replace_url (landing_of l) (path_query_fragment (shown_encoded l));
  Some (finish t r).
Proof.
  intros Hp Hv (Hwf & _ & Hq & _)%exposed_exposable%exposable_spec Ht.
  unfold step_fun. rewrite Hp, Hv. simpl. unfold landing_of in *.
  by rewrite ghspa_landing_encoded.
Qed.

(** The runs that follow a request answered with the fallback document,
    whatever the path and the query: two, and the second ends as the
    history update of [shown_encoded l] does. *)
Lemma run_two_update t l n r :
  pending t = true → visible t = Some l → exposed l →
  title_at s l = js "404" → title_at s (landing_of l) ≠ js "404" →
  replace_url (landing_of l) (path_query_fragment (shown_encoded l)) = Some r →
  run (2 + n) s t = finish (show t (landing_of l) true) r.
Proof.
  intros Hp Hv Hl Ht Ht' Hr. change (2 + n) with (S (S n)).
  rewrite (run_step s _ _ (show t (landing_of l) true))
    by by apply step_fun_fallback.
  rewrite (run_step s _ _ (finish (show t (landing_of l) true) r)).
  - apply run_settled. by destruct r.
  - rewrite (step_fun_landing_encoded _ l), Hr; [done..|by eapply visible_show| |];
      done.
Qed.

(** The location shown is one the browser accepts, unless the path of the
    request starts with ["//"]. *)
Lemma shown_encoded_accepted l :
  exposed l → ¬ js "//" `prefix_of` pathname l →
  exposed (shown_encoded l) ∧
  ¬ js "//" `prefix_of` pathname (shown_encoded l) ∧
  replace_url (landing_of l) (path_query_fragment (shown_encoded l)) =
  Some (Shown (shown_encoded l)).
Proof.
  intros Hl Hss. pose proof (exposed_exposable l Hl) as Hx.
  pose proof (exposable_shown_encoded l Hx) as Hx'.
  assert (Hss' : ¬ js "//" `prefix_of` pathname (shown_encoded l))
    by (intros ?%shown_encoded_double_slash; [done|by apply exposed_wf]).
  split_and!; [by apply (exposed_same_origin l)|done|].
  apply replace_url_restores; [by apply navigate_landing|done..].
Qed.

(** Whatever the escaping has done to the request, and whatever other
    entries the tab has: the two runs put the location shown into the
    current entry. *)
Lemma run_two_from t l n :
  pending t = true → visible t = Some l →
  exposed l → ¬ js "//" `prefix_of` pathname l →
  title_at s l = js "404" → title_at s (landing_of l) ≠ js "404" →
  run (2 + n) s t = show (show t (landing_of l) true) (shown_encoded l) false.
Proof.
  intros Hp Hv Hl Hss Ht Ht'.
  destruct (shown_encoded_accepted l Hl Hss) as (_ & _ & Hr).
  by rewrite (run_two_update t l n (Shown (shown_encoded l))).
Qed.

Lemma run_two l n :
  exposed l → ¬ js "//" `prefix_of` pathname l →
  title_at s l = js "404" → title_at s (landing_of l) ≠ js "404" →
  run (2 + n) s (open_at l) = Tab [shown_encoded l] 0 2 false None.
Proof. intros. by rewrite (run_two_from (open_at l) l). Qed.

(** While the host answers with the fallback document, every run of the
    script loads the next landing location. *)
Lemma run_fallback_chain n l k :
  exposed l →
  (∀ l', first_segment l' = first_segment l → title_at s l' = js "404") →
  run n s (Tab [l] 0 k true None) = Tab [Nat.iter n landing_of l] 0 (n + k) true None.
Proof.
  revert l k. induction n as [|n IH]; intros l k Hl Hs; [done|].
  rewrite (run_step s n _ (Tab [landing_of l] 0 (S k) true None))
    by (apply (step_fun_fallback (Tab [l] 0 k true None)); auto).
  rewrite IH, Nat.iter_succ_r; [f_equal; lia|by apply navigate_landing|].
  intros l'. rewrite first_segment_landing_of. apply Hs.
Qed.

(** C1: a request the host answers with the fallback document settles on
    the requested location after exactly two document loads: the first run
    of the script loads the landing location, the second shows the
    requested URL again in the same history entry, and no run is pending
    afterwards, however much fuel is left.  The request is any location
    the browser exposes without a leading ["//"], whose first segment has
    no ["&"], whose remaining path and query survive the escaping and
    whose remaining path has no apostrophe; the host serves a real
    document at the landing location. *)
Theorem session_restores l n :
  exposed l → ¬ js "//" `prefix_of` pathname l →
  amp ∉ first_segment l →
  safe escape unescape (after_first_segment l) →
  safe escape unescape (slice 1 (search l)) →
  "'"%char ∉ after_first_segment l →
  title_at s l = js "404" → title_at s (landing_of l) ≠ js "404" →
  run 1 s (open_at l) = Tab [landing_of l] 0 2 true None ∧
  run (2 + n) s (open_at l) = Tab [l] 0 2 false None.
Proof.
  intros Hl Hss Hseg Hp Hq Ha Ht Ht'. split.
  - by rewrite (run_step s 0 _ _ (step_fun_fallback (open_at l) l
                                    eq_refl eq_refl Hl Ht)).
  - rewrite run_two by done.
    by rewrite (proj2 (shown_encoded_safe l (exposed_wf l Hl))).
Qed.

(** C2: the request is restored exactly when its first path segment holds
    no ["&"], the rest of its path and its query survive the escaping and
    the rest of its path has no apostrophe.  For every request the browser
    exposes (no leading ["//"]) that the host answers with the fallback
    document and whose landing location it answers with a real document,
    the tab ends on the requested location, for any fuel from two runs on,
    if and only if the prefix needs no escaping, escaping and unescaping
    gives back the path after the first segment and the query, and that
    path holds no apostrophe (which the browser would encode in the query
    of the landing URL). *)
Theorem session_restores_iff l n :
  exposed l → ¬ js "//" `prefix_of` pathname l →
  title_at s l = js "404" → title_at s (landing_of l) ≠ js "404" →
  run (2 + n) s (open_at l) = Tab [l] 0 2 false None ↔
  (amp ∉ first_segment l) ∧
  safe escape unescape (after_first_segment l) ∧
  safe escape unescape (slice 1 (search l)) ∧
  "'"%char ∉ after_first_segment l.
Proof.
  intros Hl Hss Ht Ht'. rewrite run_two by done.
  rewrite <- shown_encoded_safe by by apply exposed_wf.
  split; [by intros [= ->]|by intros ->].
Qed.

(** C15: whatever the escaping does to the request, the two loads end well.
    For every tab whose current entry is a request the browser exposes
    without a leading ["//"], answered with the fallback document, the tab
    settles after exactly two runs of the script, for any fuel from two
    on: one more document loaded, no exception the tab did not have, the
    current entry replaced and every other entry of the history as it
    was.  The entry shows the location [resolve] has put together, which
    is one the browser exposes as it is, at the origin of the request and
    under its first path segment. *)
Theorem session_settles t l n :
  pending t = true → visible t = Some l →
  exposed l → ¬ js "//" `prefix_of` pathname l →
  title_at s l = js "404" → title_at s (landing_of l) ≠ js "404" →
  run (2 + n) s t =
    {| history := <[current t := shown_encoded l]> (history t);
       current := current t; loads := S (loads t);
       pending := false; uncaught := uncaught t |} ∧
  exposable (shown_encoded l) = true ∧
  origin (shown_encoded l) = origin l ∧
  ("/"%char :: first_segment l) `prefix_of` pathname (shown_encoded l).
Proof.
  intros Hp Hv Hl Hss Ht Ht'.
  split_and!; [|by apply exposable_shown_encoded, exposed_exposable|done|by eexists].
  rewrite (run_two_from t l) by done.
  unfold show. cbn. by rewrite list_insert_insert_eq.
Qed.

(** C16: a reload changes nothing.  After the two runs on a request the
    user reloads the page: the host answers the location shown with the
    fallback document again, the script takes the same two steps, and the
    tab settles on the same location, two more documents loaded, every
    other entry of its history as it was.  This holds for every tab whose
    current entry is a request the browser exposes without a leading
    ["//"] and without ["&"] in its first segment, whatever the escaping
    has done to the request the first time: what the script shows, it
    restores. *)
Theorem reload_restores t l n m :
  pending t = true → visible t = Some l →
  exposed l → ¬ js "//" `prefix_of` pathname l →
  amp ∉ first_segment l →
  title_at s l = js "404" → title_at s (shown_encoded l) = js "404" →
  serves_prefix s (first_segment l) →
  run (2 + m) s (reload (run (2 + n) s t)) =
    {| history := <[current t := shown_encoded l]> (history t);
       current := current t; loads := 3 + loads t;
       pending := false; uncaught := None |}.
Proof.
  intros Hp Hv Hl Hss Hseg Ht Ht' Hs. pose proof (exposed_wf l Hl) as Hwf.
  destruct (shown_encoded_accepted l Hl Hss) as (Hl' & Hss' & _).
  assert (Hs' : ∀ l', first_segment l' = first_segment l →
                      title_at s (landing_of l') ≠ js "404")
    by (intros l' E; apply Hs; cbn [landing_of encoded landing pathname app];
        by rewrite E).
  rewrite (run_two_from t l) by auto.
  rewrite (run_two_from (reload _) (shown_encoded l))
    by (rewrite ?visible_reload; eauto using first_segment_shown_encoded, visible_show).
  unfold show, reload. cbn.
  by rewrite !list_insert_insert_eq, shown_encoded_fixed.
Qed.

(** C17: the script leaves the pages of the site alone.  On a document with
    another title than ["404"], at a location whose query string has no
    key [p], the one run of the script changes nothing: no document is
    loaded, no entry of the history is touched, the query string and the
    fragment of the visit stay, nothing is thrown, and no run follows,
    for any fuel.  It holds for every location, every tab and every
    browser; no law of the interface is needed. *)
Theorem real_document_untouched t l n :
  pending t = true → visible t = Some l →
  title_at s l ≠ js "404" → parse_query (search l) !! js "p" = None →
  run (S n) s t = settle t.
Proof.
  intros Hp Hv Ht Hq. rewrite (run_step s n t (settle t)); [by apply run_settled|].
  unfold step_fun, ghspa, main, resolve. rewrite Hp, Hv. cbn [mbind option_bind].
  rewrite decide_False by done. cbv zeta. rewrite Hq. by destruct (truthy _).
Qed.

(** C7: when the host answers every location under the first path segment
    of the request with the fallback document (a site served at the root
    of its domain, for a path it has no document for), no run of the
    script is the last: after [n] runs the tab has loaded [n + 1] documents
    and a run is pending on the [n]-th landing location. *)
Theorem fallback_under_segment_loops l n :
  exposed l →
  (∀ l', first_segment l' = first_segment l → title_at s l' = js "404") →
  run n s (open_at l) = Tab [Nat.iter n landing_of l] 0 (S n) true None.
Proof.
  intros Hl Hs. unfold open_at. rewrite run_fallback_chain by done.
  f_equal. lia.
Qed.

(** C18: a request whose path starts with ["//"] is not shown again,
    whatever the escaping does to it.  The script hands the path back to
    [history.replaceState], where the segment behind ["//"] is read as a
    host.  When that is another host than that of the document (here: one
    of lower-case letters and dots) the call throws a [SecurityError] and
    the tab keeps the landing URL; when it is the host and port of the
    document the tab shows the rest of the path. *)
Theorem double_slash_request l r n :
  exposed l → pathname l = js "//" ++ r →
  title_at s l = js "404" → title_at s (landing_of l) ≠ js "404" →
  let r' := encode_query (unescape (escape r)) in
  let authority := (cut "/" r').1 in
  (plain_host authority = true → authority ≠ hostname l →
   run (2 + n) s (open_at l) =
   Tab [landing_of l] 0 2 false (Some SecurityError)) ∧
  (authority = host_port l →
   run (2 + n) s (open_at l) =
   Tab [Loc (protocol l) (hostname l) (port l)
            (path_or_root (drop (length authority) r'))
            (search (shown_encoded l)) (hash l)]
       0 2 false None).
Proof.
  intros Hl Hp Ht Ht' r' authority.
  assert (Hseg : first_segment l = [])
    by (apply first_segment_double_slash; rewrite Hp; by eexists).
  assert (Ep : pathname (shown_encoded l) = js "//" ++ r').
  { cbn [shown_encoded pathname].
    rewrite carried_path_plain by (rewrite Hseg; apply not_elem_of_nil).
    unfold after_first_segment. rewrite Hseg, Hp.
    change (drop _ (js "//" ++ r)) with ("/"%char :: r).
    by rewrite unescape_escape_sync, encode_query_other by by_compute. }
  pose proof (exposable_shown_encoded l (exposed_exposable l Hl)) as Hx.
  destruct (navigate_landing l Hl) as [_ Hb].
  split; intros Ha.
  - intros Hne. by rewrite (run_two_update (open_at l) l n (Refused SecurityError))
      by eauto using replace_url_other_host.
  - erewrite (run_two_update (open_at l) l) by eauto using replace_url_same_host.
    cbn [finish show]. by rewrite Ha.
Qed.

(** C11: a request with apostrophes in its path.  The browser leaves an
    apostrophe alone in the path of a URL and writes it ["%27"] in the
    query.  The path of the request goes through the query of the landing
    URL, so for every location the browser exposes, under the conditions
    of the round trip, the tab settles after two loads on the request with
    the apostrophes behind its first segment percent-encoded: the same
    query and fragment, and the path with ["%27"] for each of them. *)
Theorem apostrophe_request l n :
  exposed l → ¬ js "//" `prefix_of` pathname l →
  amp ∉ first_segment l →
  safe escape unescape (after_first_segment l) →
  safe escape unescape (slice 1 (search l)) →
  title_at s l = js "404" → title_at s (landing_of l) ≠ js "404" →
  run (2 + n) s (open_at l) =
  Tab [Loc (protocol l) (hostname l) (port l)
           (("/"%char :: first_segment l) ++ encode_query (after_first_segment l))
           (search l) (hash l)] 0 2 false None.
Proof.
  intros Hl Hss Hseg Hp Hq Ht Ht'. rewrite run_two by done.
  rewrite <- (carried_path_plain l Hseg) in *.
  destruct (shown_encoded_when_safe l (exposed_wf l Hl) Hp Hq) as (Ep & Es).
  do 2 f_equal. rewrite <- Ep, <- Es. by destruct l.
Qed.

(** C12: a request whose first path segment contains ["&"] does not come
    back.  [redirect] does not find the prefix in the escaped path and
    sends the whole path in [p]; [resolve] puts the prefix before it.  After
    the two loads the tab shows the first segment twice, for every such
    request the browser exposes whose path and query survive the escaping;
    the apostrophes of the path come back percent-encoded, as it has gone
    through the query of the landing URL. *)
Theorem amp_segment_request l n :
  exposed l → amp ∈ first_segment l →
  safe escape unescape (pathname l) →
  safe escape unescape (slice 1 (search l)) →
  title_at s l = js "404" → title_at s (landing_of l) ≠ js "404" →
  run (2 + n) s (open_at l) =
  Tab [Loc (protocol l) (hostname l) (port l)
           (("/"%char :: first_segment l) ++ encode_query (pathname l))
           (search l) (hash l)]
      0 2 false None.
Proof.
  intros Hl Hseg Hp Hq Ht Ht'. rewrite run_two; [|done| |done..].
  - rewrite <- (carried_path_amp l Hseg) in *.
    destruct (shown_encoded_when_safe l (exposed_wf l Hl) Hp Hq) as (Ep & Es).
    do 2 f_equal. rewrite <- Ep, <- Es. by destruct l.
  - intros [r Hr]. rewrite first_segment_double_slash in Hseg by by eexists.
    by apply elem_of_nil in Hseg.
Qed.

End requests.

(** ** The examples *)

Section scenarios.
#[local] Existing Instance url_model.

Lemma session_restores_witness :
  run 1 project_site (open_at deep_link) =
    Tab [landing_of deep_link] 0 2 true None ∧
  run (2 + 3) project_site (open_at deep_link) = Tab [deep_link] 0 2 false None.
Proof.
  apply (session_restores project_site deep_link 3);
    solve [by_compute | by vm_compute].
Defined.

Lemma session_restores_iff_witness :
  run (2 + 1) project_site (open_at deep_link) = Tab [deep_link] 0 2 false None ↔
  (amp ∉ first_segment deep_link) ∧
  safe escape unescape (after_first_segment deep_link) ∧
  safe escape unescape (slice 1 (search deep_link)) ∧
  "'"%char ∉ after_first_segment deep_link.
Proof.
  apply (session_restores_iff project_site deep_link 1);
    solve [by_compute | by vm_compute].
Defined.

Lemma double_slash_request_witness :
  run (2 + 0) slash_site (open_at other_host_link) =
    Tab [landing_of other_host_link] 0 2 false (Some SecurityError) ∧
  run (2 + 0) slash_site (open_at same_host_link) =
    Tab [Loc (js "https:") (js "user.github.io") [] (js "/x") [] []] 0 2 false None.
Proof.
  split.
  - apply (double_slash_request slash_site other_host_link (js "evil.example/x") 0);
      solve [by_compute | by vm_compute].
  - apply (double_slash_request slash_site same_host_link (js "user.github.io/x") 0);
      solve [by_compute | by vm_compute].
Defined.

Lemma real_document_untouched_witness :
  run 3 project_site (open_at home_visit) = Tab [home_visit] 0 1 false None.
Proof.
  apply (real_document_untouched project_site (open_at home_visit) home_visit 2);
    by vm_compute.
Defined.

Lemma reload_restores_witness :
  run (2 + 0) project_site
      (reload (run (2 + 1) project_site (open_at ambiguous_link))) =
  Tab [shown_encoded ambiguous_link] 0 4 false None.
Proof.
  apply (reload_restores project_site (open_at ambiguous_link) ambiguous_link 1 0);
    try solve [by_compute | by vm_compute].
  intros l Hl. cbn [project_site project_host serve title_at documents].
  rewrite Hl. by vm_compute.
Defined.

Lemma session_settles_witness :
  run (2 + 1) project_site (Tab [about_page; ambiguous_link] 1 5 true None) =
    Tab [about_page; shown_encoded ambiguous_link] 1 6 false None ∧
  exposable (shown_encoded ambiguous_link) = true ∧
  origin (shown_encoded ambiguous_link) = origin ambiguous_link ∧
  ("/"%char :: first_segment ambiguous_link)
    `prefix_of` pathname (shown_encoded ambiguous_link).
Proof.
  apply (session_settles project_site
           (Tab [about_page; ambiguous_link] 1 5 true None) ambiguous_link 1);
    solve [by_compute | by vm_compute].
Defined.

Lemma fallback_under_segment_loops_witness :
  run 3 root_site (open_at about_page) =
  Tab [Nat.iter 3 landing_of about_page] 0 4 true None.
Proof.
  apply (fallback_under_segment_loops root_site about_page 3); [by vm_compute|].
  intros l' Hl'. cbn [root_site serve title_at documents fallback_title].
  rewrite lookup_singleton_ne; [done|].
  intros E. unfold first_segment in Hl'. by rewrite <- E in Hl'.
Defined.

Lemma amp_segment_request_witness :
  run (2 + 0) amp_site (open_at amp_link) =
  Tab [Loc (js "https:") (js "user.github.io") [] (js "/r&d/r&d/notes") (js "?x=1") []]
      0 2 false None.
Proof.
  apply (amp_segment_request amp_site amp_link 0);
    solve [by_compute | by vm_compute].
Defined.

Lemma apostrophe_request_witness :
  run (2 + 1) project_site (open_at apostrophe_link) =
  Tab [Loc (protocol apostrophe_link) (hostname apostrophe_link) (port apostrophe_link)
           (("/"%char :: first_segment apostrophe_link) ++
            encode_query (after_first_segment apostrophe_link))
           (search apostrophe_link) (hash apostrophe_link)] 0 2 false None.
Proof.
  apply (apostrophe_request project_site apostrophe_link 1);
    solve [by_compute | by vm_compute].
Defined.

(** An apostrophe in the path comes back percent-encoded: the browser
    writes it ["%27"] in the query of the landing URL, and the script shows
    the path it reads from that query. *)
Example apostrophe_comes_back_encoded :
  run 2 project_site (open_at apostrophe_link) =
  Tab [Loc (js "https:") (js "user.github.io") [] (js "/my-repo/it%27s") [] []]
      0 2 false None.
Proof. by vm_compute. Qed.

(** With ["&"] in the first path segment a reload is not harmless: the
    prefix the two runs have put before the path is put before it once
    more. *)
Example amp_segment_reload_grows :
  run 2 amp_site (reload (run 2 amp_site (open_at amp_link))) =
  Tab [Loc (js "https:") (js "user.github.io") [] (js "/r&d/r&d/r&d/notes")
           (js "?x=1") []]
      0 4 false None.
Proof. by vm_compute. Qed.

End scenarios.

End Requests.
